(** * A shallow embedding of the CUDA rasterizer pipeline (src/src/rasterize.cu)

    The development follows the kernels and host functions of
    [rasterize.cu]: the shader [render], [initDepth], the vertex stage
    [_vertexTransformAndAssembly], [_primitiveAssembly], the rasterizer
    [generateFragments], the culling call to [thrust::remove_if], the
    frame loop of [rasterize] and the scene set-up [rasterizeSetBuffers].

    Conventions.
    - The source's [int] values are integers of [Z]; signed overflow is
      undefined behaviour in the source and is not modelled.
    - The source's [float] arithmetic is an interface [Float] with two
      instances: [binary32] (IEEE-754 single precision, round to nearest
      even, from Rocq's [SpecFloat]) on which the definitions compute, and
      the real numbers, used where a property is one of exact arithmetic.
    - Device buffers are lists indexed from 0; an access outside the
      buffer is undefined behaviour in the source: a store outside the
      buffer leaves the modelled buffer as it is, a load outside it reads
      a default value.
    - A kernel whose threads write disjoint cells is the fold of its thread
      body over the launch grid; kernels whose threads contend
      ([_primitiveAssembly], [generateFragments]) are run under an
      arbitrary schedule of their atomic actions.
    - Allocations and copies succeed.  A launch is taken to run; a grid
      of no block (a count of 0 gives [(0 + 127) / 128 = 0] blocks) is an
      invalid configuration that CUDA reports to [checkCUDAError], whose
      code is not among the sources: on such a launch the kernel does
      not run, and what the frame does next is not modelled.  Statements
      that are about such a launch alone are not made.
    - The helpers of rasterizeTools.h, a header that is not among the
      sources, are parameters of the rasterizer.
    - The set-up [rasterizeSetBuffers] is given the contents of the glTF
      accessors and the nodes with their matrices; the kernel
      [_deviceBufferCopy], the node matrices ([traverseNode],
      [getMatrixFromNodeMatrixVector]) and [sendImageToPBO] are modelled
      on their own, in the part on further parts of the source.
    - Left out: [rasterizeFree] and the name look-ups of the glTF scene. *)

From Stdlib Require Import ZArith List Bool Lia Reals Lra.
From Stdlib Require Import Floats.SpecFloat.
From stdpp Require Import base list strings gmap sorting.

Local Open Scope Z_scope.

(** ** Arithmetic of the source's [float] *)

Class Float (F : Type) := {
  f_of_int : Z -> F;                 (* (float) i *)
  f_lit : Z -> positive -> F;        (* the literal n/d, e.g. 0.4f = 4/10 *)
  f_to_int : F -> Z;                 (* (int) x *)
  fadd : F -> F -> F;
  fsub : F -> F -> F;
  fmul : F -> F -> F;
  fdiv : F -> F -> F;
  fsqrt : F -> F;
  feqb : F -> F -> bool;             (* x == y *)
  fltb : F -> F -> bool;             (* x < y *)
  (* the one law the development uses: 0.0f == 0.0f *)
  feqb_zero : feqb (f_of_int 0) (f_of_int 0) = true
}.

Declare Scope float_scope.
Delimit Scope float_scope with fl.
Infix "+" := fadd : float_scope.
Infix "-" := fsub : float_scope.
Infix "*" := fmul : float_scope.
Infix "/" := fdiv : float_scope.
Infix "==?" := feqb (at level 70) : float_scope.
Infix "<?" := fltb : float_scope.

Definition INT_MAX : Z := 2147483647.
Definition INT_MIN : Z := -2147483648.

(** *** IEEE-754 single precision *)

Definition binary32 : Type := spec_float.

Module B32.
Definition prec : Z := 24.
Definition emax : Z := 128.

Definition of_int (i : Z) : binary32 := binary_normalize prec emax i 0 false.

(** The literal [n/d] rounded to the nearest single-precision number. *)
Definition lit (n : Z) (d : positive) : binary32 :=
    match n with
    | Z0 => S754_zero false
    | Zpos p =>
        let '(q, e, l) := SFdiv_core_binary prec emax (Zpos p) 0 (Zpos d) 0 in
        binary_round_aux prec emax false q e l
    | Zneg p =>
        let '(q, e, l) := SFdiv_core_binary prec emax (Zpos p) 0 (Zpos d) 0 in
        binary_round_aux prec emax true q e l
    end.

(** The float-to-int conversion of the device: round toward zero,
      saturating at the ends of the [int] range, NaN to 0.  (C++ leaves the
      out-of-range cases undefined; the device instruction saturates.) *)
Definition to_int (x : binary32) : Z :=
    match x with
    | S754_zero _ => 0
    | S754_nan => 0
    | S754_infinity s => if s then INT_MIN else INT_MAX
    | S754_finite s m e =>
        let mag := if 0 <=? e then Z.shiftl (Zpos m) e else Z.shiftr (Zpos m) (- e) in
        let v := if s then - mag else mag in
        Z.max INT_MIN (Z.min INT_MAX v)
    end.

Definition add := SFadd prec emax.
Definition sub := SFsub prec emax.
Definition mul := SFmul prec emax.
Definition div := SFdiv prec emax.
Definition sqrt := SFsqrt prec emax.
Definition eqb := SFeqb.
Definition ltb := SFltb.
End B32.

#[export] Instance binary32_Float : Float binary32 := {
  f_of_int := B32.of_int;
  f_lit := B32.lit;
  f_to_int := B32.to_int;
  fadd := B32.add;
  fsub := B32.sub;
  fmul := B32.mul;
  fdiv := B32.div;
  fsqrt := B32.sqrt;
  feqb := B32.eqb;
  fltb := B32.ltb;
  feqb_zero := eq_refl
}.

(** *** Exact arithmetic: the real numbers

    Not the source's [float]: no rounding, no NaN, no infinity.  It is
    used only for statements that say so, about what the formulas of the
    source compute before rounding. *)

Module Exact.
Definition to_int (x : R) : Z :=
    if Rle_dec 0 x then Int_part x else (- Int_part (- x))%Z.
Definition eqb (x y : R) : bool := if Req_dec_T x y then true else false.
Definition ltb (x y : R) : bool := if Rlt_dec x y then true else false.
Lemma eqb_refl (x : R) : eqb x x = true.
Proof. unfold eqb. destruct (Req_dec_T x x); [reflexivity | contradiction]. Qed.
End Exact.

#[export] Instance R_Float : Float R := {
  f_of_int := IZR;
  f_lit := fun n d => (IZR n / IZR (Zpos d))%R;
  f_to_int := Exact.to_int;
  fadd := Rplus;
  fsub := Rminus;
  fmul := Rmult;
  fdiv := Rdiv;
  fsqrt := sqrt;
  feqb := Exact.eqb;
  fltb := Exact.ltb;
  feqb_zero := Exact.eqb_refl (IZR 0)
}.

(** ** The parts of glm the source uses *)

Section Glm.
Context {F : Type} `{Float F}.
Local Open Scope float_scope.

Record vec2 := mkvec2 { v2x : F; v2y : F }.
Record vec3 := mkvec3 { v3x : F; v3y : F; v3z : F }.
Record vec4 := mkvec4 { v4x : F; v4y : F; v4z : F; v4w : F }.

(** Matrices are column-major: [m3c0] is the column [m[0]]. *)
Record mat3 := mkmat3 { m3c0 : vec3; m3c1 : vec3; m3c2 : vec3 }.
Record mat4 := mkmat4 { m4c0 : vec4; m4c1 : vec4; m4c2 : vec4; m4c3 : vec4 }.

Definition fzero : F := f_of_int 0.
Definition fone : F := f_of_int 1.

(** [glm::vec3(s)] *)
Definition vec3_splat (s : F) : vec3 := mkvec3 s s s.
Definition vec2_splat (s : F) : vec2 := mkvec2 s s.

(** [a == b] on [glm::vec3]: all components compare equal. *)
Definition vec3_eqb (a b : vec3) : bool :=
    (v3x a ==? v3x b) && (v3y a ==? v3y b) && (v3z a ==? v3z b).

Definition vec3_add (a b : vec3) : vec3 :=
    mkvec3 (v3x a + v3x b) (v3y a + v3y b) (v3z a + v3z b).
Definition vec2_add (a b : vec2) : vec2 :=
    mkvec2 (v2x a + v2x b) (v2y a + v2y b).

(** [s * v] and [v * s] *)
Definition vec3_scale (s : F) (v : vec3) : vec3 :=
    mkvec3 (s * v3x v) (s * v3y v) (s * v3z v).
Definition vec3_mulr (v : vec3) (s : F) : vec3 :=
    mkvec3 (v3x v * s) (v3y v * s) (v3z v * s).
Definition vec2_scale (s : F) (v : vec2) : vec2 :=
    mkvec2 (s * v2x v) (s * v2y v).
Definition vec4_scale (s : F) (v : vec4) : vec4 :=
    mkvec4 (s * v4x v) (s * v4y v) (s * v4z v) (s * v4w v).
Definition vec4_mulr (v : vec4) (s : F) : vec4 :=
    mkvec4 (v4x v * s) (v4y v * s) (v4z v * s) (v4w v * s).
Definition vec4_add (a b : vec4) : vec4 :=
    mkvec4 (v4x a + v4x b) (v4y a + v4y b) (v4z a + v4z b) (v4w a + v4w b).

(** [v /= s] on [glm::vec4] *)
Definition vec4_divr (v : vec4) (s : F) : vec4 :=
    mkvec4 (v4x v / s) (v4y v / s) (v4z v / s) (v4w v / s).

(** [glm::vec3(v4)] drops [w]; [glm::vec4(v3, w)] appends it. *)
Definition vec3_of_vec4 (v : vec4) : vec3 := mkvec3 (v4x v) (v4y v) (v4z v).
Definition vec4_of_vec3 (v : vec3) (w : F) : vec4 :=
    mkvec4 (v3x v) (v3y v) (v3z v) w.

Definition dot3 (a b : vec3) : F :=
    v3x a * v3x b + v3y a * v3y b + v3z a * v3z b.

(** [glm::max(a, b)] is [(a < b) ? b : a]; [glm::min(a, b)] is
      [(b < a) ? b : a]; [glm::clamp(x, lo, hi)] is [min(max(x, lo), hi)]. *)
Definition fmax (a b : F) : F := if a <? b then b else a.
Definition fmin (a b : F) : F := if b <? a then b else a.
Definition fclamp (x lo hi : F) : F := fmin (fmax x lo) hi.
Definition vec3_clamp (v : vec3) (lo hi : F) : vec3 :=
    mkvec3 (fclamp (v3x v) lo hi) (fclamp (v3y v) lo hi) (fclamp (v3z v) lo hi).

(** [glm::normalize(v)] is [v * inversesqrt(dot(v, v))]. *)
Definition inversesqrt (s : F) : F := fone / fsqrt s.
Definition normalize3 (v : vec3) : vec3 := vec3_mulr v (inversesqrt (dot3 v v)).

(** [m * v]: the sum of the columns weighted by the components of [v]. *)
Definition mat4_mul_vec4 (m : mat4) (v : vec4) : vec4 :=
    vec4_add
      (vec4_add (vec4_mulr (m4c0 m) (v4x v)) (vec4_mulr (m4c1 m) (v4y v)))
      (vec4_add (vec4_mulr (m4c2 m) (v4z v)) (vec4_mulr (m4c3 m) (v4w v))).
Definition mat3_mul_vec3 (m : mat3) (v : vec3) : vec3 :=
    vec3_add
      (vec3_add (vec3_mulr (m3c0 m) (v3x v)) (vec3_mulr (m3c1 m) (v3y v)))
      (vec3_mulr (m3c2 m) (v3z v)).
End Glm.

Arguments vec2 F : clear implicits.
Arguments vec3 F : clear implicits.
Arguments vec4 F : clear implicits.
Arguments mat3 F : clear implicits.
Arguments mat4 F : clear implicits.

(** ** Buffers *)

Section Buffers.
Context {A : Type}.

(** [buf[i]] *)
Definition load (d : A) (buf : list A) (i : Z) : A :=
    if 0 <=? i then default d (buf !! Z.to_nat i) else d.

(** [buf[i] = v] *)
Definition store (buf : list A) (i : Z) (v : A) : list A :=
    if 0 <=? i then <[Z.to_nat i := v]> buf else buf.

(** A buffer of [n] cells that all hold [v]. *)
Definition fill (n : Z) (v : A) : list A := replicate (Z.to_nat n) v.

(** [cudaMemset(buf, 0, n * sizeof(A))]: the first [n] cells of [buf]
    become [zero], the value of type [A] whose bytes are all zero. *)
Definition cudaMemset0 (zero : A) (buf : list A) (n : Z) : list A :=
  replicate (Nat.min (Z.to_nat n) (length buf)) zero ++ drop (Z.to_nat n) buf.
End Buffers.

(** ** Compile-time configuration

    The [#define]s at the head of the source.  The source is compiled with
    all four set to 1; they are kept as a record so that both sides of each
    [#if] are part of the embedding. *)

Record Config := mkConfig {
  BACKFACE_CULLING : bool;
  PERSP_CORRECT : bool;
  BILINEAR : bool;
  SAMPLES : Z
}.

Definition source_config : Config := mkConfig true true true 1.

(** ** Data model *)

Inductive PrimitiveType := Point | Line | Triangle.

(** [(int) primitiveType] *)
Definition PrimitiveType_to_int (t : PrimitiveType) : Z :=
  match t with Point => 1 | Line => 2 | Triangle => 3 end.

(** [primitive.mode] of the glTF loader: the six modes the set-up names in
    its [switch], and any other value. *)
Inductive GltfMode :=
  | TINYGLTF_MODE_POINTS
  | TINYGLTF_MODE_LINE
  | TINYGLTF_MODE_LINE_LOOP
  | TINYGLTF_MODE_TRIANGLES
  | TINYGLTF_MODE_TRIANGLE_STRIP
  | TINYGLTF_MODE_TRIANGLE_FAN
  | TINYGLTF_MODE_other (code : Z).

(** [TextureData*]: [None] is the null pointer, [Some bytes] a texture of
    interleaved byte triples. *)
Definition TexturePtr : Type := option (list Z).

Section DataModel.
Context {F : Type} `{Float F}.
Local Open Scope float_scope.

Record VertexOut := mkVertexOut {
  vertexEyePos : vec4 F;
  vertexPerspPos : vec4 F;
  vertexNormal : vec3 F;
  vertexUV : vec2 F;
  diffuseTexture : TexturePtr;
  texWidth : Z;
  texHeight : Z
}.

(** [v[3]] is the three fields [v0], [v1], [v2]. *)
Record Primitive := mkPrimitive {
  primitiveType : PrimitiveType;
  v0 : VertexOut;
  v1 : VertexOut;
  v2 : VertexOut;
  cull : bool
}.

Record Fragment := mkFragment {
  eyeNormal : vec3 F;
  UV : vec2 F;
  frag_diffuseTexture : TexturePtr;
  frag_texWidth : Z;
  frag_texHeight : Z
}.

Record PrimitiveDevBufPointers := mkPrimitiveDevBufPointers {
  primitiveMode : GltfMode;
  numPrimitives : Z;
  numIndices : Z;
  numVertices : Z;
  dev_primitiveType : PrimitiveType;
  dev_indices : list Z;
  dev_position : list (vec3 F);
  dev_normal : list (vec3 F);
  dev_texcoord0 : list (vec2 F);
  dev_diffuseTex : TexturePtr;
  diffuseTexWidth : Z;
  diffuseTexHeight : Z;
  dev_verticesOut : list VertexOut
}.

(** A fragment of all-zero bytes, as [cudaMemset(.., 0, ..)] leaves it. *)
Definition zero_Fragment : Fragment :=
  mkFragment (vec3_splat fzero) (vec2_splat fzero) None 0 0.

Definition zero_VertexOut : VertexOut :=
  mkVertexOut (mkvec4 fzero fzero fzero fzero) (mkvec4 fzero fzero fzero fzero)
    (vec3_splat fzero) (vec2_splat fzero) None 0 0.

(** [p.v[i]] and [p.v[i] = v] for [i] in 0..2 *)
Definition get_v (p : Primitive) (i : Z) : VertexOut :=
  if i =? 0 then v0 p else if i =? 1 then v1 p else v2 p.

Definition set_v (p : Primitive) (i : Z) (v : VertexOut) : Primitive :=
  if i =? 0 then mkPrimitive (primitiveType p) v (v1 p) (v2 p) (cull p)
  else if i =? 1 then mkPrimitive (primitiveType p) (v0 p) v (v2 p) (cull p)
  else if i =? 2 then mkPrimitive (primitiveType p) (v0 p) (v1 p) v (cull p)
  else p.

Definition set_cull (p : Primitive) (c : bool) : Primitive :=
  mkPrimitive (primitiveType p) (v0 p) (v1 p) (v2 p) c.

(** ** The shader: [colorAtPoint], [sample], [sampleBilinear], [render] *)

Definition SAMPLE_WEIGHT (cfg : Config) : F := fone / f_of_int (SAMPLES cfg * SAMPLES cfg).
Definition SAMPLE_JITTER (cfg : Config) : F := fone / f_of_int (SAMPLES cfg).

Definition inverse255 : F := f_lit 392156863 100000000000.

Definition colorAtPoint (t : list Z) (index : Z) : vec3 F :=
  vec3_scale inverse255
    (mkvec3 (f_of_int (load 0 t (index * 3)))
            (f_of_int (load 0 t (index * 3 + 1)))
            (f_of_int (load 0 t (index * 3 + 2)))).

Definition sample (uv : vec2 F) (tex : list Z) (texWidth texHeight : Z) : vec3 F :=
  let uIndex := f_to_int (v2x uv * f_of_int texWidth) in
  let vIndex := f_to_int (v2y uv * f_of_int texHeight) in
  let Index1D := (uIndex + texWidth * vIndex)%Z in
  colorAtPoint tex Index1D.

Definition sampleBilinear (uv : vec2 F) (tex : list Z) (texWidth texHeight : Z) : vec3 F :=
  let uFraction0 := v2x uv * f_of_int texWidth in
  let uIndex := f_to_int uFraction0 in
  let uFraction := uFraction0 - f_of_int uIndex in
  let vFraction0 := v2y uv * f_of_int texHeight in
  let vIndex := f_to_int vFraction0 in
  let vFraction := vFraction0 - f_of_int vIndex in
  let Index1D := (uIndex + texWidth * vIndex)%Z in
  vec3_add
    (vec3_add
      (vec3_add
        (vec3_scale ((fone - uFraction) * (fone - vFraction)) (colorAtPoint tex Index1D))
        (vec3_scale (uFraction * (fone - vFraction))
           (colorAtPoint tex
              (if (uIndex + 1 <? texWidth)%Z then Index1D + 1 else Index1D)%Z)))
      (vec3_scale ((fone - uFraction) * vFraction)
         (colorAtPoint tex
            (if (vIndex + 1 <? texHeight)%Z then Index1D + texWidth else Index1D)%Z)))
    (vec3_scale (uFraction * vFraction)
       (colorAtPoint tex
          (if (uIndex + 1 <? texWidth)%Z && (vIndex + 1 <? texHeight)%Z
           then Index1D + texWidth + 1 else Index1D)%Z)).

(** The base colour of a fragment: white when no texture is bound,
    otherwise the texture sample the configuration selects. *)
Definition baseColor (cfg : Config) (f : Fragment) : vec3 F :=
  match frag_diffuseTexture f with
  | None => mkvec3 fone fone fone
  | Some tex =>
      if BILINEAR cfg
      then sampleBilinear (UV f) tex (frag_texWidth f) (frag_texHeight f)
      else sample (UV f) tex (frag_texWidth f) (frag_texHeight f)
  end.

Definition lightDir : vec3 F := mkvec3 fone fone fone.

(** The body of [render] for the thread at [(x, y)]. *)
Definition render_thread (cfg : Config) (w h : Z) (fragmentBuffer : list Fragment)
    (framebuffer : list (vec3 F)) (xy : Z * Z) : list (vec3 F) :=
  let '(x, y) := xy in
  let index := (x + y * w)%Z in
  if (x <? w)%Z && (y <? h)%Z then
    let f := load zero_Fragment fragmentBuffer index in
    if vec3_eqb (eyeNormal f) (vec3_splat fzero) then
      store framebuffer index (vec3_splat fzero)
    else
      let color := baseColor cfg f in
      let lightValue :=
        fmax (dot3 (eyeNormal (load zero_Fragment fragmentBuffer index)) lightDir)
             (f_lit 4 10) in
      let diffuse := vec3_clamp (vec3_mulr color lightValue) fzero fone in
      store framebuffer index
        (vec3_add (load (vec3_splat fzero) framebuffer index)
                  (vec3_scale (SAMPLE_WEIGHT cfg) diffuse))
  else framebuffer.

(** What [render] does to the cell of a pixel whose fragment is [f]: the
    [diffuse] colour of the source, and the new value of the cell. *)
Definition shade (cfg : Config) (f : Fragment) : vec3 F :=
  vec3_clamp
    (vec3_mulr (baseColor cfg f) (fmax (dot3 (eyeNormal f) lightDir) (f_lit 4 10)))
    fzero fone.

Definition render_cell (cfg : Config) (f : Fragment) (old : vec3 F) : vec3 F :=
  if vec3_eqb (eyeNormal f) (vec3_splat fzero) then vec3_splat fzero
  else vec3_add old (vec3_scale (SAMPLE_WEIGHT cfg) (shade cfg f)).

(** The body of [initDepth] for the thread at [(x, y)]. *)
Definition initDepth_thread (w h : Z) (depth : list Z) (xy : Z * Z) : list Z :=
  let '(x, y) := xy in
  if (x <? w)%Z && (y <? h)%Z then
    let index := (x + y * w)%Z in
    store depth index INT_MAX
  else depth.

End DataModel.

Arguments VertexOut F : clear implicits.
Arguments Primitive F : clear implicits.
Arguments Fragment F : clear implicits.
Arguments PrimitiveDevBufPointers F : clear implicits.

(** ** Kernel launches over a two-dimensional grid

    [rasterize] launches the per-pixel kernels with 8x8 blocks on a grid of
    [(width - 1) / 8 + 1] by [(height - 1) / 8 + 1] blocks; a thread's
    coordinates are [blockIdx * blockDim + threadIdx]. *)

Definition sideLength2d : Z := 8.

(** [(n - 1) / blockSize2d.x + 1], for an image side [n >= 1]. *)
Definition blockCount (n : Z) : Z := Z.quot (n - 1) sideLength2d + 1.

(** The integers [a, a+1, .., b-1]. *)
Definition range (a b : Z) : list Z := seqZ a (b - a).

(** All thread coordinates of the launch, row by row. *)
Definition grid2d (w h : Z) : list (Z * Z) :=
  range 0 (blockCount h * sideLength2d) ≫= fun y =>
  (fun x => (x, y)) <$> range 0 (blockCount w * sideLength2d).

(** The cell of the pixel [(x, y)] in a buffer of rows of [w] pixels, and
    the guard [x < w && y < h] of the per-pixel kernels. *)
Definition pixelIndex (w : Z) (xy : Z * Z) : Z := fst xy + snd xy * w.
Definition inImage (w h : Z) (xy : Z * Z) : bool := (fst xy <? w) && (snd xy <? h).

(** A thread body that, when its guard holds, replaces the content of its
    own cell by a function of it. *)
Definition cellwise {A T : Type} (d : A) (guard : T -> bool) (cell : T -> Z)
    (g : T -> A -> A) (s : list A) (t : T) : list A :=
  if guard t then store s (cell t) (g t (load d s (cell t))) else s.

(** A launch of a kernel whose threads each update their own cell: the
    threads write disjoint cells, so the order of the fold is immaterial. *)
Definition launch2d {S : Type} (body : S -> Z * Z -> S) (w h : Z) (s : S) : S :=
  fold_left body (grid2d w h) s.

Definition initDepth (w h : Z) (depth : list Z) : list Z :=
  launch2d (initDepth_thread w h) w h depth.

Definition render {F} `{Float F} (cfg : Config) (w h : Z)
    (fragmentBuffer : list (Fragment F)) (framebuffer : list (vec3 F)) : list (vec3 F) :=
  launch2d (render_thread cfg w h fragmentBuffer) w h framebuffer.

(** ** One-dimensional launches

    The per-vertex, per-index and per-primitive kernels run with blocks of
    128 threads on [(n + 128 - 1) / 128] blocks. *)

Definition numThreadsPerBlock : Z := 128.

Definition threadCount (n : Z) : Z :=
  Z.quot (n + numThreadsPerBlock - 1) numThreadsPerBlock * numThreadsPerBlock.

Definition grid1d (n : Z) : list Z := range 0 (threadCount n).

Definition launch1d {S : Type} (body : S -> Z -> S) (n : Z) (s : S) : S :=
  fold_left body (grid1d n) s.

(** ** Kernels whose threads contend on shared cells

    A thread is a small machine with a local state; one step performs one
    atomic action on the shared state and may log events.  A schedule names
    the thread that moves next.  [run] executes a schedule; [kernel]
    executes a schedule and then lets every thread that is not finished run
    to its end, so that it always describes a complete launch, and every
    complete interleaving is the [kernel] of some schedule. *)

Section Scheduler.
Context {L Sh E : Type}.
Variable step : L -> Sh -> L * Sh * list E.
Variable finished : L -> bool.
Variable fuel : L -> nat.

Fixpoint run (sched : list nat) (ls : list L) (s : Sh) : list L * Sh * list (nat * E) :=
  match sched with
  | [] => (ls, s, [])
  | t :: sched' =>
      match ls !! t with
      | Some l =>
          if finished l then run sched' ls s
          else
            let '(l', s', es) := step l s in
            let '(ls'', s'', tr) := run sched' (<[t := l']> ls) s' in
            (ls'', s'', map (pair t) es ++ tr)
      | None => run sched' ls s
      end
  end.

(** The schedule that runs thread [t], [t+1], .. one after the other, each
    for as many steps as its [fuel] allows. *)
Fixpoint drain_from (t : nat) (ls : list L) : list nat :=
  match ls with
  | [] => []
  | l :: ls' => replicate (fuel l) t ++ drain_from (S t) ls'
  end.

Definition kernel (sched : list nat) (ls : list L) (s : Sh) : list L * Sh * list (nat * E) :=
  let '(ls1, s1, tr1) := run sched ls s in
  let '(ls2, s2, tr2) := run (drain_from 0 ls1) ls1 s1 in
  (ls2, s2, tr1 ++ tr2).

End Scheduler.

(** Threads that are lists of actions: a step performs the head of the list
    on the shared state and logs it. *)
Section Actions.
Context {E Sh : Type}.
Variable exec : E -> Sh -> Sh.

Definition act_step (l : list E) (s : Sh) : list E * Sh * list E :=
  match l with
  | [] => ([], s, [])
  | a :: l' => (l', exec a s, [a])
  end.

Definition act_finished (l : list E) : bool :=
  match l with [] => true | _ => false end.

End Actions.

(** ** The vertex stage: [_vertexTransformAndAssembly] *)

Section VertexStage.
Context {F : Type} `{Float F}.
Local Open Scope float_scope.

(** The position the vertex stage stores in [vertexPerspPos]: the variable
    [clip] of the source after the divide by [clip.w] and the viewport
    mapping of [x] and [y]. *)
Definition clipOf (MVP : mat4 F) (width height : Z) (position : vec3 F) : vec4 F :=
  let world := vec4_of_vec3 position fone in
  let clip := mat4_mul_vec4 MVP world in
  let clip := vec4_divr clip (v4w clip) in
  mkvec4 ((fone - v4x clip) * f_of_int width / f_lit 2 1)
         ((fone - v4y clip) * f_of_int height / f_lit 2 1)
         (v4z clip) (v4w clip).

(** The vertex written by the thread [vid]. *)
Definition transformVertex (cfg : Config) (primitive : PrimitiveDevBufPointers F)
    (MVP MV : mat4 F) (MV_normal : mat3 F) (width height : Z) (vid : Z) : VertexOut F :=
  let world := vec4_of_vec3 (load (vec3_splat fzero) (dev_position primitive) vid) fone in
  let clip := clipOf MVP width height (load (vec3_splat fzero) (dev_position primitive) vid) in
  let texcoord := load (vec2_splat fzero) (dev_texcoord0 primitive) vid in
  mkVertexOut
    (mat4_mul_vec4 MV world)
    clip
    (normalize3 (mat3_mul_vec3 MV_normal (load (vec3_splat fzero) (dev_normal primitive) vid)))
    (if PERSP_CORRECT cfg then vec2_scale (f_of_int 1 / v4z clip) texcoord else texcoord)
    (dev_diffuseTex primitive)
    (diffuseTexWidth primitive)
    (diffuseTexHeight primitive).

Definition _vertexTransformAndAssembly_thread (cfg : Config) (nVertices : Z)
    (primitive : PrimitiveDevBufPointers F) (MVP MV : mat4 F) (MV_normal : mat3 F)
    (width height : Z) (verticesOut : list (VertexOut F)) (vid : Z) : list (VertexOut F) :=
  if (vid <? nVertices)%Z then
    store verticesOut vid (transformVertex cfg primitive MVP MV MV_normal width height vid)
  else verticesOut.

Definition _vertexTransformAndAssembly (cfg : Config) (nVertices : Z)
    (primitive : PrimitiveDevBufPointers F) (MVP MV : mat4 F) (MV_normal : mat3 F)
    (width height : Z) : PrimitiveDevBufPointers F :=
  mkPrimitiveDevBufPointers
    (primitiveMode primitive) (numPrimitives primitive) (numIndices primitive)
    (numVertices primitive) (dev_primitiveType primitive) (dev_indices primitive)
    (dev_position primitive) (dev_normal primitive) (dev_texcoord0 primitive)
    (dev_diffuseTex primitive) (diffuseTexWidth primitive) (diffuseTexHeight primitive)
    (launch1d
       (_vertexTransformAndAssembly_thread cfg nVertices primitive MVP MV MV_normal
          width height)
       nVertices (dev_verticesOut primitive)).

(** ** Interpolation *)

Definition interpolateBarycentric3 (p0 p1 p2 : vec3 F) (coords : vec3 F) : vec3 F :=
  vec3_add (vec3_add (vec3_scale (v3x coords) p0) (vec3_scale (v3y coords) p1))
           (vec3_scale (v3z coords) p2).

Definition interpolateBarycentric2 (p0 p1 p2 : vec2 F) (coords : vec3 F) : vec2 F :=
  vec2_add (vec2_add (vec2_scale (v3x coords) p0) (vec2_scale (v3y coords) p1))
           (vec2_scale (v3z coords) p2).

Definition interpolatePerspective (p : Primitive F) (coords : vec3 F) (pointDepth : F) : vec2 F :=
  vec2_scale pointDepth
    (vec2_add
       (vec2_add (vec2_scale (v3x coords) (vertexUV (v0 p)))
                 (vec2_scale (v3y coords) (vertexUV (v1 p))))
       (vec2_scale (v3z coords) (vertexUV (v2 p)))).

(** The reference for perspective correction.  Following the
    specification (section 8): the UV obtained by interpolating [UV / z]
    linearly and then dividing by the interpolated [1 / z]; and (section
    4.4, step 5) the true depth of a point, the reciprocal of the
    interpolated reciprocal depth. *)
Definition vec2_divr (v : vec2 F) (s : F) : vec2 F := mkvec2 (v2x v / s) (v2y v / s).

Definition interpolatedReciprocalDepth (z0 z1 z2 : F) (coords : vec3 F) : F :=
  v3x coords * (fone / z0) + v3y coords * (fone / z1) + v3z coords * (fone / z2).

Definition trueDepth (z0 z1 z2 : F) (coords : vec3 F) : F :=
  fone / interpolatedReciprocalDepth z0 z1 z2 coords.

Definition perspectiveCorrectUV (uv0 uv1 uv2 : vec2 F) (z0 z1 z2 : F) (coords : vec3 F)
    : vec2 F :=
  vec2_divr
    (interpolateBarycentric2 (vec2_divr uv0 z0) (vec2_divr uv1 z1) (vec2_divr uv2 z2) coords)
    (interpolatedReciprocalDepth z0 z1 z2 coords).

(** ** Primitive assembly: [_primitiveAssembly]

    The thread of index [iid] stores its vertex in a slot of its own and
    then the cull flag of the primitive, a cell it shares with the other
    threads of that primitive. *)

Inductive AsmAction :=
  | SetVertex (pid slot : Z) (v : VertexOut F)
  | SetCull (pid : Z) (c : bool).

Definition assembledVertex (primitive : PrimitiveDevBufPointers F) (iid : Z) : VertexOut F :=
  load zero_VertexOut (dev_verticesOut primitive) (load 0%Z (dev_indices primitive) iid).

Definition _primitiveAssembly_thread (numIndices curPrimitiveBeginId : Z)
    (primitive : PrimitiveDevBufPointers F) (iid : Z) : list AsmAction :=
  if (iid <? numIndices)%Z then
    let pid :=
      (Z.quot iid (PrimitiveType_to_int (dev_primitiveType primitive)) + curPrimitiveBeginId)%Z in
    let v := assembledVertex primitive iid in
    [ SetVertex pid (Z.rem iid (PrimitiveType_to_int (dev_primitiveType primitive))) v;
      SetCull pid (v3z (vertexNormal v) <? fzero) ]
  else [].

Definition asm_exec (a : AsmAction) (dev_primitives : list (Primitive F)) : list (Primitive F) :=
  match a with
  | SetVertex pid slot v =>
      match (if (0 <=? pid)%Z then dev_primitives !! Z.to_nat pid else None) with
      | Some p => store dev_primitives pid (set_v p slot v)
      | None => dev_primitives
      end
  | SetCull pid c =>
      match (if (0 <=? pid)%Z then dev_primitives !! Z.to_nat pid else None) with
      | Some p => store dev_primitives pid (set_cull p c)
      | None => dev_primitives
      end
  end.

(** The effect of an action on the primitive of index [pid]. *)
Definition asm_apply (pid : Z) (p : Primitive F) (a : AsmAction) : Primitive F :=
  match a with
  | SetVertex pid' slot v => if (pid' =? pid)%Z then set_v p slot v else p
  | SetCull pid' c => if (pid' =? pid)%Z then set_cull p c else p
  end.

Definition asm_step := act_step asm_exec.
Definition asm_finished := @act_finished AsmAction.

(** The launch of [_primitiveAssembly]: one thread per index of the grid,
    run under the schedule [sched]. *)
Definition _primitiveAssembly (sched : list nat) (numIndices curPrimitiveBeginId : Z)
    (dev_primitives : list (Primitive F)) (primitive : PrimitiveDevBufPointers F)
    : list (list AsmAction) * list (Primitive F) * list (nat * AsmAction) :=
  kernel asm_step asm_finished (@length AsmAction) sched
    (_primitiveAssembly_thread numIndices curPrimitiveBeginId primitive
       <$> grid1d numIndices)
    dev_primitives.

(** The last thread to have stored the cull flag of primitive [pid]. *)
Fixpoint last_cull_writer (tr : list (nat * AsmAction)) (pid : Z) : option nat :=
  match tr with
  | [] => None
  | (t, a) :: tr' =>
      match last_cull_writer tr' pid with
      | Some t' => Some t'
      | None =>
          match a with
          | SetCull pid' _ => if (pid' =? pid)%Z then Some t else None
          | SetVertex _ _ _ => None
          end
      end
  end.

(** The last thread to have stored a vertex of primitive [pid]: the thread
    of the last-written vertex. *)
Fixpoint last_vertex_writer (tr : list (nat * AsmAction)) (pid : Z) : option nat :=
  match tr with
  | [] => None
  | (t, a) :: tr' =>
      match last_vertex_writer tr' pid with
      | Some t' => Some t'
      | None =>
          match a with
          | SetVertex pid' _ _ => if (pid' =? pid)%Z then Some t else None
          | SetCull _ _ => None
          end
      end
  end.

End VertexStage.

Arguments AsmAction F : clear implicits.

(** The events of thread [t] in a log, in their order. *)
Definition events_of {E : Type} (t : nat) (tr : list (nat * E)) : list E :=
  (filter (fun e => fst e = t) tr).*2.

(** ** The rasterizer: [generateFragments] *)


(** Modelled from the spec: the type [AABB] of rasterizeTools.h, which is
    not among the sources.  Section 4.4 (step 2) of the specification
    describes it as the integer bounding box of the three screen-space
    points; the loops of [generateFragments] run over [min_x <= x < max_x]
    and [min_y <= y < max_y]. *)
Record AABB := mkAABB { min_x : Z; max_x : Z; min_y : Z; max_y : Z }.

(** Modelled from the spec: the clamp of the bounding box.  Section 4.4
    (step 2) of the specification has the box clamped to the image; the
    helper that computes it, [getAABBForTriangle] of rasterizeTools.h, is
    not among the sources. *)
Definition clampedAABB (width height : Z) (b : AABB) : bool :=
  (0 <=? min_x b) && (max_x b <=? width) && (0 <=? min_y b) && (max_y b <=? height).

Section Rasterizer.
Context {F : Type} `{Float F}.
Local Open Scope float_scope.

Definition triangle : Type := vec3 F * vec3 F * vec3 F.

(** The helpers of rasterizeTools.h, a header that is not among the
    sources, are parameters of the rasterizer. *)
Variable getAABBForTriangle : triangle -> Z -> Z -> AABB.
Variable calculateBarycentricCoordinate : triangle -> vec2 F -> vec3 F.
Variable isBarycentricCoordInBounds : vec3 F -> bool.
Variable getZAtCoordinate : vec3 F -> triangle -> F.

Variable cfg : Config.

(** The pixels of the two nested loops, in the order the loops visit them:
    [x] outermost. *)
Definition pixelsOf (b : AABB) : list (Z * Z) :=
  range (min_x b) (max_x b) ≫= fun x =>
  (fun y => (x, y)) <$> range (min_y b) (max_y b).

Definition triangleOf (p : Primitive F) : triangle :=
  (vec3_of_vec4 (vertexPerspPos (v0 p)),
   vec3_of_vec4 (vertexPerspPos (v1 p)),
   vec3_of_vec4 (vertexPerspPos (v2 p))).

(** The shared state of a launch. *)
Record RasterState := mkRasterState {
  depthBuffer : list Z;
  fragmentBuffer : list (Fragment F)
}.

(** Where a worker stands: scanning the pixels that remain, between the
    [atomicMin] on a pixel and the read that follows it, or returned. *)
Inductive Phase :=
  | Scan (pixels : list (Z * Z))
  | Pending (fragIndex : Z) (barycentricCoord : vec3 F) (depth : F) (pixels : list (Z * Z))
  | Returned.

Record Worker := mkWorker { w_prim : Primitive F; w_phase : Phase }.

Inductive RasterEvent :=
  | EvMin (fragIndex : Z) (value : Z)
  | EvFragment (fragIndex : Z) (f : Fragment F).

(** [(int)(depth * INT_MAX)] *)
Definition encodeDepth (depth : F) : Z := f_to_int (depth * f_of_int INT_MAX).

(** [atomicMin(&depthBuffer[i], v)] *)
Definition atomicMin (depthBuffer : list Z) (i v : Z) : list Z :=
  store depthBuffer i (Z.min (load 0%Z depthBuffer i) v).

(** The fragment a worker stores when it finds its depth in the buffer. *)
Definition fragmentOf (p : Primitive F) (barycentricCoord : vec3 F) (depth : F) : Fragment F :=
  mkFragment
    (interpolateBarycentric3 (vertexNormal (v0 p)) (vertexNormal (v1 p))
       (vertexNormal (v2 p)) barycentricCoord)
    (if PERSP_CORRECT cfg then interpolatePerspective p barycentricCoord depth
     else interpolateBarycentric2 (vertexUV (v0 p)) (vertexUV (v1 p)) (vertexUV (v2 p))
            barycentricCoord)
    (diffuseTexture (v0 p))
    (texWidth (v0 p))
    (texHeight (v0 p)).

(** One atomic action of a worker. *)
Definition raster_step (width height : Z) (sampleOffset : vec2 F)
    (wk : Worker) (s : RasterState) : Worker * RasterState * list RasterEvent :=
  let p := w_prim wk in
  match w_phase wk with
  | Scan [] => (mkWorker p Returned, s, [])
  | Scan ((x, y) :: rest) =>
      let fragIndex := (y * width + x)%Z in
      let barycentricCoord :=
        calculateBarycentricCoordinate (triangleOf p)
          (vec2_add (mkvec2 (f_of_int x) (f_of_int y)) sampleOffset) in
      if isBarycentricCoordInBounds barycentricCoord then
        if (fragIndex >? width * height)%Z then (mkWorker p Returned, s, [])
        else
          let depth := fone / getZAtCoordinate barycentricCoord (triangleOf p) in
          (mkWorker p (Pending fragIndex barycentricCoord depth rest),
           mkRasterState (atomicMin (depthBuffer s) fragIndex (encodeDepth depth))
                         (fragmentBuffer s),
           [EvMin fragIndex (encodeDepth depth)])
      else (mkWorker p (Scan rest), s, [])
  | Pending fragIndex barycentricCoord depth rest =>
      if depth * f_of_int INT_MAX ==? f_of_int (load 0%Z (depthBuffer s) fragIndex) then
        let f := fragmentOf p barycentricCoord depth in
        (mkWorker p (Scan rest),
         mkRasterState (depthBuffer s) (store (fragmentBuffer s) fragIndex f),
         [EvFragment fragIndex f])
      else (mkWorker p (Scan rest), s, [])
  | Returned => (wk, s, [])
  end.

Definition raster_finished (wk : Worker) : bool :=
  match w_phase wk with Returned => true | _ => false end.

Definition raster_fuel (wk : Worker) : nat :=
  match w_phase wk with
  | Scan ps => S (2 * length ps)
  | Pending _ _ _ ps => S (S (2 * length ps))
  | Returned => 0
  end.

(** The state in which the thread [primIdx] starts. *)
Definition generateFragments_thread (numPrimitives : Z) (primitiveBuffer : list (Primitive F))
    (width height : Z) (primIdx : Z) : Worker :=
  let p := load (mkPrimitive Triangle zero_VertexOut zero_VertexOut zero_VertexOut false)
             primitiveBuffer primIdx in
  if (primIdx >=? numPrimitives)%Z then mkWorker p Returned
  else mkWorker p (Scan (pixelsOf (getAABBForTriangle (triangleOf p) width height))).

(** The launch of [generateFragments] under the schedule [sched]. *)
Definition generateFragments (sched : list nat) (numPrimitives : Z)
    (primitiveBuffer : list (Primitive F)) (width height : Z)
    (fragmentBuffer : list (Fragment F)) (depthBuffer : list Z) (sampleOffset : vec2 F)
    : list Worker * RasterState * list (nat * RasterEvent) :=
  kernel (raster_step width height sampleOffset) raster_finished raster_fuel sched
    (generateFragments_thread numPrimitives primitiveBuffer width height
       <$> grid1d numPrimitives)
    (mkRasterState depthBuffer fragmentBuffer).

(** The two loops of one worker when no other worker interferes: the body
    of [generateFragments] as the source writes it, pixel after pixel. *)
Fixpoint generateFragments_loop (p : Primitive F) (width height : Z)
    (sampleOffset : vec2 F) (pixels : list (Z * Z)) (s : RasterState) : RasterState :=
  match pixels with
  | [] => s
  | (x, y) :: rest =>
      let fragIndex := (y * width + x)%Z in
      let barycentricCoord :=
        calculateBarycentricCoordinate (triangleOf p)
          (vec2_add (mkvec2 (f_of_int x) (f_of_int y)) sampleOffset) in
      if isBarycentricCoordInBounds barycentricCoord then
        if (fragIndex >? width * height)%Z then s
        else
          let depth := fone / getZAtCoordinate barycentricCoord (triangleOf p) in
          let depthBuffer' := atomicMin (depthBuffer s) fragIndex (encodeDepth depth) in
          if depth * f_of_int INT_MAX ==? f_of_int (load 0%Z depthBuffer' fragIndex) then
            generateFragments_loop p width height sampleOffset rest
              (mkRasterState depthBuffer'
                 (store (fragmentBuffer s) fragIndex (fragmentOf p barycentricCoord depth)))
          else
            generateFragments_loop p width height sampleOffset rest
              (mkRasterState depthBuffer' (fragmentBuffer s))
      else generateFragments_loop p width height sampleOffset rest s
  end.

(** Whether a pixel is covered by the primitive at the given offset. *)
Definition covered (p : Primitive F) (sampleOffset : vec2 F) (xy : Z * Z) : bool :=
  isBarycentricCoordInBounds
    (calculateBarycentricCoordinate (triangleOf p)
       (vec2_add (mkvec2 (f_of_int (fst xy)) (f_of_int (snd xy))) sampleOffset)).

(** The pixel makes the worker return: it is covered and its index is
    greater than [width * height]. *)
Definition returnsAt (p : Primitive F) (width height : Z) (sampleOffset : vec2 F)
    (xy : Z * Z) : bool :=
  covered p sampleOffset xy && (snd xy * width + fst xy >? width * height)%Z.

(** What a worker in a given phase still does when it runs alone. *)
Definition worker_rest (width height : Z) (sampleOffset : vec2 F)
    (wk : Worker) (s : RasterState) : RasterState :=
  match w_phase wk with
  | Scan pixels => generateFragments_loop (w_prim wk) width height sampleOffset pixels s
  | Pending fragIndex barycentricCoord depth rest =>
      generateFragments_loop (w_prim wk) width height sampleOffset rest
        (snd (fst (raster_step width height sampleOffset wk s)))
  | Returned => s
  end.

End Rasterizer.

Arguments triangle F : clear implicits.
Arguments RasterState F : clear implicits.
Arguments Phase F : clear implicits.
Arguments Worker F : clear implicits.
Arguments RasterEvent F : clear implicits.

(** ** Culling: [toCull] and [thrust::remove_if] *)

Definition toCull {F} `{Float F} (p : Primitive F) : bool := cull p.

Section RemoveIf.
Context {A : Type}.
Variable pred : A -> bool.

(** [thrust::remove_if(first, last, pred)] is the library's stable
    compaction.  It is given here as the reference loop of the standard
    algorithm: [first] scans the range, [result] is the next free cell of
    the kept prefix; the loop returns the array and the new end. *)
Fixpoint remove_if_loop (n : nat) (first result : nat) (arr : list A) : list A * nat :=
  match n with
  | O => (arr, result)
  | S n' =>
      match arr !! first with
      | Some a =>
          if pred a then remove_if_loop n' (S first) result arr
          else remove_if_loop n' (S first) (S result) (<[result := a]> arr)
      | None => (arr, result)
      end
  end.

(** The cells [pred] keeps and the cells it removes, in their order. *)
Definition kept (l : list A) : list A := List.filter (fun a => negb (pred a)) l.
Definition removed (l : list A) : list A := List.filter pred l.

(** Compaction of the first [total] cells of [arr]. *)
Definition remove_if (arr : list A) (total : Z) : list A * Z :=
  let '(arr', new_end) := remove_if_loop (Z.to_nat total) 0 0 arr in
  (arr', Z.of_nat new_end).

End RemoveIf.

(** ** Device state and the scene as the set-up traverses it *)

Section Host.
Context {F : Type} `{Float F}.
Local Open Scope float_scope.

(** The file-level variables of the source, and the temporary map
    [bufferViewDevPointers] of [rasterizeSetBuffers] (the device copies of
    the buffer views that are allocated and not yet freed).  A null device
    pointer is [None]. *)
Record Device := mkDevice {
  width : Z;
  height : Z;
  mesh2PrimitivesMap : gmap string (list (PrimitiveDevBufPointers F));
  totalNumPrimitives : Z;
  dev_primitives : option (list (Primitive F));
  dev_fragmentBuffer : list (Fragment F);
  dev_framebuffer : list (vec3 F);
  dev_depth : list Z;
  bufferViewDevPointers : gmap string (list Z)
}.

(** [rasterizeInit]: the three frame-sized buffers are allocated; the
    fragment buffer and the frame buffer are cleared, the depth buffer keeps
    what the allocation holds ([uninit_depth]). *)
Definition rasterizeInit (uninit_depth : Z) (w h : Z) (d : Device) : Device :=
  mkDevice w h (mesh2PrimitivesMap d) (totalNumPrimitives d) (dev_primitives d)
    (fill (w * h) zero_Fragment) (fill (w * h) (vec3_splat fzero))
    (fill (w * h) uninit_depth) (bufferViewDevPointers d).

(** A glTF primitive as the set-up reads it, with the accessor look-ups
    resolved: the name of its index accessor (empty when it has none), that
    accessor's count and contents, the mode, the count and contents of its
    attribute accessors and its diffuse texture (bytes, width, height). *)
Record GltfPrimitive := mkGltfPrimitive {
  indices : string;
  indexCount : Z;
  indexData : list Z;
  mode : GltfMode;
  vertexCount : Z;
  positionData : list (vec3 F);
  normalData : list (vec3 F);
  texcoordData : list (vec2 F);
  diffuseImage : option (list Z * Z * Z)
}.

Record Mesh := mkMesh { name : string; primitives : list GltfPrimitive }.

(** A node in the order of the node map, with its world matrix, the normal
    matrix derived from it, and its meshes. *)
Record NodeVisit := mkNodeVisit {
  matrix : mat4 F;
  matrixNormal : mat3 F;
  meshes : list Mesh
}.

(** A buffer view: its key, its [target] and the bytes it covers. *)
Record BufferView := mkBufferView { key : string; target : Z; bytes : list Z }.

Record Scene := mkScene { bufferViews : list BufferView; nodes : list NodeVisit }.

(** Early [return] from nested loops. *)
Inductive Flow (A : Type) := Next (a : A) | Return (a : A).
Arguments Next {A} a.
Arguments Return {A} a.

Definition flow_bind {A} (m : Flow A) (k : A -> Flow A) : Flow A :=
  match m with Next a => k a | Return a => Return a end.

Definition flow_out {A} (m : Flow A) : A :=
  match m with Next a => a | Return a => a end.

(** What a fresh [cudaMalloc] holds, and what the locals [primitiveType] and
    [numPrimitives] hold when the [switch] leaves them unassigned, is
    indeterminate: both are parameters. *)
Variable uninit_VertexOut : VertexOut F.
Variable uninit_Primitive : Primitive F.
Variable uninit_primitiveType : PrimitiveType.
Variable uninit_numPrimitives : Z.

(** The [switch (primitive.mode)] of the set-up. *)
Definition primitiveInfo (m : GltfMode) (numIndices : Z) : PrimitiveType * Z :=
  match m with
  | TINYGLTF_MODE_TRIANGLES => (Triangle, Z.quot numIndices 3)
  | TINYGLTF_MODE_TRIANGLE_STRIP => (Triangle, numIndices - 2)
  | TINYGLTF_MODE_TRIANGLE_FAN => (Triangle, numIndices - 2)
  | TINYGLTF_MODE_LINE => (Line, Z.quot numIndices 2)
  | TINYGLTF_MODE_LINE_LOOP => (Line, numIndices + 1)
  | TINYGLTF_MODE_POINTS => (Point, numIndices)
  | TINYGLTF_MODE_other _ => (uninit_primitiveType, uninit_numPrimitives)
  end%Z.

(** [_nodeMatrixTransform] *)
Definition _nodeMatrixTransform_thread (nVertices : Z) (MV : mat4 F) (MV_normal : mat3 F)
    (pn : list (vec3 F) * list (vec3 F)) (vid : Z) : list (vec3 F) * list (vec3 F) :=
  let '(position, normal) := pn in
  if (vid <? nVertices)%Z then
    (store position vid
       (vec3_of_vec4
          (mat4_mul_vec4 MV (vec4_of_vec3 (load (vec3_splat fzero) position vid) fone))),
     store normal vid
       (normalize3 (mat3_mul_vec3 MV_normal (load (vec3_splat fzero) normal vid))))
  else pn.

Definition _nodeMatrixTransform (nVertices : Z) (position normal : list (vec3 F))
    (MV : mat4 F) (MV_normal : mat3 F) : list (vec3 F) * list (vec3 F) :=
  launch1d (_nodeMatrixTransform_thread nVertices MV MV_normal) nVertices (position, normal).

(** The device record the set-up builds for one glTF primitive. *)
Definition devBufPointersOf (M : mat4 F) (MN : mat3 F) (primitive : GltfPrimitive)
    : PrimitiveDevBufPointers F :=
  let numIndices := indexCount primitive in
  let '(primitiveType, numPrimitives) := primitiveInfo (mode primitive) numIndices in
  let numVertices := vertexCount primitive in
  let '(dev_position, dev_normal) :=
    _nodeMatrixTransform numVertices (positionData primitive) (normalData primitive)
      M MN in
  mkPrimitiveDevBufPointers
    (mode primitive) numPrimitives numIndices numVertices primitiveType
    (indexData primitive) dev_position dev_normal (texcoordData primitive)
    (match diffuseImage primitive with Some (t, _, _) => Some t | None => None end)
    (match diffuseImage primitive with Some (_, w, _) => w | None => 0%Z end)
    (match diffuseImage primitive with Some (_, _, h) => h | None => 0%Z end)
    (fill numVertices uninit_VertexOut).

Definition set_map_total (d : Device) (m : gmap string (list (PrimitiveDevBufPointers F)))
    (total : Z) : Device :=
  mkDevice (width d) (height d) m total (dev_primitives d) (dev_fragmentBuffer d)
    (dev_framebuffer d) (dev_depth d) (bufferViewDevPointers d).

(** [mesh2PrimitivesMap.insert(pair(name, empty vector))]: no effect when
    the key is present. *)
Definition insert_mesh (nm : string) (d : Device) : Device :=
  match mesh2PrimitivesMap d !! nm with
  | Some _ => d
  | None => set_map_total d (<[nm := []]> (mesh2PrimitivesMap d)) (totalNumPrimitives d)
  end.

(** [primitiveVector.push_back(..); totalNumPrimitives += numPrimitives] *)
Definition push_primitive (nm : string) (p : PrimitiveDevBufPointers F) (d : Device) : Device :=
  set_map_total d
    (<[nm := default [] (mesh2PrimitivesMap d !! nm) ++ [p]]> (mesh2PrimitivesMap d))
    (totalNumPrimitives d + numPrimitives p)%Z.

(** The test [primitive.indices.empty()] fails. *)
Definition hasIndices (primitive : GltfPrimitive) : Prop :=
  indices primitive <> EmptyString.

(** The loops of the set-up assign only [mesh2PrimitivesMap] and
    [totalNumPrimitives]: the other fields are the same before and after. *)
Definition same_pointers (d d' : Device) : Prop :=
  dev_primitives d' = dev_primitives d
  /\ bufferViewDevPointers d' = bufferViewDevPointers d
  /\ width d' = width d /\ height d' = height d
  /\ dev_fragmentBuffer d' = dev_fragmentBuffer d
  /\ dev_framebuffer d' = dev_framebuffer d
  /\ dev_depth d' = dev_depth d.

(** The loop over the primitives of a mesh. *)
Fixpoint setupPrimitives (M : mat4 F) (MN : mat3 F) (nm : string)
    (ps : list GltfPrimitive) (d : Device) : Flow Device :=
  match ps with
  | [] => Next d
  | primitive :: rest =>
      if decide (indices primitive = EmptyString) then Return d
      else setupPrimitives M MN nm rest
             (push_primitive nm (devBufPointersOf M MN primitive) d)
  end.

(** The loop over the meshes of a node. *)
Fixpoint setupMeshes (M : mat4 F) (MN : mat3 F) (ms : list Mesh) (d : Device)
    : Flow Device :=
  match ms with
  | [] => Next d
  | mesh :: rest =>
      flow_bind
        (setupPrimitives M MN (name mesh) (primitives mesh) (insert_mesh (name mesh) d))
        (setupMeshes M MN rest)
  end.

(** The loop over the nodes. *)
Fixpoint setupNodes (ns : list NodeVisit) (d : Device) : Flow Device :=
  match ns with
  | [] => Next d
  | n :: rest =>
      flow_bind (setupMeshes (matrix n) (matrixNormal n) (meshes n) d) (setupNodes rest)
  end.

(** Step 1: the device copies of the buffer views whose target is not 0. *)
Definition copyBufferViews (vs : list BufferView) : gmap string (list Z) :=
  fold_left
    (fun m bv =>
       if (target bv =? 0)%Z then m
       else match m !! key bv with Some _ => m | None => <[key bv := bytes bv]> m end)
    vs ∅.

(** How a call of [rasterizeSetBuffers] ends: the function returns [void]
    on both paths; the two constructors tell the early [return] from the
    end of the body. *)
Inductive SetupResult := EarlyReturn (d : Device) | Completed (d : Device).

Definition rasterizeSetBuffers (scene : Scene) (d : Device) : SetupResult :=
  let d0 :=
    mkDevice (width d) (height d) (mesh2PrimitivesMap d) 0 (dev_primitives d)
      (dev_fragmentBuffer d) (dev_framebuffer d) (dev_depth d)
      (copyBufferViews (bufferViews scene)) in
  match setupNodes (nodes scene) d0 with
  | Return d1 => EarlyReturn d1
  | Next d1 =>
      Completed
        (mkDevice (width d1) (height d1) (mesh2PrimitivesMap d1) (totalNumPrimitives d1)
           (Some (fill (totalNumPrimitives d1) uninit_Primitive))
           (dev_fragmentBuffer d1) (dev_framebuffer d1) (dev_depth d1) ∅)
  end.

(** The device a call of [rasterizeSetBuffers] leaves, and whether the
    call reached the end of the body. *)
Definition setup_device (r : SetupResult) : Device :=
  match r with EarlyReturn d => d | Completed d => d end.

Definition completed (r : SetupResult) : bool :=
  match r with EarlyReturn _ => false | Completed _ => true end.

End Host.

Arguments Next {A} a.
Arguments Return {A} a.
Arguments Device F : clear implicits.
Arguments GltfPrimitive F : clear implicits.
Arguments Mesh F : clear implicits.
Arguments NodeVisit F : clear implicits.
Arguments Scene F : clear implicits.
Arguments SetupResult F : clear implicits.

(** ** The frame: [rasterize] *)

Section Frame.
Context {F : Type} `{Float F}.
Local Open Scope float_scope.

Variable getAABBForTriangle : triangle F -> Z -> Z -> AABB.
Variable calculateBarycentricCoordinate : triangle F -> vec2 F -> vec3 F.
Variable isBarycentricCoordInBounds : vec3 F -> bool.
Variable getZAtCoordinate : vec3 F -> triangle F -> F.

Variable cfg : Config.

(** The schedules of the launches of a frame whose threads contend: of the
    [k]-th launch of [_primitiveAssembly], and of [generateFragments] in
    the sample pass [(i, j)]. *)
Record Schedules := mkSchedules {
  assembly_schedule : nat -> list nat;
  raster_schedule : Z -> Z -> list nat
}.

(** The entries of [mesh2PrimitivesMap] in the order of its iterator:
    ascending keys. *)
Definition meshes_in_key_order (m : gmap string (list (PrimitiveDevBufPointers F)))
    : list (string * list (PrimitiveDevBufPointers F)) :=
  merge_sort (fun a b => String.leb (fst a) (fst b)) (map_to_list m).

(** The state threaded through the loop over the primitives: the primitive
    buffer, [curPrimitiveBeginId] and the number of launches so far. *)
Definition AsmState : Type := list (Primitive F) * Z * nat.

(** The body of the inner loop: vertex stage, then assembly. *)
Definition assemblePrimitive (sch : Schedules) (MVP MV : mat4 F) (MV_normal : mat3 F)
    (w h : Z) (p : PrimitiveDevBufPointers F) (st : AsmState)
    : PrimitiveDevBufPointers F * AsmState :=
  let '(prims, curPrimitiveBeginId, k) := st in
  let p' := _vertexTransformAndAssembly cfg (numVertices p) p MVP MV MV_normal w h in
  let prims' :=
    snd (fst (_primitiveAssembly (assembly_schedule sch k) (numIndices p)
                curPrimitiveBeginId prims p')) in
  (p', (prims', (curPrimitiveBeginId + numPrimitives p)%Z, S k)).

Fixpoint assemblePrimitives (sch : Schedules) (MVP MV : mat4 F) (MV_normal : mat3 F)
    (w h : Z) (ps : list (PrimitiveDevBufPointers F)) (st : AsmState)
    : list (PrimitiveDevBufPointers F) * AsmState :=
  match ps with
  | [] => ([], st)
  | p :: rest =>
      let '(p', st') := assemblePrimitive sch MVP MV MV_normal w h p st in
      let '(rest', st'') := assemblePrimitives sch MVP MV MV_normal w h rest st' in
      (p' :: rest', st'')
  end.

Fixpoint assembleMeshes (sch : Schedules) (MVP MV : mat4 F) (MV_normal : mat3 F)
    (w h : Z) (ms : list (string * list (PrimitiveDevBufPointers F)))
    (m : gmap string (list (PrimitiveDevBufPointers F))) (st : AsmState)
    : gmap string (list (PrimitiveDevBufPointers F)) * AsmState :=
  match ms with
  | [] => (m, st)
  | (nm, ps) :: rest =>
      let '(ps', st') := assemblePrimitives sch MVP MV MV_normal w h ps st in
      assembleMeshes sch MVP MV MV_normal w h rest (<[nm := ps']> m) st'
  end.

(** The culling step: with [BACKFACE_CULLING] the compaction of the first
    [totalNumPrimitives] cells, otherwise every primitive is kept. *)
Definition cullPrimitives (prims : list (Primitive F)) (total : Z) : list (Primitive F) * Z :=
  if BACKFACE_CULLING cfg then remove_if toCull prims total else (prims, total).

(** One sample pass: clear the fragment buffer, initialise the depth
    buffer, rasterize, shade. The result is the fragment buffer, the depth
    buffer, the frame buffer and the log of the rasterizer's events. *)
Definition samplePass (sched : list nat) (w h : Z) (frontPrims : Z)
    (prims : list (Primitive F)) (i j : Z)
    (fragments : list (Fragment F)) (depth : list Z) (framebuffer : list (vec3 F))
    : list (Fragment F) * list Z * list (vec3 F) * list (nat * RasterEvent F) :=
  let sampleOffset :=
    mkvec2 (f_of_int i * SAMPLE_JITTER cfg) (f_of_int j * SAMPLE_JITTER cfg) in
  let fragmentBuffer0 := cudaMemset0 zero_Fragment fragments (w * h) in
  let depth0 := initDepth w h depth in
  let '(_, s, tr) :=
    generateFragments getAABBForTriangle calculateBarycentricCoordinate
      isBarycentricCoordInBounds getZAtCoordinate cfg sched frontPrims prims w h
      fragmentBuffer0 depth0 sampleOffset in
  (fragmentBuffer s, depthBuffer s, render cfg w h (fragmentBuffer s) framebuffer, tr).

(** The two sample loops, [i] outermost. *)
Definition samplePasses (sch : Schedules) (w h : Z) (frontPrims : Z)
    (prims : list (Primitive F))
    (st : list (Fragment F) * list Z * list (vec3 F))
    : list (Fragment F) * list Z * list (vec3 F) :=
  fold_left
    (fun st ij =>
       let '(fragments, depth, framebuffer) := st in
       fst (samplePass (raster_schedule sch (fst ij) (snd ij)) w h frontPrims prims
              (fst ij) (snd ij) fragments depth framebuffer))
    (flat_map (fun i => map (fun j => (i, j)) (range 0 (SAMPLES cfg))) (range 0 (SAMPLES cfg)))
    st.

(** [rasterize], up to the frame buffer that [sendImageToPBO] copies out:
    the device when every launch of the frame runs.  The one-dimensional
    launches of a frame have [(n + 127) / 128] blocks, for [n] the
    [numVertices] and [numIndices] of a record and [frontPrims]; where one
    of them is 0 the launch is invalid, its kernel does not run (it has no
    thread here either), and the error goes to [checkCUDAError]. *)
Definition rasterize (sch : Schedules) (MVP MV : mat4 F) (MV_normal : mat3 F)
    (d : Device F) : Device F :=
  let w := width d in
  let h := height d in
  let '(m', (prims, _, _)) :=
    assembleMeshes sch MVP MV MV_normal w h (meshes_in_key_order (mesh2PrimitivesMap d))
      (mesh2PrimitivesMap d) (default [] (dev_primitives d), 0%Z, O) in
  let '(prims', frontPrims) := cullPrimitives prims (totalNumPrimitives d) in
  let framebuffer0 := cudaMemset0 (vec3_splat fzero) (dev_framebuffer d) (w * h) in
  let '(fragmentBuffer', depth', framebuffer') :=
    samplePasses sch w h frontPrims prims' (dev_fragmentBuffer d, dev_depth d, framebuffer0) in
  mkDevice w h m' (totalNumPrimitives d)
    (match dev_primitives d with Some _ => Some prims' | None => None end)
    fragmentBuffer' framebuffer' depth' (bufferViewDevPointers d).

End Frame.

(** ** Example data (single precision)

    Concrete helpers, a primitive and buffers on which the definitions are
    evaluated. *)

(** A fragment with the normal (0,0,1) and no texture, in single precision. *)
Definition facing_Fragment : Fragment binary32 :=
  mkFragment (mkvec3 fzero fzero fone) (vec2_splat fzero) None 0 0.

Definition quarter : vec3 binary32 := vec3_splat (f_lit 1 4).

(** The sample position itself, read as a barycentric triple. *)
Definition demo_barycentric : triangle binary32 -> vec2 binary32 -> vec3 binary32 :=
  fun _ pt => mkvec3 (v2x pt) (v2y pt) fzero.

(** The triples of the sample positions (0,2) and (1,0). *)
Definition demo_inBounds (b : vec3 binary32) : bool :=
  (feqb (v3x b) (f_of_int 0) && feqb (v3y b) (f_of_int 2))
  || (feqb (v3x b) (f_of_int 1) && feqb (v3y b) (f_of_int 0)).

Definition demo_getZ : vec3 binary32 -> triangle binary32 -> binary32 :=
  fun _ _ => f_of_int 2.

Definition demo_vertex (normal : vec3 binary32) : VertexOut binary32 :=
  mkVertexOut (mkvec4 fzero fzero fzero fone) (mkvec4 fzero fzero fone fone)
    normal (vec2_splat fzero) None 0 0.

Definition demo_primitive : Primitive binary32 :=
  mkPrimitive Triangle (demo_vertex (mkvec3 fzero fzero fone))
    (demo_vertex (vec3_splat fzero)) (demo_vertex (vec3_splat fzero)) false.

Definition demo_offset : vec2 binary32 := vec2_splat fzero.

(** A 3x1 image at the start of a pass. *)
Definition demo_state : RasterState binary32 :=
  mkRasterState [INT_MAX; INT_MAX; INT_MAX] [zero_Fragment; zero_Fragment; zero_Fragment].

(** A box inside the 3x1 image: the pixels (0,0) and (1,0). *)
Definition demo_getAABB_clamped : triangle binary32 -> Z -> Z -> AABB :=
  fun _ _ _ => mkAABB 0 2 0 1.

Definition demo_framebuffer : list (vec3 binary32) :=
  [vec3_splat fzero; vec3_splat fzero; vec3_splat fzero].

(** A mesh primitive of one triangle whose second vertex faces away. *)
Definition demo_devBufPointers : PrimitiveDevBufPointers binary32 :=
  mkPrimitiveDevBufPointers TINYGLTF_MODE_TRIANGLES 1 3 3 Triangle [0; 1; 2]
    [] [] [] None 0 0
    [ demo_vertex (mkvec3 fzero fzero fone);
      demo_vertex (mkvec3 fzero fzero (f_of_int (-1)));
      demo_vertex (mkvec3 fzero fzero fone) ].

(** Exact arithmetic: a mesh primitive whose vertices lie at the depths 1,
    2 and 4 with the texture coordinates (1,0), (0,1), (1,1), the identity
    as every matrix, and a sample point inside the triangle. *)
Definition exact_devBufPointers : PrimitiveDevBufPointers R :=
  mkPrimitiveDevBufPointers TINYGLTF_MODE_TRIANGLES 1 3 3 Triangle [0; 1; 2]
    [mkvec3 0%R 0%R 1%R; mkvec3 0%R 0%R 2%R; mkvec3 0%R 0%R 4%R]
    [mkvec3 0%R 0%R 1%R; mkvec3 0%R 0%R 1%R; mkvec3 0%R 0%R 1%R]
    [mkvec2 1%R 0%R; mkvec2 0%R 1%R; mkvec2 1%R 1%R]
    None 0 0 [zero_VertexOut; zero_VertexOut; zero_VertexOut].

Definition exact_identity4 : mat4 R :=
  mkmat4 (mkvec4 1%R 0%R 0%R 0%R) (mkvec4 0%R 1%R 0%R 0%R)
         (mkvec4 0%R 0%R 1%R 0%R) (mkvec4 0%R 0%R 0%R 1%R).

Definition exact_identity3 : mat3 R :=
  mkmat3 (mkvec3 1%R 0%R 0%R) (mkvec3 0%R 1%R 0%R) (mkvec3 0%R 0%R 1%R).

Definition exact_coords : vec3 R := mkvec3 (1 / 2)%R (1 / 4)%R (1 / 4)%R.

(** A scene of one node with one mesh that holds one primitive in line
    mode with the two indices 0 and 1, and the device after
    [rasterizeInit] for a 2x2 image. *)
Definition demo_identity4 : mat4 binary32 :=
  mkmat4 (mkvec4 fone fzero fzero fzero) (mkvec4 fzero fone fzero fzero)
         (mkvec4 fzero fzero fone fzero) (mkvec4 fzero fzero fzero fone).

Definition demo_identity3 : mat3 binary32 :=
  mkmat3 (mkvec3 fone fzero fzero) (mkvec3 fzero fone fzero) (mkvec3 fzero fzero fone).

Definition demo_line_primitive : GltfPrimitive binary32 :=
  mkGltfPrimitive "accessor_indices" 2 [0; 1] TINYGLTF_MODE_LINE 2
    [mkvec3 fzero fzero fone; mkvec3 fone fzero fone]
    [mkvec3 fzero fzero fone; mkvec3 fzero fzero fone]
    [vec2_splat fzero; vec2_splat fone]
    None.

Definition demo_line_scene : Scene binary32 :=
  mkScene [mkBufferView "bufferView_indices" 34963 [0; 0; 1; 0]]
    [mkNodeVisit demo_identity4 demo_identity3 [mkMesh "line" [demo_line_primitive]]].

Definition demo_device : Device binary32 :=
  rasterizeInit 0 2 2 (mkDevice 0 0 ∅ 0 None [] [] [] ∅).

(** The same mesh followed by a primitive without indices and a further
    primitive. *)
Definition demo_no_indices : GltfPrimitive binary32 :=
  mkGltfPrimitive "" 0 [] TINYGLTF_MODE_TRIANGLES 0 [] [] [] None.

Definition demo_broken_scene : Scene binary32 :=
  mkScene [mkBufferView "bufferView_indices" 34963 [0; 0; 1; 0]]
    [mkNodeVisit demo_identity4 demo_identity3
       [mkMesh "line" [demo_line_primitive; demo_no_indices; demo_line_primitive]]].

Definition demo_setup :=
  rasterizeSetBuffers (demo_vertex (vec3_splat fzero)) demo_primitive Triangle 0.

(** A frame on the device the set-up leaves for the line scene. *)
Definition demo_frame (d : Device binary32) : Device binary32 :=
  rasterize demo_getAABB_clamped demo_barycentric demo_inBounds demo_getZ source_config
    (mkSchedules (fun _ => []) (fun _ _ => []))
    demo_identity4 demo_identity4 demo_identity3 d.

(** Two samples per axis on a 1x1 image: the primitive covers the pixel at
    the sample positions whose x offset is below 0.25, that is in the
    passes (0,0) and (0,1), and not in the passes (1,0) and (1,1). *)
Definition supersampling_config : Config := mkConfig true true true 2.

Definition edge_getAABB : triangle binary32 -> Z -> Z -> AABB :=
  fun _ _ _ => mkAABB 0 1 0 1.

Definition edge_barycentric : triangle binary32 -> vec2 binary32 -> vec3 binary32 :=
  fun _ pt => mkvec3 fone (v2x pt) fzero.

Definition edge_inBounds (b : vec3 binary32) : bool := fltb (v3y b) (f_lit 1 4).

Definition edge_pass (i j : Z) (st : list (Fragment binary32) * list Z * list (vec3 binary32))
    : list (Fragment binary32) * list Z * list (vec3 binary32) :=
  fst (samplePass edge_getAABB edge_barycentric edge_inBounds demo_getZ
         supersampling_config [] 1 1 1 [demo_primitive] i j
         (fst (fst st)) (snd (fst st)) (snd st)).

Definition edge_start : list (Fragment binary32) * list Z * list (vec3 binary32) :=
  ([zero_Fragment], [0], [vec3_splat fzero]).

(** The mesh primitive and the sample point of the exact-arithmetic
    example, in single precision. *)
Definition single_devBufPointers : PrimitiveDevBufPointers binary32 :=
  mkPrimitiveDevBufPointers TINYGLTF_MODE_TRIANGLES 1 3 3 Triangle [0; 1; 2]
    [mkvec3 fzero fzero (f_of_int 1); mkvec3 fzero fzero (f_of_int 2);
     mkvec3 fzero fzero (f_of_int 4)]
    [mkvec3 fzero fzero fone; mkvec3 fzero fzero fone; mkvec3 fzero fzero fone]
    [mkvec2 fone fzero; mkvec2 fzero fone; mkvec2 fone fone]
    None 0 0 [zero_VertexOut; zero_VertexOut; zero_VertexOut].

Definition single_coords : vec3 binary32 := mkvec3 (f_lit 1 2) (f_lit 1 4) (f_lit 1 4).

(** * Further parts of the source *)

(** ** The rasterizer: what a worker stores, whatever the schedule *)

Section RasterizerPrograms.
Context {F : Type} `{Float F}.
Local Open Scope float_scope.

Variable calculateBarycentricCoordinate : triangle F -> vec2 F -> vec3 F.
Variable isBarycentricCoordInBounds : vec3 F -> bool.
Variable getZAtCoordinate : vec3 F -> triangle F -> F.

(** The depth [1.0f / getZAtCoordinate(..)] of the primitive at a pixel. *)
Definition depthAt (p : Primitive F) (sampleOffset : vec2 F) (xy : Z * Z) : F :=
  fone / getZAtCoordinate
           (calculateBarycentricCoordinate (triangleOf p)
              (vec2_add (mkvec2 (f_of_int (fst xy)) (f_of_int (snd xy))) sampleOffset))
           (triangleOf p).

(** The [atomicMin] calls of a worker that still has [pixels] to scan, as
    pairs of cell and value, in their order.  Neither the test of coverage
    nor the guard on the index reads the shared buffers, so the list is a
    function of the primitive and the pixels alone. *)
Fixpoint min_program (p : Primitive F) (width height : Z) (sampleOffset : vec2 F)
    (pixels : list (Z * Z)) : list (Z * Z) :=
  match pixels with
  | [] => []
  | xy :: rest =>
      if covered calculateBarycentricCoordinate isBarycentricCoordInBounds p sampleOffset xy
      then
        if (snd xy * width + fst xy >? width * height)%Z then []
        else (snd xy * width + fst xy, encodeDepth (depthAt p sampleOffset xy))%Z
             :: min_program p width height sampleOffset rest
      else min_program p width height sampleOffset rest
  end.

Definition worker_min_program (width height : Z) (sampleOffset : vec2 F) (wk : Worker F)
    : list (Z * Z) :=
  match w_phase wk with
  | Scan pixels => min_program (w_prim wk) width height sampleOffset pixels
  | Pending _ _ _ rest => min_program (w_prim wk) width height sampleOffset rest
  | Returned => []
  end.

(** The cells a worker may still store a fragment in: the cell it is
    pending on, and the cells of its [atomicMin] calls to come. *)
Definition worker_cells (width height : Z) (sampleOffset : vec2 F) (wk : Worker F) : list Z :=
  match w_phase wk with
  | Pending fragIndex _ _ rest =>
      fragIndex :: (min_program (w_prim wk) width height sampleOffset rest).*1
  | _ => (worker_min_program width height sampleOffset wk).*1
  end.

(** The [atomicMin] calls of thread [t] in a log. *)
Definition mins_of (t : nat) (tr : list (nat * RasterEvent F)) : list (Z * Z) :=
  omap (fun e => match e with EvMin i v => Some (i, v) | EvFragment _ _ => None end)
       (events_of t tr).

End RasterizerPrograms.

(** ** The strided copy: [_deviceBufferCopy]

    Bytes are integers.  Thread [i] copies component [i]: the
    [componentTypeByteSize] bytes of component [offset] of attribute
    [count]. *)

Definition _deviceBufferCopy_thread (N : Z) (dev_src : list Z)
    (n byteStride byteOffset componentTypeByteSize : Z) (dev_dst : list Z) (i : Z) : list Z :=
  if i <? N then
    let count := Z.quot i n in
    let offset := i - count * n in
    fold_left
      (fun dst j =>
         store dst (count * componentTypeByteSize * n + offset * componentTypeByteSize + j)
           (load 0 dev_src
              (byteOffset
               + count * (if byteStride =? 0 then componentTypeByteSize * n else byteStride)
               + offset * componentTypeByteSize
               + j)))
      (range 0 componentTypeByteSize) dev_dst
  else dev_dst.

Definition _deviceBufferCopy (N : Z) (dev_dst dev_src : list Z)
    (n byteStride byteOffset componentTypeByteSize : Z) : list Z :=
  launch1d (_deviceBufferCopy_thread N dev_src n byteStride byteOffset componentTypeByteSize)
    N dev_dst.

(** ** Counting the primitives of the mesh map *)

(** The primitives of the records of one mesh, and of all meshes of the
    map: the sums of the fields [numPrimitives]. *)
Definition primitiveCount {F} (ps : list (PrimitiveDevBufPointers F)) : Z :=
  fold_right Z.add 0 (map numPrimitives ps).

Definition registeredPrimitives {F} (m : gmap string (list (PrimitiveDevBufPointers F))) : Z :=
  fold_right Z.add 0 (map (fun e => primitiveCount (snd e)) (map_to_list m)).

(** ** The node matrices of the set-up: [getMatrixFromNodeMatrixVector]
    and [traverseNode] *)

(** How a call ends that may throw ([std::out_of_range] of [at]) and whose
    recursion need not end: [OutOfFuel] stands for a recursion deeper than
    the fuel that was given. *)
Inductive Outcome (A : Type) := Done (a : A) | Throws | OutOfFuel.
Arguments Done {A} a.
Arguments Throws {A}.
Arguments OutOfFuel {A}.

Section NodeMatrices.
Context {F : Type} `{Float F}.
Local Open Scope float_scope.

(** A node of the scene: the vectors [matrix], [translation], [rotation]
    and [scale], their doubles converted to [float], and the names of the
    children. *)
Record Node := mkNode {
  node_matrix : list F;
  node_translation : list F;
  node_rotation : list F;
  node_scale : list F;
  node_children : list string
}.

(** [glm::mat4(1.0f)] *)
Definition mat4_identity : mat4 F :=
  mkmat4 (mkvec4 fone fzero fzero fzero) (mkvec4 fzero fone fzero fzero)
         (mkvec4 fzero fzero fone fzero) (mkvec4 fzero fzero fzero fone).

(** [a * b] on [glm::mat4]: column [k] of the product is the sum of the
    columns of [a] weighted by the components of column [k] of [b]. *)
Definition mat4_mul (a b : mat4 F) : mat4 F :=
  let column (c : vec4 F) :=
    vec4_add
      (vec4_add
         (vec4_add (vec4_mulr (m4c0 a) (v4x c)) (vec4_mulr (m4c1 a) (v4y c)))
         (vec4_mulr (m4c2 a) (v4z c)))
      (vec4_mulr (m4c3 a) (v4w c)) in
  mkmat4 (column (m4c0 b)) (column (m4c1 b)) (column (m4c2 b)) (column (m4c3 b)).

(** [m[i][j] = v]: component [j] of column [i]. *)
Definition vec4_set (c : vec4 F) (j : Z) (v : F) : vec4 F :=
  if (j =? 0)%Z then mkvec4 v (v4y c) (v4z c) (v4w c)
  else if (j =? 1)%Z then mkvec4 (v4x c) v (v4z c) (v4w c)
  else if (j =? 2)%Z then mkvec4 (v4x c) (v4y c) v (v4w c)
  else if (j =? 3)%Z then mkvec4 (v4x c) (v4y c) (v4z c) v
  else c.

Definition mat4_set (m : mat4 F) (i j : Z) (v : F) : mat4 F :=
  if (i =? 0)%Z then mkmat4 (vec4_set (m4c0 m) j v) (m4c1 m) (m4c2 m) (m4c3 m)
  else if (i =? 1)%Z then mkmat4 (m4c0 m) (vec4_set (m4c1 m) j v) (m4c2 m) (m4c3 m)
  else if (i =? 2)%Z then mkmat4 (m4c0 m) (m4c1 m) (vec4_set (m4c2 m) j v) (m4c3 m)
  else if (i =? 3)%Z then mkmat4 (m4c0 m) (m4c1 m) (m4c2 m) (vec4_set (m4c3 m) j v)
  else m.

(** [glm::mat4_cast(q)] for the quaternion [q] whose components 0, 1 and 2
    the source assigns, and [glm::scale(v)]: functions of glm that are
    parameters here. *)
Variable mat4_cast : F -> F -> F -> mat4 F.
Variable glm_scale : vec3 F -> mat4 F.

(** The pairs [(i, j)] of the two loops over the matrix, [i] outermost. *)
Definition matrix_entries : list (Z * Z) :=
  range 0 4 ≫= fun i => (fun j => (i, j)) <$> range 0 4.

(** [getMatrixFromNodeMatrixVector]; [None] when [m.at] throws. *)
Definition getMatrixFromNodeMatrixVector (n : Node) : option (mat4 F) :=
  let m := node_matrix n in
  if (0 <? length m)%nat then
    fold_left
      (fun cur ij =>
         match cur with
         | Some curMatrix =>
             match m !! Z.to_nat (4 * fst ij + snd ij) with
             | Some v => Some (mat4_set curMatrix (fst ij) (snd ij) v)
             | None => None
             end
         | None => None
         end)
      matrix_entries (Some mat4_identity)
  else
    let curMatrix0 := mat4_identity in
    let curMatrix1 :=
      if (0 <? length (node_translation n))%nat then
        mat4_set
          (mat4_set
             (mat4_set curMatrix0 3 0 (load fzero (node_translation n) 0))
             3 1 (load fzero (node_translation n) 1))
          3 2 (load fzero (node_translation n) 2)
      else curMatrix0 in
    let curMatrix2 :=
      if (0 <? length (node_rotation n))%nat then
        mat4_mul curMatrix1
          (mat4_cast (load fzero (node_rotation n) 0) (load fzero (node_rotation n) 1)
             (load fzero (node_rotation n) 2))
      else curMatrix1 in
    let curMatrix3 :=
      if (0 <? length (node_scale n))%nat then
        mat4_mul curMatrix2
          (glm_scale
             (mkvec3 (load fzero (node_scale n) 0) (load fzero (node_scale n) 1)
                (load fzero (node_scale n) 2)))
      else curMatrix2 in
    Some curMatrix3.

(** [n2m.insert(pair(nodeString, M))]: no effect when the key is present. *)
Definition insert_matrix (nodeString : string) (M : mat4 F)
    (n2m : gmap string (mat4 F)) : gmap string (mat4 F) :=
  match n2m !! nodeString with
  | Some _ => n2m
  | None => <[nodeString := M]> n2m
  end.

(** [traverseNode]: the map [n2m] is passed by reference, the result is
    the map at the return.  [scene_nodes.at] throws for a name that is not
    a node of the scene. *)
Fixpoint traverseNode (fuel : nat) (n2m : gmap string (mat4 F))
    (scene_nodes : gmap string Node) (nodeString : string) (parentMatrix : mat4 F)
    : Outcome (gmap string (mat4 F)) :=
  match fuel with
  | O => OutOfFuel
  | S fuel' =>
      match scene_nodes !! nodeString with
      | None => Throws
      | Some n =>
          match getMatrixFromNodeMatrixVector n with
          | None => Throws
          | Some local =>
              let M := mat4_mul parentMatrix local in
              (fix loop (it : list string) (n2m : gmap string (mat4 F)) :=
                 match it with
                 | [] => Done n2m
                 | child :: rest =>
                     match traverseNode fuel' n2m scene_nodes child M with
                     | Done n2m' => loop rest n2m'
                     | Throws => Throws
                     | OutOfFuel => OutOfFuel
                     end
                 end) (node_children n) (insert_matrix nodeString M n2m)
          end
      end
  end.

(** The loop of the set-up over the root nodes of the default scene. *)
Fixpoint traverseRoots (fuel : nat) (n2m : gmap string (mat4 F))
    (scene_nodes : gmap string Node) (rootNodeNamesList : list string)
    : Outcome (gmap string (mat4 F)) :=
  match rootNodeNamesList with
  | [] => Done n2m
  | root :: rest =>
      match traverseNode fuel n2m scene_nodes root mat4_identity with
      | Done n2m' => traverseRoots fuel n2m' scene_nodes rest
      | Throws => Throws
      | OutOfFuel => OutOfFuel
      end
  end.

End NodeMatrices.

Arguments Node F : clear implicits.

(** ** The copy to the display: [sendImageToPBO] *)

(** [uchar4]: four bytes. *)
Record uchar4 := mkuchar4 { c4x : Z; c4y : Z; c4z : Z; c4w : Z }.

Definition zero_uchar4 : uchar4 := mkuchar4 0 0 0 0.

Section Display.
Context {F : Type} `{Float F}.
Local Open Scope float_scope.

(** [glm::clamp(c, 0.0f, 1.0f) * 255.0], stored in a [float].  The source
    multiplies in [double]; the product of a [float] and 255 is exact
    there, so its rounding to [float] is the [float] product. *)
Definition channelTo255 (c : F) : F := fclamp c fzero fone * f_of_int 255.

(** The texel of a colour: the channels converted to [unsigned char],
    which truncates, and [w = 0]. *)
Definition texelOf (c : vec3 F) : uchar4 :=
  mkuchar4 (f_to_int (channelTo255 (v3x c))) (f_to_int (channelTo255 (v3y c)))
    (f_to_int (channelTo255 (v3z c))) 0.

(** The body of [sendImageToPBO] for the thread at [(x, y)]. *)
Definition sendImageToPBO_thread (w h : Z) (image : list (vec3 F)) (pbo : list uchar4)
    (xy : Z * Z) : list uchar4 :=
  let '(x, y) := xy in
  let index := (x + y * w)%Z in
  if (x <? w)%Z && (y <? h)%Z then
    store pbo index (texelOf (load (vec3_splat fzero) image index))
  else pbo.

Definition sendImageToPBO (pbo : list uchar4) (w h : Z) (image : list (vec3 F))
    : list uchar4 :=
  launch2d (sendImageToPBO_thread w h image) w h pbo.

End Display.

(** ** Further example data *)

(** Single precision: a texture of 2x2 texels, and the same bytes followed
    by one more. *)
Definition demo_texture : list Z := [10; 20; 30; 40; 50; 60; 70; 80; 90; 100; 110; 120].
Definition demo_texture_longer : list Z := demo_texture ++ [255].
Definition demo_uv : vec2 binary32 := mkvec2 (f_lit 1 4) (f_lit 1 4).

(** A strip of five indices. *)
Definition demo_strip_primitive : GltfPrimitive binary32 :=
  mkGltfPrimitive "accessor_indices" 5 [0; 1; 2; 3; 4] TINYGLTF_MODE_TRIANGLE_STRIP 5
    [] [] [] None.

(** A scene graph of a root with one leaf, and one whose only node is its
    own child; glm's rotation and scale matrices are stood for by the
    identity. *)
Definition demo_mat4_cast : binary32 -> binary32 -> binary32 -> mat4 binary32 :=
  fun _ _ _ => demo_identity4.
Definition demo_glm_scale : vec3 binary32 -> mat4 binary32 := fun _ => demo_identity4.

Definition demo_nodes : gmap string (Node binary32) :=
  <["root" := mkNode [] [] [] [] ["leaf"]]> (<["leaf" := mkNode [] [] [] [] []]> ∅).

Definition demo_cycle : gmap string (Node binary32) :=
  <["a" := mkNode [] [] [] [] ["a"]]> ∅.

Definition demo_rank (nm : string) : nat := if decide (nm = "root") then 1%nat else 0%nat.

Definition demo_short_matrix : Node binary32 :=
  mkNode [fone; fzero; fzero] [] [] [] [].

(** * Properties *)

(** ** Buffers *)

Section BufferFacts.
Context {A : Type}.
Implicit Types (buf : list A) (i j : Z) (v d : A).

Lemma length_store buf i v : length (store buf i v) = length buf.
Proof. unfold store. destruct (0 <=? i); [apply length_insert | done]. Qed.

Lemma load_store_eq d buf i v :
  0 <= i < Z.of_nat (length buf) -> load d (store buf i v) i = v.
Proof.
  intros [Hi Hl]. unfold load, store.
  destruct (Z.leb_spec 0 i); [|lia].
  rewrite list_lookup_insert_eq by lia. done.
Qed.

Lemma load_store_ne d buf i j v : i <> j -> load d (store buf i v) j = load d buf j.
Proof.
  intros Hij. unfold load, store.
  destruct (Z.leb_spec 0 i), (Z.leb_spec 0 j); try done.
  rewrite list_lookup_insert_ne by lia. done.
Qed.

Lemma store_out_of_range buf i v :
  ~ (0 <= i < Z.of_nat (length buf)) -> store buf i v = buf.
Proof.
  intros Hi. unfold store. destruct (Z.leb_spec 0 i); [|done].
  apply list_insert_ge. lia.
Qed.

Lemma load_fill d n v i : 0 <= i < n -> load d (fill n v) i = v.
Proof.
  intros [Hi Hn]. unfold load, fill.
  destruct (Z.leb_spec 0 i); [|lia].
  rewrite lookup_replicate_2 by lia. done.
Qed.

Lemma length_fill n v : length (fill n v) = Z.to_nat n.
Proof. apply length_replicate. Qed.
End BufferFacts.

(** ** The culler *)

Section RemoveIfFacts.
Context {A : Type}.
Variable pred : A -> bool.

Lemma kept_snoc l a : kept pred (l ++ [a]) = if pred a then kept pred l else kept pred l ++ [a].
Proof.
  unfold kept. rewrite List.filter_app. simpl.
  destruct (pred a); simpl; [apply app_nil_r | done].
Qed.

Lemma length_kept_le l : (length (kept pred l) <= length l)%nat.
Proof. apply List.filter_length_le. Qed.

Lemma length_kept_removed l : (length (kept pred l) + length (removed pred l) = length l)%nat.
Proof.
  unfold kept, removed. induction l as [|a l IH]; simpl; [done|].
  destruct (pred a); simpl; lia.
Qed.

(** The loop invariant: after scanning the first [first] cells the array is
    the kept part of what was scanned, followed by the original cells from
    the position [result] on. *)
Lemma remove_if_loop_spec (orig : list A) n first :
  (first + n <= length orig)%nat ->
  remove_if_loop pred n first (length (kept pred (take first orig)))
    (kept pred (take first orig) ++ drop (length (kept pred (take first orig))) orig)
  = (kept pred (take (first + n) orig) ++ drop (length (kept pred (take (first + n) orig))) orig,
     length (kept pred (take (first + n) orig))).
Proof.
  revert first. induction n as [|n IH]; intros first Hle; simpl.
  { by rewrite Nat.add_0_r. }
  pose proof (length_kept_le (take first orig)) as Hk.
  rewrite length_take in Hk.
  destruct (lookup_lt_is_Some_2 orig first) as [a Ha]; [lia|].
  assert (Hlook : (kept pred (take first orig)
                   ++ drop (length (kept pred (take first orig))) orig) !! first = Some a).
  { rewrite lookup_app_r by lia. rewrite lookup_drop. rewrite <- Ha. f_equal. lia. }
  rewrite Hlook.
  assert (Htake : take (S first) orig = take first orig ++ [a]).
  { by apply take_S_r. }
  replace (first + S n)%nat with (S first + n)%nat by lia.
  destruct (pred a) eqn:Hp.
  - rewrite <- (IH (S first)) by lia.
    rewrite Htake, kept_snoc, Hp. done.
  - rewrite <- (IH (S first)) by lia.
    rewrite Htake, kept_snoc, Hp. rewrite length_app. simpl.
    replace (length (kept pred (take first orig)) + 1)%nat
      with (S (length (kept pred (take first orig)))) by lia.
    f_equal.
    rewrite insert_app_r_alt by lia. rewrite Nat.sub_diag.
    rewrite <- app_assoc. f_equal.
    destruct (lookup_lt_is_Some_2 orig (length (kept pred (take first orig)))) as [b Hb]; [lia|].
    rewrite (drop_S _ _ _ Hb). done.
Qed.

Lemma remove_if_spec (arr : list A) :
  remove_if pred arr (Z.of_nat (length arr))
  = (kept pred arr ++ drop (length (kept pred arr)) arr, Z.of_nat (length (kept pred arr))).
Proof.
  unfold remove_if. rewrite Nat2Z.id.
  pose proof (remove_if_loop_spec arr (length arr) 0) as Hs.
  simpl in Hs. rewrite drop_0 in Hs. simpl in Hs.
  rewrite firstn_all in Hs. rewrite Hs by lia. done.
Qed.

End RemoveIfFacts.

Section CullerFacts.
Context {F : Type} `{Float F}.

(** C5. On every primitive array the culler leaves, as a contiguous prefix,
    exactly the primitives whose cull flag is false, in the order they had in
    the input, and returns the length of that prefix; survivors and culled
    primitives add up to the original count. *)
Theorem culler_stable_partition
    (persp bilinear : bool) (samples : Z) (prims : list (Primitive F)) :
  let cfg := mkConfig true persp bilinear samples in
  let arr := fst (cullPrimitives cfg prims (Z.of_nat (length prims))) in
  let frontPrims := snd (cullPrimitives cfg prims (Z.of_nat (length prims))) in
  take (Z.to_nat frontPrims) arr = List.filter (fun p => negb (cull p)) prims
  /\ frontPrims = Z.of_nat (length (List.filter (fun p => negb (cull p)) prims))
  /\ frontPrims + Z.of_nat (length (List.filter (fun p => cull p) prims))
     = Z.of_nat (length prims)
  /\ length arr = length prims.
Proof.
  simpl. unfold cullPrimitives. simpl.
  rewrite remove_if_spec. simpl.
  pose proof (length_kept_removed toCull prims) as Hsum.
  pose proof (length_kept_le toCull prims) as Hle.
  unfold kept, removed, toCull in *.
  repeat split.
  - rewrite Nat2Z.id. rewrite take_app_length. done.
  - lia.
  - rewrite length_app, length_drop. lia.
Qed.

End CullerFacts.

(** ** Launches of per-pixel kernels *)

Section CellwiseFacts.
Context {A T : Type}.
Variable d : A.
Variable guard : T -> bool.
Variable cell : T -> Z.
Variable g : T -> A -> A.

Lemma length_fold_cellwise (l : list T) (s : list A) :
  length (fold_left (cellwise d guard cell g) l s) = length s.
Proof.
  revert s. induction l as [|t l IH]; intros s; simpl; [done|].
  rewrite IH. unfold cellwise. destruct (guard t); [apply length_store | done].
Qed.

(** Threads that do not own the cell [c] leave it as it is. *)
Lemma fold_cellwise_miss (l : list T) (s : list A) (c : Z) :
  (forall t, t ∈ l -> guard t = true -> cell t <> c) ->
  load d (fold_left (cellwise d guard cell g) l s) c = load d s c.
Proof.
  revert s. induction l as [|t l IH]; intros s Hmiss; simpl; [done|].
  rewrite IH.
  - unfold cellwise. destruct (guard t) eqn:Hg; [|done].
    apply load_store_ne. apply Hmiss; [left | done].
  - intros t' Ht'. apply Hmiss. by right.
Qed.

(** The one thread that owns a cell decides its content. *)
Lemma fold_cellwise_hit (l : list T) (s : list A) (t : T) :
  NoDup l -> t ∈ l -> guard t = true ->
  (forall t', t' ∈ l -> guard t' = true -> cell t' = cell t -> t' = t) ->
  0 <= cell t < Z.of_nat (length s) ->
  load d (fold_left (cellwise d guard cell g) l s) (cell t) = g t (load d s (cell t)).
Proof.
  intros Hnd Hin Hg Hinj Hrange.
  destruct (list_elem_of_split _ _ Hin) as (l1 & l2 & ->).
  apply NoDup_app in Hnd as (_ & Hl1 & Hl2%NoDup_cons).
  destruct Hl2 as [Hl2 _].
  rewrite fold_left_app. simpl.
  rewrite fold_cellwise_miss.
  - unfold cellwise at 1. rewrite Hg.
    rewrite load_store_eq by (rewrite length_fold_cellwise; lia).
    f_equal. apply fold_cellwise_miss.
    intros t' Ht' Hg' Hc. apply (Hl1 t' Ht').
    rewrite (Hinj t'); [left | | done | done].
    rewrite elem_of_app. by left.
  - intros t' Ht' Hg' Hc. apply Hl2.
    rewrite <- (Hinj t'); [done | | done | done].
    rewrite elem_of_app. right. by right.
Qed.

End CellwiseFacts.

Section GridFacts.

Lemma blockCount_covers n : 0 < n -> n <= blockCount n * sideLength2d.
Proof.
  intros Hn. unfold blockCount, sideLength2d.
  pose proof (Z.quot_rem' (n - 1) 8) as Hq.
  pose proof (Z.rem_bound_pos (n - 1) 8) as Hr. lia.
Qed.

Lemma elem_of_grid2d w h x y :
  (x, y) ∈ grid2d w h
  <-> 0 <= x < blockCount w * sideLength2d /\ 0 <= y < blockCount h * sideLength2d.
Proof.
  unfold grid2d, range. rewrite list_elem_of_bind. split.
  - intros (y' & Hx & Hy). apply list_elem_of_fmap in Hx as (x' & Heq & Hx).
    inversion Heq; subst. apply elem_of_seqZ in Hx, Hy. lia.
  - intros [Hx Hy]. exists y. split.
    + apply list_elem_of_fmap. exists x. split; [done|]. apply elem_of_seqZ. lia.
    + apply elem_of_seqZ. lia.
Qed.

Lemma NoDup_grid2d w h : NoDup (grid2d w h).
Proof.
  unfold grid2d. apply NoDup_bind.
  - intros y1 y2 [x y] _ _ H1 H2.
    apply list_elem_of_fmap in H1 as (? & Heq1 & _).
    apply list_elem_of_fmap in H2 as (? & Heq2 & _). congruence.
  - intros y _. apply NoDup_fmap_2; [|apply NoDup_seqZ].
    intros x1 x2 Heq. congruence.
  - apply NoDup_seqZ.
Qed.

(** Inside the image the pixel index determines the pixel. *)
Lemma pixelIndex_inj w h (t t' : Z * Z) :
  t ∈ grid2d w h -> t' ∈ grid2d w h ->
  inImage w h t = true -> inImage w h t' = true ->
  pixelIndex w t' = pixelIndex w t -> t' = t.
Proof.
  destruct t as [x y], t' as [x' y'].
  rewrite !elem_of_grid2d. unfold inImage, pixelIndex. simpl.
  rewrite !andb_true_iff, !Z.ltb_lt.
  intros [Hx Hy] [Hx' Hy'] [Hw Hh] [Hw' Hh'] Heq.
  assert (y' = y) by nia. subst. f_equal. lia.
Qed.

(** A launch of a per-pixel kernel applies the thread's update to the cell
    of every pixel of the image, once. *)
Lemma launch2d_cellwise {A} (d : A) (g : Z * Z -> A -> A) w h (s : list A) x y :
  0 <= x < w -> 0 <= y < h -> Z.of_nat (length s) = w * h ->
  load d (launch2d (cellwise d (inImage w h) (pixelIndex w) g) w h s) (x + y * w)
  = g (x, y) (load d s (x + y * w)).
Proof.
  intros Hx Hy Hlen. unfold launch2d.
  change (x + y * w) with (pixelIndex w (x, y)).
  assert (Hin : (x, y) ∈ grid2d w h).
  { apply elem_of_grid2d.
    pose proof (blockCount_covers w). pose proof (blockCount_covers h). lia. }
  assert (Hg : inImage w h (x, y) = true).
  { unfold inImage. simpl. apply andb_true_iff. rewrite !Z.ltb_lt. lia. }
  apply fold_cellwise_hit; [apply NoDup_grid2d | done | done | |].
  - intros t' Ht' Hg' Hc. by apply (pixelIndex_inj w h (x, y) t').
  - unfold pixelIndex. simpl. nia.
Qed.

Lemma length_launch2d_cellwise {A} (d : A) guard cell (g : Z * Z -> A -> A) w h (s : list A) :
  length (launch2d (cellwise d guard cell g) w h s) = length s.
Proof. apply length_fold_cellwise. Qed.

End GridFacts.

(** ** The shader *)

Section ShaderFacts.
Context {F : Type} `{Float F}.

Lemma render_thread_cellwise cfg w h (fragmentBuffer : list (Fragment F)) framebuffer xy :
  render_thread cfg w h fragmentBuffer framebuffer xy
  = cellwise (vec3_splat fzero) (inImage w h) (pixelIndex w)
      (fun t old => render_cell cfg (load zero_Fragment fragmentBuffer (pixelIndex w t)) old)
      framebuffer xy.
Proof.
  destruct xy as [x y]. unfold render_thread, cellwise, inImage, pixelIndex, render_cell, shade.
  simpl. destruct ((x <? w) && (y <? h)); [|done].
  destruct (vec3_eqb _ _); done.
Qed.

Lemma render_launch cfg w h (fragmentBuffer : list (Fragment F)) framebuffer :
  render cfg w h fragmentBuffer framebuffer
  = launch2d
      (cellwise (vec3_splat fzero) (inImage w h) (pixelIndex w)
         (fun t old => render_cell cfg (load zero_Fragment fragmentBuffer (pixelIndex w t)) old))
      w h framebuffer.
Proof.
  unfold render, launch2d. generalize (grid2d w h) framebuffer.
  intros l; induction l as [|t l IH]; intros fb; simpl; [done|].
  rewrite render_thread_cellwise. apply IH.
Qed.

(** The shader at one pixel of the image: the cell of the pixel becomes
    [render_cell] of the pixel's fragment and of the cell's old content. *)
Lemma render_pixel cfg w h (fragmentBuffer : list (Fragment F)) framebuffer x y :
  0 <= x < w -> 0 <= y < h -> Z.of_nat (length framebuffer) = w * h ->
  load (vec3_splat fzero) (render cfg w h fragmentBuffer framebuffer) (x + y * w)
  = render_cell cfg (load zero_Fragment fragmentBuffer (x + y * w))
      (load (vec3_splat fzero) framebuffer (x + y * w)).
Proof.
  intros Hx Hy Hlen. rewrite render_launch.
  by rewrite launch2d_cellwise.
Qed.

Lemma length_render cfg w h (fragmentBuffer : list (Fragment F)) framebuffer :
  length (render cfg w h fragmentBuffer framebuffer) = length framebuffer.
Proof. rewrite render_launch. apply length_launch2d_cellwise. Qed.

(** The additive path of the shader: a pixel whose fragment has a normal
    that does not compare equal to zero has [SAMPLE_WEIGHT * diffuse] added
    to its cell. *)
Lemma render_pixel_shaded cfg w h (fragmentBuffer : list (Fragment F)) framebuffer x y :
  0 <= x < w -> 0 <= y < h -> Z.of_nat (length framebuffer) = w * h ->
  vec3_eqb (eyeNormal (load zero_Fragment fragmentBuffer (x + y * w))) (vec3_splat fzero)
    = false ->
  load (vec3_splat fzero) (render cfg w h fragmentBuffer framebuffer) (x + y * w)
  = vec3_add (load (vec3_splat fzero) framebuffer (x + y * w))
      (vec3_scale (SAMPLE_WEIGHT cfg)
         (shade cfg (load zero_Fragment fragmentBuffer (x + y * w)))).
Proof.
  intros Hx Hy Hlen Hn. rewrite render_pixel by done.
  unfold render_cell. by rewrite Hn.
Qed.

(** The other path: a pixel whose fragment has the zero normal has its
    cell set to zero, whatever the cell held. *)
Lemma render_pixel_background cfg w h (fragmentBuffer : list (Fragment F)) framebuffer x y :
  0 <= x < w -> 0 <= y < h -> Z.of_nat (length framebuffer) = w * h ->
  vec3_eqb (eyeNormal (load zero_Fragment fragmentBuffer (x + y * w))) (vec3_splat fzero)
    = true ->
  load (vec3_splat fzero) (render cfg w h fragmentBuffer framebuffer) (x + y * w)
  = vec3_splat fzero.
Proof.
  intros Hx Hy Hlen Hn. rewrite render_pixel by done.
  unfold render_cell. by rewrite Hn.
Qed.

(** C8. A pixel whose fragment has a non-zero normal and a null texture
    pointer is shaded with the base colour white (1,1,1): its cell gains
    [SAMPLE_WEIGHT * clamp(white * max(dot(normal, (1,1,1)), 0.4), 0, 1)];
    it is neither left out nor set to the background. *)
Theorem render_untextured_white cfg w h (fragmentBuffer : list (Fragment F))
    framebuffer x y :
  0 <= x < w -> 0 <= y < h -> Z.of_nat (length framebuffer) = w * h ->
  vec3_eqb (eyeNormal (load zero_Fragment fragmentBuffer (x + y * w))) (vec3_splat fzero)
    = false ->
  frag_diffuseTexture (load zero_Fragment fragmentBuffer (x + y * w)) = None ->
  baseColor cfg (load zero_Fragment fragmentBuffer (x + y * w)) = mkvec3 fone fone fone
  /\ load (vec3_splat fzero) (render cfg w h fragmentBuffer framebuffer) (x + y * w)
     = vec3_add (load (vec3_splat fzero) framebuffer (x + y * w))
         (vec3_scale (SAMPLE_WEIGHT cfg)
            (vec3_clamp
               (vec3_mulr (mkvec3 fone fone fone)
                  (fmax (dot3 (eyeNormal (load zero_Fragment fragmentBuffer (x + y * w)))
                           (mkvec3 fone fone fone))
                        (f_lit 4 10)))
               fzero fone)).
Proof.
  intros Hx Hy Hlen Hn Htex.
  assert (Hbase : baseColor cfg (load zero_Fragment fragmentBuffer (x + y * w))
                  = mkvec3 fone fone fone).
  { unfold baseColor. by rewrite Htex. }
  split; [done|].
  rewrite render_pixel_shaded by done.
  unfold shade. by rewrite Hbase.
Qed.

End ShaderFacts.

(** A 2x1 image whose second pixel faces the viewer without a texture:
    its cell goes from 0.25 to 1.25. *)
Lemma render_untextured_white_witness :
  load (vec3_splat fzero)
    (render source_config 2 1 [zero_Fragment; facing_Fragment] [quarter; quarter]) 1
  = vec3_splat (f_lit 5 4).
Proof.
  pose proof (render_untextured_white (F := binary32) source_config 2 1
                [zero_Fragment; facing_Fragment] [quarter; quarter] 1 0) as Hw.
  destruct Hw as [_ Hw]; [lia | lia | reflexivity | reflexivity | reflexivity |].
  change (1 + 0 * 2) with 1 in Hw. rewrite Hw. vm_compute. reflexivity.
Defined.

(** C2, the code at a failing input. Two samples per axis. In the kernel:
    a pixel whose cell holds 0.25 in every channel from an earlier pass and
    whose fragment has the zero normal in this pass has its cell set to
    zero. In a frame: a pixel that the primitive covers in the first two
    sample passes and not in the last two holds 0.25, then 0.5, then zero;
    the frame ends with zero in the cell, the two contributions are gone. *)
Theorem render_background_overwrites :
  render supersampling_config 1 1 [zero_Fragment] [quarter] = [vec3_splat fzero]
  /\ snd (edge_pass 0 0 edge_start) = [quarter]
  /\ snd (edge_pass 0 1 (edge_pass 0 0 edge_start)) = [vec3_splat (f_lit 1 2)]
  /\ snd (edge_pass 1 0 (edge_pass 0 1 (edge_pass 0 0 edge_start))) = [vec3_splat fzero]
  /\ snd (samplePasses edge_getAABB edge_barycentric edge_inBounds demo_getZ
            supersampling_config (mkSchedules (fun _ => []) (fun _ _ => []))
            1 1 1 [demo_primitive] edge_start)
     = [vec3_splat fzero].
Proof. vm_compute. repeat split; reflexivity. Qed.

(** ** Schedules *)

Section SchedulerFacts.
Context {L Sh E : Type}.
Variable step : L -> Sh -> L * Sh * list E.
Variable finished : L -> bool.
Variable fuel : L -> nat.

Local Abbreviation runS := (run step finished).
Local Abbreviation kernelS := (kernel step finished fuel).

Lemma run_app (sched1 sched2 : list nat) (ls : list L) (s : Sh) :
  runS (sched1 ++ sched2) ls s
  = let '(ls1, s1, tr1) := runS sched1 ls s in
    let '(ls2, s2, tr2) := runS sched2 ls1 s1 in
    (ls2, s2, tr1 ++ tr2).
Proof.
  revert ls s. induction sched1 as [|t sched1 IH]; intros ls s; simpl.
  { by destruct (runS sched2 ls s) as [[??]?]. }
  destruct (ls !! t) as [l|]; [|apply IH].
  destruct (finished l); [apply IH|].
  destruct (step l s) as [[l' s'] es].
  rewrite IH.
  destruct (runS sched1 (<[t:=l']> ls) s') as [[ls1 s1] tr1].
  destruct (runS sched2 ls1 s1) as [[ls2 s2] tr2].
  by rewrite app_assoc.
Qed.

(** A complete launch is the run of a schedule. *)
Lemma kernel_is_run (sched : list nat) (ls : list L) (s : Sh) :
  exists sched', kernelS sched ls s = runS (sched ++ sched') ls s.
Proof.
  unfold kernel.
  destruct (runS sched ls s) as [[ls1 s1] tr1] eqn:Hrun.
  exists (drain_from fuel 0 ls1). rewrite run_app, Hrun. done.
Qed.

(** Induction over a run: a relation between the shared state before, the
    shared state after and the log that holds of the empty run and is
    preserved when a step is put in front. *)
Lemma run_ind (Q : Sh -> Sh -> list (nat * E) -> Prop) :
  (forall s, Q s s []) ->
  (forall t l s l' s1 es s' tr,
      finished l = false -> step l s = (l', s1, es) -> Q s1 s' tr ->
      Q s s' (map (pair t) es ++ tr)) ->
  forall sched ls s, Q s (snd (fst (runS sched ls s))) (snd (runS sched ls s)).
Proof.
  intros Hrefl Hstep sched.
  induction sched as [|t sched IH]; intros ls s; simpl; [apply Hrefl|].
  destruct (ls !! t) as [l|]; [|apply IH].
  destruct (finished l) eqn:Hfin; [apply IH|].
  destruct (step l s) as [[l' s1] es] eqn:Hs.
  specialize (IH (<[t:=l']> ls) s1).
  destruct (runS sched (<[t:=l']> ls) s1) as [[ls2 s2] tr]. simpl in *.
  by eapply Hstep.
Qed.

Lemma length_run (sched : list nat) (ls : list L) (s : Sh) :
  length (fst (fst (runS sched ls s))) = length ls.
Proof.
  revert ls s. induction sched as [|t sched IH]; intros ls s; simpl; [done|].
  destruct (ls !! t) as [l|]; [|apply IH].
  destruct (finished l); [apply IH|].
  destruct (step l s) as [[l' s1] es].
  specialize (IH (<[t:=l']> ls) s1).
  destruct (runS sched (<[t:=l']> ls) s1) as [[ls2 s2] tr]. simpl in *.
  by rewrite IH, length_insert.
Qed.

Hypothesis fuel_finished : forall l, fuel l = O -> finished l = true.
Hypothesis fuel_step :
  forall l s, finished l = false -> (fuel (fst (fst (step l s))) < fuel l)%nat.

Lemma run_replicate_finished (n : nat) (t : nat) (ls : list L) (s : Sh) (l : L) :
  ls !! t = Some l -> finished l = true -> runS (replicate n t) ls s = (ls, s, []).
Proof.
  intros Hl Hfin. induction n as [|n IH]; simpl; [done|].
  by rewrite Hl, Hfin.
Qed.

(** Scheduling one thread as often as its fuel allows finishes it and
    leaves the other threads where they are. *)
Lemma run_replicate (n : nat) (t : nat) (ls : list L) (s : Sh) (l : L) :
  ls !! t = Some l -> (fuel l <= n)%nat ->
  exists l', fst (fst (runS (replicate n t) ls s)) = <[t:=l']> ls /\ finished l' = true.
Proof.
  revert ls s l. induction n as [|n IH]; intros ls s l Hl Hn; simpl.
  { exists l. split; [by rewrite list_insert_id | apply fuel_finished; lia]. }
  rewrite Hl. destruct (finished l) eqn:Hfin.
  - exists l. rewrite (run_replicate_finished n t ls s l) by done.
    split; [by rewrite list_insert_id | done].
  - pose proof (fuel_step l s Hfin) as Hdec.
    destruct (step l s) as [[l1 s1] es]. simpl in Hdec.
    destruct (IH (<[t:=l1]> ls) s1 l1) as (l' & Hrun & Hl').
    { apply list_lookup_insert_eq. by eapply lookup_lt_Some. }
    { lia. }
    destruct (runS (replicate n t) (<[t:=l1]> ls) s1) as [[ls2 s2] tr]. simpl in *.
    exists l'. split; [|done]. by rewrite Hrun, list_insert_insert_eq.
Qed.

Lemma run_drain (ls pre : list L) (s : Sh) :
  Forall (fun l => finished l = true) pre ->
  Forall (fun l => finished l = true)
    (fst (fst (runS (drain_from fuel (length pre) ls) (pre ++ ls) s))).
Proof.
  revert pre s. induction ls as [|l ls IH]; intros pre s Hpre; simpl.
  { by rewrite app_nil_r. }
  rewrite run_app.
  destruct (run_replicate (fuel l) (length pre) (pre ++ l :: ls) s l) as (l' & Hrun & Hl').
  { by rewrite list_lookup_middle. }
  { done. }
  destruct (runS (replicate (fuel l) (length pre)) (pre ++ l :: ls) s) as [[ls1 s1] tr1].
  simpl in Hrun. subst ls1.
  rewrite insert_app_r_alt by lia. rewrite Nat.sub_diag. simpl.
  specialize (IH (pre ++ [l']) s1).
  rewrite length_app in IH. simpl in IH.
  replace (length pre + 1)%nat with (S (length pre)) in IH by lia.
  rewrite <- app_assoc in IH. simpl in IH.
  destruct (runS (drain_from fuel (S (length pre)) ls) (pre ++ l' :: ls) s1) as [[ls2 s2] tr2].
  simpl in *. apply IH. apply Forall_app. split; [done|]. by constructor.
Qed.

(** Every thread of a complete launch has finished. *)
Lemma kernel_finished (sched : list nat) (ls : list L) (s : Sh) :
  Forall (fun l => finished l = true) (fst (fst (kernelS sched ls s))).
Proof.
  unfold kernel.
  destruct (runS sched ls s) as [[ls1 s1] tr1].
  pose proof (run_drain ls1 [] s1 (Forall_nil_2 _)) as Hd. simpl in Hd.
  destruct (runS (drain_from fuel 0 ls1) ls1 s1) as [[ls2 s2] tr2]. done.
Qed.

End SchedulerFacts.

(** ** The depth buffer *)

Section DepthFacts.

Lemma initDepth_thread_cellwise w h depth xy :
  initDepth_thread w h depth xy
  = cellwise 0 (inImage w h) (pixelIndex w) (fun _ _ => INT_MAX) depth xy.
Proof. by destruct xy. Qed.

Lemma initDepth_launch w h depth :
  initDepth w h depth
  = launch2d (cellwise 0 (inImage w h) (pixelIndex w) (fun _ _ => INT_MAX)) w h depth.
Proof.
  unfold initDepth, launch2d. generalize (grid2d w h) depth.
  intros l; induction l as [|t l IH]; intros s; simpl; [done|].
  rewrite initDepth_thread_cellwise. apply IH.
Qed.

Lemma length_initDepth w h depth : length (initDepth w h depth) = length depth.
Proof. rewrite initDepth_launch. apply length_launch2d_cellwise. Qed.

(** After [initDepth] every cell of the depth buffer holds [INT_MAX]. *)
Lemma initDepth_all w h depth i :
  0 < w -> 0 < h -> Z.of_nat (length depth) = w * h -> 0 <= i < w * h ->
  load 0 (initDepth w h depth) i = INT_MAX.
Proof.
  intros Hw Hh Hlen Hi. rewrite initDepth_launch.
  pose proof (Z.div_mod i w ltac:(lia)) as Hdm.
  pose proof (Z.mod_pos_bound i w Hw) as Hm.
  assert (Hq : 0 <= i / w < h).
  { split; [apply Z.div_pos; lia | apply Z.div_lt_upper_bound; lia]. }
  replace i with (i mod w + (i / w) * w) by lia.
  by rewrite launch2d_cellwise.
Qed.

Lemma length_atomicMin db i v : length (atomicMin db i v) = length db.
Proof. apply length_store. Qed.

(** [atomicMin] lowers the cell it addresses and no cell rises. *)
Lemma atomicMin_le db i v j : load 0 (atomicMin db i v) j <= load 0 db j.
Proof.
  unfold atomicMin. destruct (decide (i = j)) as [->|Hne].
  - destruct (decide (0 <= j < Z.of_nat (length db))) as [Hin|Hout].
    + rewrite load_store_eq by done. lia.
    + rewrite store_out_of_range by done. lia.
  - rewrite load_store_ne by done. lia.
Qed.

End DepthFacts.

(** ** The rasterizer *)

Section RasterFacts.
Context {F : Type} `{Float F}.
Variable getAABBForTriangle : triangle F -> Z -> Z -> AABB.
Variable calculateBarycentricCoordinate : triangle F -> vec2 F -> vec3 F.
Variable isBarycentricCoordInBounds : vec3 F -> bool.
Variable getZAtCoordinate : vec3 F -> triangle F -> F.
Variable cfg : Config.

Local Abbreviation stepR :=
  (raster_step calculateBarycentricCoordinate isBarycentricCoordInBounds
     getZAtCoordinate cfg).
Local Abbreviation loopR :=
  (generateFragments_loop calculateBarycentricCoordinate isBarycentricCoordInBounds
     getZAtCoordinate cfg).
Local Abbreviation returnsAtR :=
  (returnsAt calculateBarycentricCoordinate isBarycentricCoordInBounds).
Local Abbreviation restR :=
  (worker_rest calculateBarycentricCoordinate isBarycentricCoordInBounds
     getZAtCoordinate cfg).

Lemma raster_fuel_finished (wk : Worker F) : raster_fuel wk = O -> raster_finished wk = true.
Proof. unfold raster_fuel, raster_finished. by destruct (w_phase wk). Qed.

Lemma raster_fuel_step w h off (wk : Worker F) (s : RasterState F) :
  raster_finished wk = false ->
  (raster_fuel (fst (fst (stepR w h off wk s))) < raster_fuel wk)%nat.
Proof.
  unfold raster_finished, raster_fuel, raster_step.
  destruct (w_phase wk) as [[|[x y] rest]|idx b dp rest|]; intros Hf; simpl; try done.
  - lia.
  - destruct (isBarycentricCoordInBounds _); simpl; [|lia].
    destruct (_ >? _); simpl; lia.
  - destruct (_ ==? _)%fl; simpl; lia.
Qed.

(** The shape of a step on the depth buffer: it is left as it is, or one
    [atomicMin] with an encoded depth is applied to it. *)
Lemma raster_step_depth w h off (wk : Worker F) (s : RasterState F) :
  depthBuffer (snd (fst (stepR w h off wk s))) = depthBuffer s
  \/ exists fragIndex depth,
       depthBuffer (snd (fst (stepR w h off wk s)))
       = store (depthBuffer s) fragIndex
           (Z.min (load 0 (depthBuffer s) fragIndex)
                  (f_to_int (fmul depth (f_of_int INT_MAX)))).
Proof.
  unfold raster_step.
  destruct (w_phase wk) as [[|[x y] rest]|idx b dp rest|]; simpl; auto.
  - destruct (isBarycentricCoordInBounds _); simpl; auto.
    destruct (_ >? _); simpl; auto. right. eauto.
  - destruct (_ ==? _)%fl; simpl; auto.
Qed.

Lemma raster_step_depth_le w h off (wk : Worker F) (s : RasterState F) j :
  load 0 (depthBuffer (snd (fst (stepR w h off wk s)))) j <= load 0 (depthBuffer s) j.
Proof.
  destruct (raster_step_depth w h off wk s) as [->|(idx & dp & ->)]; [lia|].
  apply atomicMin_le.
Qed.

Lemma raster_step_depth_length w h off (wk : Worker F) (s : RasterState F) :
  length (depthBuffer (snd (fst (stepR w h off wk s)))) = length (depthBuffer s).
Proof.
  destruct (raster_step_depth w h off wk s) as [->|(idx & dp & ->)]; [done|].
  apply length_store.
Qed.

(** Along any schedule no cell of the depth buffer rises. *)
Lemma run_depth_le w h off sched (ls : list (Worker F)) (s : RasterState F) j :
  load 0 (depthBuffer (snd (fst (run (stepR w h off) raster_finished sched ls s)))) j
  <= load 0 (depthBuffer s) j.
Proof.
  revert j.
  apply (run_ind (stepR w h off) raster_finished
           (fun s s' _ => forall j, load 0 (depthBuffer s') j <= load 0 (depthBuffer s) j)).
  - intros; lia.
  - intros t l s0 l' s1 es s' tr _ Hstep IH j.
    pose proof (raster_step_depth_le w h off l s0 j) as Hle.
    rewrite Hstep in Hle. simpl in Hle. specialize (IH j). lia.
Qed.

(** The shape of a step on the fragment buffer: it is left as it is, or
    the worker, having found its own depth in the depth buffer, stores its
    fragment and logs the event. *)
Lemma raster_step_fragment w h off (wk : Worker F) (s : RasterState F) :
  (fragmentBuffer (snd (fst (stepR w h off wk s))) = fragmentBuffer s
   /\ forall i f, EvFragment i f ∉ snd (stepR w h off wk s))
  \/ exists fragIndex barycentricCoord depth rest,
       w_phase wk = Pending fragIndex barycentricCoord depth rest
       /\ feqb (fmul depth (f_of_int INT_MAX))
               (f_of_int (load 0 (depthBuffer s) fragIndex)) = true
       /\ fragmentBuffer (snd (fst (stepR w h off wk s)))
          = store (fragmentBuffer s) fragIndex
              (fragmentOf cfg (w_prim wk) barycentricCoord depth)
       /\ snd (stepR w h off wk s)
          = [EvFragment fragIndex (fragmentOf cfg (w_prim wk) barycentricCoord depth)].
Proof.
  unfold raster_step.
  destruct (w_phase wk) as [[|[x y] rest]|idx b dp rest|]; simpl.
  - left. split; [done|]. intros i f Hin. inversion Hin.
  - left. destruct (isBarycentricCoordInBounds _); simpl.
    + destruct (_ >? _); simpl; (split; [done|]); intros i f Hin.
      * inversion Hin.
      * apply list_elem_of_singleton in Hin. discriminate.
    + split; [done|]. intros i f Hin. inversion Hin.
  - destruct (_ ==? _)%fl eqn:Htest; simpl.
    + right. exists idx, b, dp, rest. done.
    + left. split; [done|]. intros i f Hin. inversion Hin.
  - left. split; [done|]. intros i f Hin. inversion Hin.
Qed.

(** Along any schedule a cell of the fragment buffer either keeps its
    content or holds a fragment that a worker stored there, with the event
    logged. *)
Lemma run_fragment_origin w h off sched (ls : list (Worker F)) (s : RasterState F) i :
  let r := run (stepR w h off) raster_finished sched ls s in
  load zero_Fragment (fragmentBuffer (snd (fst r))) i = load zero_Fragment (fragmentBuffer s) i
  \/ exists t f, (t, EvFragment i f) ∈ snd r
                 /\ load zero_Fragment (fragmentBuffer (snd (fst r))) i = f.
Proof.
  simpl. revert i.
  apply (run_ind (stepR w h off) raster_finished
           (fun s s' tr => forall i,
                load zero_Fragment (fragmentBuffer s') i
                = load zero_Fragment (fragmentBuffer s) i
                \/ exists t f, (t, EvFragment i f) ∈ tr
                               /\ load zero_Fragment (fragmentBuffer s') i = f)).
  - intros; by left.
  - intros t l s0 l' s1 es s' tr _ Hstep IH i.
    destruct (IH i) as [Heq|(t' & f & Hin & Hf)].
    2:{ right. exists t', f. split; [|done]. apply elem_of_app. by right. }
    rewrite Heq.
    destruct (raster_step_fragment w h off l s0) as [[Hsame _]|Hw].
    { rewrite Hstep in Hsame. simpl in Hsame. rewrite Hsame. by left. }
    destruct Hw as (idx & b & dp & rest & _ & _ & Hst & Hev).
    rewrite Hstep in Hst, Hev. simpl in Hst, Hev. rewrite Hst.
    destruct (decide (idx = i)) as [->|Hne]; [|left; by apply load_store_ne].
    destruct (decide (0 <= i < Z.of_nat (length (fragmentBuffer s0)))) as [Hin|Hout].
    + right. exists t, (fragmentOf cfg (w_prim l) b dp). split.
      * apply elem_of_app. left. rewrite Hev. simpl. left.
      * by apply load_store_eq.
    + left. by rewrite store_out_of_range.
Qed.

(** No step changes the size of a buffer. *)
Lemma run_lengths w h off sched (ls : list (Worker F)) (s : RasterState F) :
  let r := run (stepR w h off) raster_finished sched ls s in
  length (depthBuffer (snd (fst r))) = length (depthBuffer s)
  /\ length (fragmentBuffer (snd (fst r))) = length (fragmentBuffer s).
Proof.
  simpl.
  apply (run_ind (stepR w h off) raster_finished
           (fun s s' _ => length (depthBuffer s') = length (depthBuffer s)
                          /\ length (fragmentBuffer s') = length (fragmentBuffer s))).
  - done.
  - intros t l s0 l' s1 es s' tr _ Hstep [IHd IHf].
    pose proof (raster_step_depth_length w h off l s0) as Hd.
    assert (Hf : length (fragmentBuffer (snd (fst (stepR w h off l s0))))
                 = length (fragmentBuffer s0)).
    { destruct (raster_step_fragment w h off l s0)
        as [[-> _]|(idx & b & dp & rest & _ & _ & -> & _)]; [done | apply length_store]. }
    rewrite Hstep in Hd, Hf. simpl in Hd, Hf. split; congruence.
Qed.

(** A single worker under the scheduler does what the two loops of the
    source do. *)
Lemma run_single_worker w h off n (wk : Worker F) (s : RasterState F) :
  (raster_fuel wk <= n)%nat ->
  snd (fst (run (stepR w h off) raster_finished (replicate n O) [wk] s)) = restR w h off wk s.
Proof.
  revert wk s. induction n as [|n IH]; intros [p ph] s Hn.
  { destruct ph; unfold raster_fuel in Hn; simpl in Hn; try lia. reflexivity. }
  unfold raster_fuel in Hn; simpl in Hn.
  simpl. unfold raster_finished at 1. simpl.
  destruct ph as [[|[x y] rest]|idx b dp rest|].
  - unfold raster_step. simpl.
    specialize (IH (mkWorker p Returned) s ltac:(unfold raster_fuel; simpl; lia)).
    destruct (run _ _ _ _ _) as [[??]?]. simpl in *. done.
  - unfold raster_step, worker_rest. simpl.
    destruct (isBarycentricCoordInBounds _).
    + destruct (_ >? _).
      * specialize (IH (mkWorker p Returned) s ltac:(unfold raster_fuel; simpl; lia)).
        destruct (run _ _ _ _ _) as [[??]?]. simpl in *. done.
      * match goal with
        | |- context [run _ _ _ [?wk'] ?s'] =>
            specialize (IH wk' s' ltac:(unfold raster_fuel; simpl in *; lia))
        end.
        destruct (run _ _ _ _ _) as [[??]?]. simpl in *. rewrite IH.
        unfold worker_rest, raster_step. simpl.
        destruct (_ ==? _)%fl; done.
    + specialize (IH (mkWorker p (Scan rest)) s ltac:(unfold raster_fuel; simpl in *; lia)).
      destruct (run _ _ _ _ _) as [[??]?]. simpl in *. done.
  - unfold worker_rest. simpl.
    destruct (stepR w h off (mkWorker p (Pending idx b dp rest)) s) as [[wk' s'] es] eqn:Hs.
    assert (Hwk : wk' = mkWorker p (Scan rest)).
    { unfold raster_step in Hs. simpl in Hs. destruct (_ ==? _)%fl; by inversion Hs. }
    subst wk'.
    specialize (IH (mkWorker p (Scan rest)) s' ltac:(unfold raster_fuel; simpl in *; lia)).
    destruct (run _ _ _ _ _) as [[??]?]. simpl in *. done.
  - specialize (IH (mkWorker p Returned) s ltac:(unfold raster_fuel; simpl; lia)).
    unfold raster_finished in IH.
    destruct n; simpl in *; done.
Qed.

Lemma kernel_single_worker w h off p pixels (s : RasterState F) :
  snd (fst (kernel (stepR w h off) raster_finished raster_fuel []
              [mkWorker p (Scan pixels)] s))
  = loopR p w h off pixels s.
Proof.
  unfold kernel. cbn [run drain_from]. rewrite app_nil_r.
  pose proof (run_single_worker w h off (raster_fuel (mkWorker p (Scan pixels)))
                (mkWorker p (Scan pixels)) s ltac:(lia)) as Hr.
  destruct (run _ _ _ _ _) as [[??]?]. done.
Qed.

End RasterFacts.

Section MemsetFacts.
Context {A : Type}.

Lemma load_cudaMemset0 (d zero : A) (buf : list A) n k :
  0 <= k < n -> n <= Z.of_nat (length buf) -> load d (cudaMemset0 zero buf n) k = zero.
Proof.
  intros Hk Hn. unfold load, cudaMemset0.
  destruct (Z.leb_spec 0 k); [|lia].
  rewrite lookup_app_l by (rewrite length_replicate; lia).
  rewrite lookup_replicate_2 by lia. done.
Qed.

Lemma length_cudaMemset0 (zero : A) (buf : list A) n :
  length (cudaMemset0 zero buf n) = length buf.
Proof. unfold cudaMemset0. rewrite length_app, length_replicate, length_drop. lia. Qed.

End MemsetFacts.

Section RasterClaims.
Context {F : Type} `{Float F}.
Variable getAABBForTriangle : triangle F -> Z -> Z -> AABB.
Variable calculateBarycentricCoordinate : triangle F -> vec2 F -> vec3 F.
Variable isBarycentricCoordInBounds : vec3 F -> bool.
Variable getZAtCoordinate : vec3 F -> triangle F -> F.
Variable cfg : Config.

Local Abbreviation stepC :=
  (raster_step calculateBarycentricCoordinate isBarycentricCoordInBounds
     getZAtCoordinate cfg).
Local Abbreviation loopC :=
  (generateFragments_loop calculateBarycentricCoordinate isBarycentricCoordInBounds
     getZAtCoordinate cfg).
Local Abbreviation launchC :=
  (generateFragments getAABBForTriangle calculateBarycentricCoordinate
     isBarycentricCoordInBounds getZAtCoordinate cfg).
Local Abbreviation passC :=
  (samplePass getAABBForTriangle calculateBarycentricCoordinate
     isBarycentricCoordInBounds getZAtCoordinate cfg).

Lemma zero_Fragment_is_background :
  vec3_eqb (eyeNormal (zero_Fragment (F := F))) (vec3_splat fzero) = true.
Proof. unfold vec3_eqb, zero_Fragment, vec3_splat, fzero. simpl. by rewrite feqb_zero. Qed.

(** With the bounding box clamped to the image, as the specification
    describes the absent helper, every pixel of the loops has its index
    inside the buffers and no pixel makes the worker return. *)
Lemma clamped_pixels_in_range w h (b : AABB) x y :
  clampedAABB w h b = true -> (x, y) ∈ pixelsOf b -> 0 <= y * w + x < w * h.
Proof.
  unfold clampedAABB, pixelsOf, range.
  rewrite !andb_true_iff, !Z.leb_le. intros [[[Hx0 Hx1] Hy0] Hy1].
  rewrite list_elem_of_bind. intros (x' & Hin & Hx).
  apply list_elem_of_fmap in Hin as (y' & Heq & Hy). inversion Heq; subst.
  apply elem_of_seqZ in Hx, Hy. nia.
Qed.

(** The guard [if (fragIndex > width * height) return;], were it reached:
    the worker writes nothing for the pixel and returns, and the pixels
    that follow in its loops are not visited.  With the box clamped to the
    image it is not reached ([clamped_pixels_in_range]). *)
Lemma guard_ends_the_worker
    (p : Primitive F) w h off (pre post : list (Z * Z)) (xy : Z * Z) (s : RasterState F) :
  returnsAt calculateBarycentricCoordinate isBarycentricCoordInBounds p w h off xy = true ->
  stepC w h off (mkWorker p (Scan (xy :: post))) s = (mkWorker p Returned, s, [])
  /\ loopC p w h off (pre ++ xy :: post) s = loopC p w h off pre s.
Proof.
  destruct xy as [x y]. unfold returnsAt, covered. simpl.
  rewrite andb_true_iff. intros [Hcov Hgt]. split.
  - unfold raster_step. simpl. by rewrite Hcov, Hgt.
  - revert s. induction pre as [|[x' y'] pre IH]; intros s; simpl.
    + by rewrite Hcov, Hgt.
    + destruct (isBarycentricCoordInBounds
                  (calculateBarycentricCoordinate (triangleOf p)
                     (vec2_add (mkvec2 (f_of_int x') (f_of_int y')) off))); [|apply IH].
      destruct (y' * w + x' >? w * h); [done|].
      match goal with |- context [feqb ?a ?b] => destruct (feqb a b) end; apply IH.
Qed.

(** C6. In a sample pass every cell of the depth buffer starts at
    [INT_MAX]; a step of a worker leaves the buffer as it is or replaces one
    cell by the minimum of its content and [(int)(depth * INT_MAX)]; hence,
    under every schedule of the workers, a cell never rises from one moment
    of the launch to a later one, up to the end of the launch. *)
Theorem depth_buffer_monotone
    w h (depth : list Z) (fragments : list (Fragment F)) frontPrims
    (prims : list (Primitive F)) off (sched1 sched2 : list nat) i :
  0 < w -> 0 < h -> Z.of_nat (length depth) = w * h -> 0 <= i < w * h ->
  let workers :=
    generateFragments_thread getAABBForTriangle frontPrims prims w h
      <$> grid1d frontPrims in
  let s0 := mkRasterState (initDepth w h depth) fragments in
  let at_time sched :=
    depthBuffer (snd (fst (run (stepC w h off) raster_finished sched workers s0))) in
  let at_end :=
    depthBuffer (snd (fst (launchC (sched1 ++ sched2) frontPrims prims w h fragments
                             (initDepth w h depth) off))) in
  load 0 (initDepth w h depth) i = INT_MAX
  /\ (forall (wk : Worker F) (s : RasterState F),
        depthBuffer (snd (fst (stepC w h off wk s))) = depthBuffer s
        \/ exists fragIndex d,
             depthBuffer (snd (fst (stepC w h off wk s)))
             = store (depthBuffer s) fragIndex
                 (Z.min (load 0 (depthBuffer s) fragIndex)
                        (f_to_int (fmul d (f_of_int INT_MAX)))))
  /\ load 0 (at_time sched1) i <= INT_MAX
  /\ load 0 (at_time (sched1 ++ sched2)) i <= load 0 (at_time sched1) i
  /\ load 0 at_end i <= load 0 (at_time (sched1 ++ sched2)) i.
Proof.
  intros Hw Hh Hlen Hi workers s0 at_time at_end.
  pose proof (initDepth_all w h depth i Hw Hh Hlen Hi) as Hinit.
  split; [done|]. split; [apply raster_step_depth|].
  split; [|split].
  - subst at_time. simpl. rewrite <- Hinit.
    apply (run_depth_le _ _ _ cfg w h off sched1 workers s0 i).
  - subst at_time. simpl. rewrite run_app.
    destruct (run (stepC w h off) raster_finished sched1 workers s0) as [[ls1 s1] tr1] eqn:H1.
    pose proof (run_depth_le calculateBarycentricCoordinate isBarycentricCoordInBounds
                  getZAtCoordinate cfg w h off sched2 ls1 s1 i) as Hle.
    destruct (run (stepC w h off) raster_finished sched2 ls1 s1) as [[ls2 s2] tr2].
    done.
  - subst at_end at_time. unfold generateFragments.
    destruct (kernel_is_run (stepC w h off) raster_finished raster_fuel
                (sched1 ++ sched2) workers s0) as [sched' Hk].
    fold workers. fold s0. rewrite Hk. rewrite (run_app _ _ (sched1 ++ sched2) sched').
    destruct (run (stepC w h off) raster_finished (sched1 ++ sched2) workers s0)
      as [[ls1 s1] tr1] eqn:H1.
    pose proof (run_depth_le calculateBarycentricCoordinate isBarycentricCoordInBounds
                  getZAtCoordinate cfg w h off sched' ls1 s1 i) as Hle.
    destruct (run (stepC w h off) raster_finished sched' ls1 s1) as [[ls2 s2] tr2].
    done.
Qed.

(** C10. A sample pass clears the whole fragment buffer and resets the
    whole depth buffer before it rasterizes, so after the pass a cell of the
    fragment buffer is the zero fragment unless a worker of this pass,
    having found its own depth in the depth buffer, stored a fragment there;
    in particular a fragment that the shader does not take for background
    was stored in this pass.  The pass keeps the sizes of the two buffers,
    so the same holds of the pass that follows. *)
Theorem sample_pass_fragments_fresh
    (sched : list nat) w h frontPrims (prims : list (Primitive F)) i j
    (fragments : list (Fragment F)) (depth : list Z) (framebuffer : list (vec3 F)) k :
  0 < w -> 0 < h ->
  Z.of_nat (length fragments) = w * h -> Z.of_nat (length depth) = w * h ->
  0 <= k < w * h ->
  let r := passC sched w h frontPrims prims i j fragments depth framebuffer in
  let fragments' := fst (fst (fst r)) in
  let depth' := snd (fst (fst r)) in
  let log := snd r in
  load zero_Fragment (cudaMemset0 zero_Fragment fragments (w * h)) k = zero_Fragment
  /\ load 0 (initDepth w h depth) k = INT_MAX
  /\ (length fragments' = length fragments /\ length depth' = length depth)
  /\ (load zero_Fragment fragments' k = zero_Fragment
      \/ exists t f, (t, EvFragment k f) ∈ log /\ load zero_Fragment fragments' k = f)
  /\ (vec3_eqb (eyeNormal (load zero_Fragment fragments' k)) (vec3_splat fzero) = false ->
      exists t f, (t, EvFragment k f) ∈ log).
Proof.
  intros Hw Hh Hlf Hld Hk r fragments' depth' log.
  assert (Hclear : load zero_Fragment (cudaMemset0 zero_Fragment fragments (w * h)) k
                   = zero_Fragment) by (apply load_cudaMemset0; lia).
  assert (Horigin :
            load zero_Fragment fragments' k = zero_Fragment
            \/ exists t f, (t, EvFragment k f) ∈ log /\ load zero_Fragment fragments' k = f).
  { subst fragments' log r. unfold samplePass, generateFragments.
    match goal with
    | |- context [kernel ?st ?fin ?fu ?sc ?ls ?s0] =>
        destruct (kernel_is_run st fin fu sc ls s0) as [sched' Hker];
        pose proof (run_fragment_origin calculateBarycentricCoordinate
                      isBarycentricCoordInBounds getZAtCoordinate cfg w h
                      (mkvec2 (fmul (f_of_int i) (SAMPLE_JITTER cfg))
                              (fmul (f_of_int j) (SAMPLE_JITTER cfg)))
                      (sc ++ sched') ls s0 k) as Ho;
        rewrite Hker
    end.
    simpl in Ho.
    destruct (run _ _ _ _ _) as [[ls1 s1] tr1]. simpl in *.
    rewrite Hclear in Ho. done. }
  split; [done|]. split; [by apply initDepth_all|].
  split.
  { subst fragments' depth' r. unfold samplePass, generateFragments.
    match goal with
    | |- context [kernel ?st ?fin ?fu ?sc ?ls ?s0] =>
        destruct (kernel_is_run st fin fu sc ls s0) as [sched' Hker];
        pose proof (run_lengths calculateBarycentricCoordinate
                      isBarycentricCoordInBounds getZAtCoordinate cfg w h
                      (mkvec2 (fmul (f_of_int i) (SAMPLE_JITTER cfg))
                              (fmul (f_of_int j) (SAMPLE_JITTER cfg)))
                      (sc ++ sched') ls s0) as Hl;
        rewrite Hker
    end.
    simpl in Hl.
    destruct (run _ _ _ _ _) as [[ls1 s1] tr1]. simpl in *.
    rewrite length_cudaMemset0, length_initDepth in Hl.
    destruct Hl as [Hd Hf]. split; assumption. }
  split; [done|].
  intros Hnz. destruct Horigin as [Hz|(t & f & Hin & _)]; [|by eauto].
  rewrite Hz, zero_Fragment_is_background in Hnz. discriminate.
Qed.

End RasterClaims.

(** ** The rasterizer on the example data *)

(** A 3x1 depth buffer that held 5, 6, 7 before the pass. *)
Lemma depth_buffer_monotone_witness :
  load 0 (initDepth 3 1 [5; 6; 7]) 1 = INT_MAX.
Proof.
  refine (proj1 (depth_buffer_monotone demo_getAABB_clamped demo_barycentric demo_inBounds
                   demo_getZ source_config 3 1 [5; 6; 7] (fragmentBuffer demo_state) 1
                   [demo_primitive] demo_offset [0%nat; 0%nat] [0%nat] 1 _ _ _ _));
    [lia | lia | reflexivity | lia].
Defined.

(** A pass over a fragment buffer that held stale fragments: the fragment
    of pixel 1 after the pass was stored by a worker of the pass. *)
Lemma sample_pass_fragments_fresh_witness :
  let r :=
    samplePass demo_getAABB_clamped demo_barycentric demo_inBounds demo_getZ
      source_config [0%nat] 3 1 1 [demo_primitive] 0 0
      [facing_Fragment; facing_Fragment; facing_Fragment] [5; 6; 7] demo_framebuffer in
  exists t f, (t, EvFragment 1 f) ∈ snd r.
Proof.
  refine (proj2 (proj2 (proj2 (proj2
            (sample_pass_fragments_fresh demo_getAABB_clamped demo_barycentric
               demo_inBounds demo_getZ source_config [0%nat] 3 1 1 [demo_primitive] 0 0
               [facing_Fragment; facing_Fragment; facing_Fragment] [5; 6; 7]
               demo_framebuffer 1 _ _ _ _ _)))) _);
    [lia | lia | reflexivity | reflexivity | lia | vm_compute; reflexivity].
Defined.

(** ** Primitive assembly *)

Section SchedulerLog.
Context {E Sh : Type}.
Variable exec : E -> Sh -> Sh.

Local Abbreviation runA := (run (act_step exec) act_finished).

Lemma events_of_cons_eq t (a : E) tr : events_of t ((t, a) :: tr) = a :: events_of t tr.
Proof. unfold events_of. rewrite filter_cons_True by done. done. Qed.

Lemma events_of_cons_ne t t' (a : E) tr : t' <> t -> events_of t ((t', a) :: tr) = events_of t tr.
Proof. intros Hne. unfold events_of. rewrite filter_cons_False by done. done. Qed.

Lemma elem_of_events_of t (a : E) tr : a ∈ events_of t tr <-> (t, a) ∈ tr.
Proof.
  unfold events_of. rewrite list_elem_of_fmap. split.
  - intros ([t' a'] & -> & Hin). apply list_elem_of_filter in Hin as [Ht Hin].
    simpl in *. by subst.
  - intros Hin. exists (t, a). split; [done|]. by apply list_elem_of_filter.
Qed.

(** The log of a thread followed by what the thread has left is its
    program. *)
Lemma run_actions_log sched (ls : list (list E)) (s : Sh) t l :
  ls !! t = Some l ->
  exists l', fst (fst (runA sched ls s)) !! t = Some l'
             /\ l = events_of t (snd (runA sched ls s)) ++ l'.
Proof.
  revert ls s l. induction sched as [|t0 sched IH]; intros ls s l Hl; simpl.
  { exists l. done. }
  destruct (ls !! t0) as [l0|] eqn:Hl0; [|by apply IH].
  destruct l0 as [|a l0]; simpl; [by apply IH|].
  destruct (decide (t0 = t)) as [->|Hne].
  - destruct (IH (<[t:=l0]> ls) (exec a s) l0) as (l' & Hl' & Heq).
    { apply list_lookup_insert_eq. by eapply lookup_lt_Some. }
    destruct (runA sched (<[t:=l0]> ls) (exec a s)) as [[ls2 s2] tr].
    simpl in *. exists l'. split; [done|].
    rewrite events_of_cons_eq. simpl. congruence.
  - destruct (IH (<[t0:=l0]> ls) (exec a s) l) as (l' & Hl' & Heq).
    { by rewrite list_lookup_insert_ne. }
    destruct (runA sched (<[t0:=l0]> ls) (exec a s)) as [[ls2 s2] tr].
    simpl in *. exists l'. split; [done|].
    by rewrite events_of_cons_ne.
Qed.

(** The shared state at the end is the log executed in its order. *)
Lemma run_actions_state sched (ls : list (list E)) (s : Sh) :
  snd (fst (runA sched ls s))
  = fold_left (fun s e => exec (snd e) s) (snd (runA sched ls s)) s.
Proof.
  revert ls s. induction sched as [|t0 sched IH]; intros ls s; simpl; [done|].
  destruct (ls !! t0) as [l0|]; [|by apply IH].
  destruct l0 as [|a l0]; simpl; [by apply IH|].
  specialize (IH (<[t0:=l0]> ls) (exec a s)).
  destruct (runA sched (<[t0:=l0]> ls) (exec a s)) as [[ls2 s2] tr].
  simpl in *. done.
Qed.

End SchedulerLog.

Section LogThreads.
Context {L Sh E : Type}.
Variable step : L -> Sh -> L * Sh * list E.
Variable finished : L -> bool.

(** Only threads of the launch appear in its log. *)
Lemma run_log_thread sched (ls : list L) (s : Sh) t e :
  (t, e) ∈ snd (run step finished sched ls s) -> (t < length ls)%nat.
Proof.
  revert ls s. induction sched as [|t0 sched IH]; intros ls s; simpl.
  { intros Hin. inversion Hin. }
  destruct (ls !! t0) as [l0|] eqn:Hl0; [|by apply IH].
  destruct (finished l0); [by apply IH|].
  destruct (step l0 s) as [[l' s1] es].
  specialize (IH (<[t0:=l']> ls) s1).
  destruct (run step finished sched (<[t0:=l']> ls) s1) as [[ls2 s2] tr]. simpl in *.
  rewrite elem_of_app. intros [Hin|Hin].
  - apply list_elem_of_fmap in Hin as (e' & Heq & _). inversion Heq; subst.
    by eapply lookup_lt_Some.
  - rewrite length_insert in IH. by apply IH.
Qed.

End LogThreads.

Section AssemblyFacts.
Context {F : Type} `{Float F}.
Implicit Types (p : Primitive F) (a : AsmAction F) (tr : list (nat * AsmAction F)).

Lemma length_asm_exec a (prims : list (Primitive F)) :
  length (asm_exec a prims) = length prims.
Proof.
  destruct a as [pid slot v|pid c]; simpl;
    destruct (0 <=? pid); try done;
    destruct (prims !! Z.to_nat pid); try done; apply length_store.
Qed.

Lemma asm_exec_load d a (prims : list (Primitive F)) pid :
  0 <= pid < Z.of_nat (length prims) ->
  load d (asm_exec a prims) pid = asm_apply pid (load d prims pid) a.
Proof.
  intros Hpid.
  assert (Hcell : forall pid' (g : Primitive F -> Primitive F),
    load d
      (match (if 0 <=? pid' then prims !! Z.to_nat pid' else None) with
       | Some q => store prims pid' (g q)
       | None => prims
       end) pid
    = if pid' =? pid then g (load d prims pid) else load d prims pid).
  { intros pid' g. destruct (Z.eqb_spec pid' pid) as [->|Hne].
    - destruct (Z.leb_spec 0 pid); [|lia].
      destruct (lookup_lt_is_Some_2 prims (Z.to_nat pid)) as [q Hq]; [lia|].
      rewrite Hq. rewrite load_store_eq by done.
      unfold load. destruct (Z.leb_spec 0 pid); [|lia]. by rewrite Hq.
    - destruct (if 0 <=? pid' then prims !! Z.to_nat pid' else None); [|done].
      by apply load_store_ne. }
  destruct a as [pid' slot v|pid' c]; simpl; apply Hcell.
Qed.

Lemma fold_asm_load d tr (prims : list (Primitive F)) pid :
  0 <= pid < Z.of_nat (length prims) ->
  load d (fold_left (fun s e => asm_exec (snd e) s) tr prims) pid
  = fold_left (fun p e => asm_apply pid p (snd e)) tr (load d prims pid).
Proof.
  revert prims. induction tr as [|[t a] tr IH]; intros prims Hpid; simpl; [done|].
  rewrite IH by (rewrite length_asm_exec; lia).
  by rewrite asm_exec_load.
Qed.

Lemma last_cull_writer_snoc tr t a pid :
  last_cull_writer (tr ++ [(t, a)]) pid
  = match a with
    | SetCull pid' _ => if pid' =? pid then Some t else last_cull_writer tr pid
    | SetVertex _ _ _ => last_cull_writer tr pid
    end.
Proof.
  induction tr as [|[t' a'] tr IH]; simpl.
  { destruct a as [|pid' c]; [done|]. by destruct (pid' =? pid). }
  rewrite IH. destruct a as [|pid' c].
  - done.
  - destruct (pid' =? pid); [done|]. done.
Qed.

Lemma get_v_set_v p slot v k :
  0 <= k < 3 -> get_v (set_v p slot v) k = if slot =? k then v else get_v p k.
Proof.
  intros Hk. unfold get_v, set_v.
  assert (k = 0 \/ k = 1 \/ k = 2) as [-> | [-> | ->]] by lia;
    destruct (Z.eqb_spec slot 0) as [->|?]; simpl; try done;
    destruct (Z.eqb_spec slot 1) as [->|?]; simpl; try done;
    destruct (Z.eqb_spec slot 2) as [->|?]; simpl; try done.
Qed.

(** The cull flag after a log: the flag of the last store to it. *)
Lemma cull_fold p tr pid :
  match last_cull_writer tr pid with
  | Some t =>
      exists c, (t, SetCull pid c) ∈ tr
                /\ cull (fold_left (fun p e => asm_apply pid p (snd e)) tr p) = c
  | None =>
      (forall t c, (t, SetCull pid c) ∉ tr)
      /\ cull (fold_left (fun p e => asm_apply pid p (snd e)) tr p) = cull p
  end.
Proof.
  induction tr as [|[t a] tr IH] using rev_ind; simpl.
  { split; [|done]. intros t c Hin. inversion Hin. }
  rewrite last_cull_writer_snoc, fold_left_app. simpl.
  destruct a as [pid' slot v|pid' c]; simpl.
  - assert (Hc : forall q, cull (if pid' =? pid then set_v q slot v else q) = cull q).
    { intros q. destruct (pid' =? pid); [|done].
      unfold set_v. by repeat (case_match; simpl). }
    rewrite Hc. destruct (last_cull_writer tr pid) as [t'|].
    + destruct IH as (c & Hin & Hcull). exists c. split; [|done].
      apply elem_of_app. by left.
    + destruct IH as [Hno Hcull]. split; [|done].
      intros t' c Hin. apply elem_of_app in Hin as [Hin|Hin]; [by eapply Hno|].
      apply list_elem_of_singleton in Hin. discriminate.
  - destruct (Z.eqb_spec pid' pid) as [->|Hne].
    + exists c. split; [|done]. apply elem_of_app. right. by left.
    + destruct (last_cull_writer tr pid) as [t'|].
      * destruct IH as (c' & Hin & Hcull). exists c'. split; [|done].
        apply elem_of_app. by left.
      * destruct IH as [Hno Hcull]. split; [|done].
        intros t' c' Hin. apply elem_of_app in Hin as [Hin|Hin]; [by eapply Hno|].
        apply list_elem_of_singleton in Hin. congruence.
Qed.

(** A vertex slot after a log: untouched, or the vertex of a store to it. *)
Lemma vertex_fold p tr pid k :
  0 <= k < 3 ->
  ((forall t v, (t, SetVertex pid k v) ∉ tr)
   /\ get_v (fold_left (fun p e => asm_apply pid p (snd e)) tr p) k = get_v p k)
  \/ exists t v, (t, SetVertex pid k v) ∈ tr
                 /\ get_v (fold_left (fun p e => asm_apply pid p (snd e)) tr p) k = v.
Proof.
  intros Hk. induction tr as [|[t a] tr IH] using rev_ind; simpl.
  { left. split; [|done]. intros t v Hin. inversion Hin. }
  rewrite fold_left_app. simpl.
  assert (Hkeep :
    get_v (asm_apply pid (fold_left (fun p e => asm_apply pid p (snd e)) tr p) a) k
    = get_v (fold_left (fun p e => asm_apply pid p (snd e)) tr p) k ->
    (forall v, a <> SetVertex pid k v) ->
    ((forall t0 v, (t0, SetVertex pid k v) ∉ tr ++ [(t, a)])
     /\ get_v (asm_apply pid (fold_left (fun p e => asm_apply pid p (snd e)) tr p) a) k
        = get_v p k)
    \/ exists t0 v, (t0, SetVertex pid k v) ∈ tr ++ [(t, a)]
         /\ get_v (asm_apply pid (fold_left (fun p e => asm_apply pid p (snd e)) tr p) a) k
            = v).
  { intros Heq Hna. rewrite Heq. destruct IH as [[Hno Hg]|(t0 & v & Hin & Hg)].
    - left. split; [|done]. intros t0 v Hin.
      apply elem_of_app in Hin as [Hin|Hin]; [by eapply Hno|].
      apply list_elem_of_singleton in Hin. inversion Hin. by eapply Hna.
    - right. exists t0, v. split; [|done]. apply elem_of_app. by left. }
  destruct a as [pid' slot v|pid' c]; simpl in *.
  - destruct (Z.eqb_spec pid' pid) as [->|Hne].
    + destruct (Z.eqb_spec slot k) as [->|Hs].
      * right. exists t, v. split; [apply elem_of_app; right; by left|].
        rewrite get_v_set_v by done. by rewrite Z.eqb_refl.
      * apply Hkeep; [|congruence]. rewrite get_v_set_v by done.
        by destruct (Z.eqb_spec slot k).
    + apply Hkeep; [done | congruence].
  - apply Hkeep; [|done]. destruct (pid' =? pid); done.
Qed.

Lemma threadCount_covers n : 0 <= n -> n <= threadCount n.
Proof.
  intros Hn. unfold threadCount, numThreadsPerBlock.
  pose proof (Z.quot_rem' (n + 128 - 1) 128) as Hq.
  pose proof (Z.rem_bound_pos (n + 128 - 1) 128) as Hr. lia.
Qed.

Lemma grid1d_lookup {A} (f : Z -> A) n t l :
  (f <$> grid1d n) !! t = Some l -> l = f (Z.of_nat t) /\ Z.of_nat t < threadCount n.
Proof.
  unfold grid1d, range. rewrite list_lookup_fmap.
  destruct (seqZ 0 (threadCount n - 0) !! t) as [x|] eqn:Hx; simpl; [|done].
  apply lookup_seqZ in Hx as [-> Hlt]. intros [= <-]. split; [f_equal | lia].
Qed.

Lemma grid1d_lookup_lt {A} (f : Z -> A) n t :
  Z.of_nat t < threadCount n -> (f <$> grid1d n) !! t = Some (f (Z.of_nat t)).
Proof.
  intros Ht. unfold grid1d, range. rewrite list_lookup_fmap.
  rewrite (proj2 (lookup_seqZ 0 (threadCount n - 0) t (Z.of_nat t))) by lia. done.
Qed.

End AssemblyFacts.

Section AssemblyClaims.
Context {F : Type} `{Float F}.

Lemma assembly_program numIndices cur (primitive : PrimitiveDevBufPointers F) iid :
  dev_primitiveType primitive = Triangle ->
  _primitiveAssembly_thread numIndices cur primitive iid
  = if iid <? numIndices then
      [ SetVertex (Z.quot iid 3 + cur) (Z.rem iid 3) (assembledVertex primitive iid);
        SetCull (Z.quot iid 3 + cur)
          (fltb (v3z (vertexNormal (assembledVertex primitive iid))) fzero) ]
    else [].
Proof. intros Ht. unfold _primitiveAssembly_thread. by rewrite Ht. Qed.

Lemma act_fuel_finished {E} (l : list E) : length l = O -> act_finished l = true.
Proof. by destruct l. Qed.

Lemma act_fuel_step {E Sh} (exec : E -> Sh -> Sh) (l : list E) (s : Sh) :
  act_finished l = false -> (length (fst (fst (act_step exec l s))) < length l)%nat.
Proof. destruct l; simpl; [done | lia]. Qed.

(** In a complete launch of [_primitiveAssembly] the log holds, for every
    thread, exactly the actions of the thread's program. *)
Lemma assembly_log sched numIndices cur (prims : list (Primitive F))
    (primitive : PrimitiveDevBufPointers F) t a :
  (t, a) ∈ snd (_primitiveAssembly sched numIndices cur prims primitive)
  <-> Z.of_nat t < threadCount numIndices
      /\ a ∈ _primitiveAssembly_thread numIndices cur primitive (Z.of_nat t).
Proof.
  unfold _primitiveAssembly.
  set (ls := _primitiveAssembly_thread numIndices cur primitive <$> grid1d numIndices).
  pose proof (kernel_finished asm_step asm_finished (@length (AsmAction F))
                act_fuel_finished (act_fuel_step asm_exec) sched ls prims) as Hfin.
  destruct (kernel_is_run asm_step asm_finished (@length (AsmAction F)) sched ls prims)
    as [sched' Hker].
  rewrite Hker in *. clear Hker.
  assert (Hthread : forall l, ls !! t = Some l ->
            events_of t (snd (run asm_step asm_finished (sched ++ sched') ls prims)) = l).
  { intros l Hl.
    destruct (run_actions_log asm_exec (sched ++ sched') ls prims t l Hl)
      as (l' & Hl' & Heq).
    apply list_elem_of_lookup_2 in Hl'.
    rewrite Forall_forall in Hfin. apply Hfin in Hl'.
    destruct l'; [|done]. by rewrite app_nil_r in Heq. }
  split.
  - intros Hin.
    pose proof (run_log_thread _ _ _ _ _ _ _ Hin) as Hlt.
    destruct (lookup_lt_is_Some_2 ls t Hlt) as [l Hl].
    destruct (grid1d_lookup _ _ _ _ Hl) as [Hprog Hbound].
    split; [done|].
    rewrite <- Hprog. rewrite <- (Hthread l Hl).
    by apply elem_of_events_of.
  - intros [Hlt Hin].
    pose proof (grid1d_lookup_lt (_primitiveAssembly_thread numIndices cur primitive)
                  numIndices t Hlt) as Hl.
    apply elem_of_events_of. by rewrite (Hthread _ Hl).
Qed.

Lemma assembly_state d sched numIndices cur (prims : list (Primitive F))
    (primitive : PrimitiveDevBufPointers F) pid :
  0 <= pid < Z.of_nat (length prims) ->
  load d (snd (fst (_primitiveAssembly sched numIndices cur prims primitive))) pid
  = fold_left (fun p e => asm_apply pid p (snd e))
      (snd (_primitiveAssembly sched numIndices cur prims primitive)) (load d prims pid).
Proof.
  intros Hpid. unfold _primitiveAssembly.
  match goal with
  | |- context [kernel ?st ?fin ?fu ?sc ?ls ?s0] =>
      destruct (kernel_is_run st fin fu sc ls s0) as [sched' Hker]; rewrite Hker
  end.
  unfold asm_step, asm_finished.
  rewrite run_actions_state. by apply fold_asm_load.
Qed.

(** C4, as the code has it. After a complete launch of [_primitiveAssembly]
    on a triangle primitive record, under every schedule of its threads, a
    primitive all of whose three index threads exist has its three slots
    filled with the vertices of its index triple, and its cull flag is the
    comparison [normal.z < 0] of the vertex of the thread that stored the
    flag last: one of the three vertices of the primitive, which need not
    be the vertex that was written last. *)
Theorem assembled_cull_flag
    (d : Primitive F) sched numIndices cur (prims : list (Primitive F))
    (primitive : PrimitiveDevBufPointers F) pid :
  dev_primitiveType primitive = Triangle ->
  0 <= cur <= pid -> 3 * (pid - cur) + 2 < numIndices -> pid < Z.of_nat (length prims) ->
  let r := _primitiveAssembly sched numIndices cur prims primitive in
  let p' := load d (snd (fst r)) pid in
  (forall k, 0 <= k < 3 -> get_v p' k = assembledVertex primitive (3 * (pid - cur) + k))
  /\ exists t,
       last_cull_writer (snd r) pid = Some t
       /\ Z.quot (Z.of_nat t) 3 + cur = pid
       /\ get_v p' (Z.rem (Z.of_nat t) 3) = assembledVertex primitive (Z.of_nat t)
       /\ cull p' = fltb (v3z (vertexNormal (assembledVertex primitive (Z.of_nat t)))) fzero.
Proof.
  intros Htri Hcur Hidx Hpid r p'.
  assert (Hstate := assembly_state d sched numIndices cur prims primitive pid ltac:(lia)).
  fold r in Hstate. fold p' in Hstate.
  assert (Hlog : forall t a, (t, a) ∈ snd r
            <-> Z.of_nat t < threadCount numIndices
                /\ a ∈ _primitiveAssembly_thread numIndices cur primitive (Z.of_nat t)).
  { intros t a. apply assembly_log. }
  pose proof (threadCount_covers numIndices ltac:(lia)) as Hcov.
  (* what a logged action of some thread looks like *)
  assert (Hshape : forall t a, (t, a) ∈ snd r ->
            Z.of_nat t < numIndices
            /\ (a = SetVertex (Z.quot (Z.of_nat t) 3 + cur) (Z.rem (Z.of_nat t) 3)
                      (assembledVertex primitive (Z.of_nat t))
                \/ a = SetCull (Z.quot (Z.of_nat t) 3 + cur)
                         (fltb (v3z (vertexNormal (assembledVertex primitive (Z.of_nat t))))
                               fzero))).
  { intros t a Hin. apply Hlog in Hin as [_ Hin].
    rewrite assembly_program in Hin by done.
    destruct (Z.ltb_spec (Z.of_nat t) numIndices); [|inversion Hin].
    split; [done|]. apply elem_of_cons in Hin as [->|Hin]; [by left|].
    apply list_elem_of_singleton in Hin. by right. }
  (* the actions of the thread of slot [k] are in the log *)
  assert (Hthere : forall k, 0 <= k < 3 ->
            let t := Z.to_nat (3 * (pid - cur) + k) in
            (t, SetVertex pid k (assembledVertex primitive (3 * (pid - cur) + k))) ∈ snd r
            /\ (t, SetCull pid
                     (fltb (v3z (vertexNormal
                                   (assembledVertex primitive (3 * (pid - cur) + k))))
                           fzero)) ∈ snd r).
  { intros k Hk t.
    assert (Ht : Z.of_nat t = 3 * (pid - cur) + k) by (subst t; lia).
    assert (Hq : Z.quot (Z.of_nat t) 3 + cur = pid /\ Z.rem (Z.of_nat t) 3 = k).
    { rewrite Ht. rewrite Z.quot_div_nonneg, Z.rem_mod_nonneg by lia.
      pose proof (Z.div_mod (3 * (pid - cur) + k) 3 ltac:(lia)).
      pose proof (Z.mod_pos_bound (3 * (pid - cur) + k) 3 ltac:(lia)). lia. }
    destruct Hq as [Hq Hr].
    split; apply Hlog; (split; [lia|]); rewrite assembly_program by done;
      (destruct (Z.ltb_spec (Z.of_nat t) numIndices); [|lia]);
      rewrite Hq, Hr, Ht.
    - by left.
    - right. by left. }
  assert (Hslots : forall k, 0 <= k < 3 ->
            get_v p' k = assembledVertex primitive (3 * (pid - cur) + k)).
  { intros k Hk. rewrite Hstate.
    destruct (vertex_fold (load d prims pid) (snd r) pid k Hk)
      as [[Hno _]|(t & v & Hin & ->)].
    - exfalso. eapply Hno. apply (Hthere k Hk).
    - destruct (Hshape _ _ Hin) as [Hlt [Ha|Ha]]; [|discriminate].
      inversion Ha as [[Hp Hs Hv]].
      f_equal.
      pose proof (Z.quot_rem' (Z.of_nat t) 3). lia. }
  split; [done|].
  pose proof (cull_fold (load d prims pid) (snd r) pid) as Hcull.
  destruct (last_cull_writer (snd r) pid) as [t|].
  - destruct Hcull as (c & Hin & Hc). exists t.
    destruct (Hshape _ _ Hin) as [Hlt [Ha|Ha]]; [discriminate|].
    inversion Ha as [[Hp Hcv]].
    split; [done|]. split; [done|]. split.
    + rewrite Hslots.
      * f_equal. pose proof (Z.quot_rem' (Z.of_nat t) 3). lia.
      * pose proof (Z.rem_bound_pos (Z.of_nat t) 3). lia.
    + rewrite Hstate, Hc. done.
  - exfalso. destruct Hcull as [Hno _]. eapply Hno. apply (Hthere 0 ltac:(lia)).
Qed.

End AssemblyClaims.

(** The threads 2 and 0 run first, thread 1 stores the flag last: the
    primitive is culled on the second vertex's normal. *)
Lemma assembled_cull_flag_witness :
  cull (load demo_primitive
          (snd (fst (_primitiveAssembly [2%nat; 2%nat; 0%nat; 0%nat] 3 0 [demo_primitive]
                       demo_devBufPointers))) 0)
  = true.
Proof.
  destruct (assembled_cull_flag demo_primitive [2%nat; 2%nat; 0%nat; 0%nat] 3 0
              [demo_primitive] demo_devBufPointers 0)
    as [_ (t & Hw & _ & _ & Hc)];
    [reflexivity | lia | lia | simpl; lia |].
  vm_compute in Hw. injection Hw as <-.
  rewrite Hc. vm_compute. reflexivity.
Defined.

(** C4, a counterexample to the claim as stated.  The three index threads
    of one triangle; the vertex 1 has the normal (0,0,-1), the vertices 0
    and 2 have (0,0,1).  Thread 0 stores its vertex, thread 2 stores its
    vertex and its flag, thread 1 stores its vertex and its flag, thread 0
    stores its flag: the vertex written last is vertex 1, whose normal has
    a negative z, and the flag ends false, the test on vertex 0. *)
Lemma last_written_vertex_counterexample :
  let r :=
    _primitiveAssembly [0%nat; 2%nat; 2%nat; 1%nat; 1%nat; 0%nat] 3 0 [demo_primitive]
      demo_devBufPointers in
  let p' := load demo_primitive (snd (fst r)) 0 in
  get_v p' 0 = assembledVertex demo_devBufPointers 0
  /\ get_v p' 1 = assembledVertex demo_devBufPointers 1
  /\ get_v p' 2 = assembledVertex demo_devBufPointers 2
  /\ last_vertex_writer (snd r) 0 = Some 1%nat
  /\ fltb (v3z (vertexNormal (assembledVertex demo_devBufPointers 1))) fzero = true
  /\ last_cull_writer (snd r) 0 = Some 0%nat
  /\ cull p' = false.
Proof. vm_compute. repeat split; reflexivity. Qed.

(** ** The launch of the vertex stage *)

Section Launch1dFacts.

Lemma NoDup_grid1d n : NoDup (grid1d n).
Proof. apply NoDup_seqZ. Qed.

Lemma elem_of_grid1d n i : i ∈ grid1d n <-> 0 <= i < threadCount n.
Proof. unfold grid1d, range. rewrite elem_of_seqZ. lia. Qed.

End Launch1dFacts.

Section VertexStageLaunch.
Context {F : Type} `{Float F}.

Lemma vertex_thread_cellwise cfg n (primitive : PrimitiveDevBufPointers F)
    (MVP MV : mat4 F) (MV_normal : mat3 F) w h verticesOut vid :
  _vertexTransformAndAssembly_thread cfg n primitive MVP MV MV_normal w h verticesOut vid
  = cellwise zero_VertexOut (fun vid => vid <? n) (fun vid => vid)
      (fun vid _ => transformVertex cfg primitive MVP MV MV_normal w h vid)
      verticesOut vid.
Proof. done. Qed.

Lemma vertex_stage_launch cfg n (primitive : PrimitiveDevBufPointers F)
    (MVP MV : mat4 F) (MV_normal : mat3 F) w h :
  dev_verticesOut (_vertexTransformAndAssembly cfg n primitive MVP MV MV_normal w h)
  = fold_left
      (cellwise zero_VertexOut (fun vid => vid <? n) (fun vid => vid)
         (fun vid _ => transformVertex cfg primitive MVP MV MV_normal w h vid))
      (grid1d n) (dev_verticesOut primitive).
Proof. done. Qed.

Lemma vertex_stage_launch_cells cfg n (primitive : PrimitiveDevBufPointers F)
    (MVP MV : mat4 F) (MV_normal : mat3 F) w h vid :
  n <= Z.of_nat (length (dev_verticesOut primitive)) ->
  let out :=
    dev_verticesOut (_vertexTransformAndAssembly cfg n primitive MVP MV MV_normal w h) in
  length out = length (dev_verticesOut primitive)
  /\ (0 <= vid < n ->
      load zero_VertexOut out vid = transformVertex cfg primitive MVP MV MV_normal w h vid)
  /\ (n <= vid ->
      load zero_VertexOut out vid = load zero_VertexOut (dev_verticesOut primitive) vid).
Proof.
  intros Hlen out. subst out. rewrite vertex_stage_launch. split; [|split].
  - apply length_fold_cellwise.
  - intros Hvid.
    apply (fold_cellwise_hit zero_VertexOut (fun vid => vid <? n) (fun vid => vid)
             (fun vid _ => transformVertex cfg primitive MVP MV MV_normal w h vid)
             (grid1d n) (dev_verticesOut primitive) vid).
    + apply NoDup_grid1d.
    + apply elem_of_grid1d. pose proof (threadCount_covers n ltac:(lia)). lia.
    + apply Z.ltb_lt. lia.
    + intros t' _ _ Heq. done.
    + lia.
  - intros Hvid. apply fold_cellwise_miss.
    intros t _ Hg Heq. apply Z.ltb_lt in Hg. lia.
Qed.

End VertexStageLaunch.

(** ** Perspective correction *)

Section PerspectiveFacts.
Context {F : Type} `{Float F}.

(** What the vertex stage stores as UV, and which [z] it divides by: the
    [z] of the position it stores in [vertexPerspPos], which is the [z] of
    [MVP * world] divided by its [w]. *)
Lemma transformVertex_uv cfg (primitive : PrimitiveDevBufPointers F)
    (MVP MV : mat4 F) (MV_normal : mat3 F) width height vid :
  let v := transformVertex cfg primitive MVP MV MV_normal width height vid in
  let texcoord := load (vec2_splat fzero) (dev_texcoord0 primitive) vid in
  let clip0 :=
    mat4_mul_vec4 MVP
      (vec4_of_vec3 (load (vec3_splat fzero) (dev_position primitive) vid) fone) in
  vertexUV v
  = (if PERSP_CORRECT cfg then vec2_scale (fdiv fone (v4z (vertexPerspPos v))) texcoord
     else texcoord)
  /\ v4z (vertexPerspPos v) = fdiv (v4z clip0) (v4w clip0).
Proof. done. Qed.

End PerspectiveFacts.

Lemma interpolatePerspective_exact (p : Primitive R) (uv0 uv1 uv2 : vec2 R) (coords : vec3 R) :
  let z0 := v4z (vertexPerspPos (v0 p)) in
  let z1 := v4z (vertexPerspPos (v1 p)) in
  let z2 := v4z (vertexPerspPos (v2 p)) in
  vertexUV (v0 p) = vec2_scale (1 / z0)%R uv0 ->
  vertexUV (v1 p) = vec2_scale (1 / z1)%R uv1 ->
  vertexUV (v2 p) = vec2_scale (1 / z2)%R uv2 ->
  z0 <> 0%R -> z1 <> 0%R -> z2 <> 0%R ->
  interpolatedReciprocalDepth z0 z1 z2 coords <> 0%R ->
  interpolatePerspective p coords (trueDepth z0 z1 z2 coords)
  = perspectiveCorrectUV uv0 uv1 uv2 z0 z1 z2 coords.
Proof.
  intros z0 z1 z2 H0 H1 H2 Hz0 Hz1 Hz2 Hden.
  unfold interpolatePerspective, perspectiveCorrectUV, trueDepth.
  rewrite H0, H1, H2.
  unfold interpolateBarycentric2, vec2_divr, vec2_scale, vec2_add,
    interpolatedReciprocalDepth, fone in *.
  simpl in *.
  assert (Hn : ((v3x coords * z1 + v3y coords * z0) * z2 + v3z coords * (z0 * z1))%R <> 0%R).
  { intros Hx. apply Hden.
    replace (v3x coords * (1 / z0) + v3y coords * (1 / z1) + v3z coords * (1 / z2))%R
      with (((v3x coords * z1 + v3y coords * z0) * z2 + v3z coords * (z0 * z1))
            / (z0 * z1 * z2))%R by (field; auto).
    rewrite Hx. field. auto. }
  f_equal; field; auto.
Qed.

(** C3, as amended.  With perspective correction the launch of the vertex
    stage leaves in the cell of every vertex the UV multiplied by [1 / z],
    [z] being the third component of the position stored in the same cell
    (the source's [clip] after the divide by [w]: [z / w] of [MVP * world],
    not [w]); without it the UV is stored as it is.  In exact arithmetic
    the interpolation of the UVs stored for three vertices followed by the
    multiplication by the true depth is the perspective-correct UV: the
    interpolation of [UV / z] divided by the interpolation of [1 / z]. *)
Theorem perspective_correct_uv :
  (forall (F : Type) (HF : Float F) cfg n (primitive : PrimitiveDevBufPointers F)
          (MVP MV : mat4 F) (MV_normal : mat3 F) width height vid,
      n <= Z.of_nat (length (dev_verticesOut primitive)) -> 0 <= vid < n ->
      let out :=
        dev_verticesOut
          (_vertexTransformAndAssembly cfg n primitive MVP MV MV_normal width height) in
      let v := load zero_VertexOut out vid in
      let texcoord := load (vec2_splat fzero) (dev_texcoord0 primitive) vid in
      let clip0 :=
        mat4_mul_vec4 MVP
          (vec4_of_vec3 (load (vec3_splat fzero) (dev_position primitive) vid) fone) in
      vertexUV v
      = (if PERSP_CORRECT cfg then vec2_scale (fdiv fone (v4z (vertexPerspPos v))) texcoord
         else texcoord)
      /\ v4z (vertexPerspPos v) = fdiv (v4z clip0) (v4w clip0))
  /\ (forall cfg n (primitive : PrimitiveDevBufPointers R) (MVP MV : mat4 R)
             (MV_normal : mat3 R) width height (i0 i1 i2 : Z) (c : bool) (coords : vec3 R),
      PERSP_CORRECT cfg = true ->
      n <= Z.of_nat (length (dev_verticesOut primitive)) ->
      0 <= i0 < n -> 0 <= i1 < n -> 0 <= i2 < n ->
      let out :=
        dev_verticesOut
          (_vertexTransformAndAssembly cfg n primitive MVP MV MV_normal width height) in
      let vertex i := load zero_VertexOut out i in
      let uv i := load (vec2_splat fzero) (dev_texcoord0 primitive) i in
      let z i := v4z (vertexPerspPos (vertex i)) in
      let p := mkPrimitive Triangle (vertex i0) (vertex i1) (vertex i2) c in
      z i0 <> 0%R -> z i1 <> 0%R -> z i2 <> 0%R ->
      interpolatedReciprocalDepth (z i0) (z i1) (z i2) coords <> 0%R ->
      interpolatePerspective p coords (trueDepth (z i0) (z i1) (z i2) coords)
      = perspectiveCorrectUV (uv i0) (uv i1) (uv i2) (z i0) (z i1) (z i2) coords).
Proof.
  split.
  - intros F HF cfg n primitive MVP MV MV_normal width height vid Hlen Hvid out v.
    subst v out.
    destruct (vertex_stage_launch_cells cfg n primitive MVP MV MV_normal width height vid
                Hlen) as (_ & Hcell & _).
    rewrite (Hcell Hvid). apply transformVertex_uv.
  - intros cfg n primitive MVP MV MV_normal width height i0 i1 i2 c coords Hpc Hlen
           Hi0 Hi1 Hi2 out vertex uv z p.
    assert (Hcell : forall i, 0 <= i < n ->
              vertex i = transformVertex cfg primitive MVP MV MV_normal width height i).
    { intros i Hi. subst vertex out.
      destruct (vertex_stage_launch_cells cfg n primitive MVP MV MV_normal width height i
                  Hlen) as (_ & Hc & _).
      by apply Hc. }
    intros Hz0 Hz1 Hz2 Hden.
    apply (interpolatePerspective_exact p (uv i0) (uv i1) (uv i2) coords); try done;
      subst p z; cbn [v0 v1 v2]; rewrite Hcell by done;
      unfold transformVertex; simpl; by rewrite Hpc.
Qed.

(** Three vertices at the depths 1, 2 and 4 under the identity matrices. *)
Lemma perspective_correct_uv_witness :
  let out :=
    dev_verticesOut
      (_vertexTransformAndAssembly source_config 3 exact_devBufPointers exact_identity4
         exact_identity4 exact_identity3 2 2) in
  let vertex i := load zero_VertexOut out i in
  let z i := v4z (vertexPerspPos (vertex i)) in
  interpolatePerspective (mkPrimitive Triangle (vertex 0) (vertex 1) (vertex 2) false)
    exact_coords (trueDepth (z 0) (z 1) (z 2) exact_coords)
  = perspectiveCorrectUV (mkvec2 1%R 0%R) (mkvec2 0%R 1%R) (mkvec2 1%R 1%R)
      (z 0) (z 1) (z 2) exact_coords.
Proof.
  assert (Hcell : forall i, 0 <= i < 3 ->
            load zero_VertexOut
              (dev_verticesOut
                 (_vertexTransformAndAssembly source_config 3 exact_devBufPointers
                    exact_identity4 exact_identity4 exact_identity3 2 2)) i
            = transformVertex source_config exact_devBufPointers exact_identity4
                exact_identity4 exact_identity3 2 2 i).
  { intros i Hi.
    destruct (vertex_stage_launch_cells source_config 3 exact_devBufPointers
                exact_identity4 exact_identity4 exact_identity3 2 2 i)
      as (_ & Hc & _); [simpl; lia|].
    by apply Hc. }
  refine (proj2 perspective_correct_uv source_config 3 exact_devBufPointers exact_identity4
            exact_identity4 exact_identity3 2 2 0 1 2 false exact_coords eq_refl
            _ _ _ _ _ _ _ _);
    try (simpl; lia);
    rewrite ?Hcell by lia;
    unfold interpolatedReciprocalDepth; simpl;
    match goal with |- ?e <> 0%R => field_simplify e end; lra.
Defined.

(** C3, a counterexample to the claim as stated.  The same three vertices
    in single precision: the interpolation of the stored UVs times the
    true depth and the perspective-correct UV differ in the last bit of
    their first component. *)
Lemma perspective_uv_rounding_counterexample :
  let out :=
    dev_verticesOut
      (_vertexTransformAndAssembly source_config 3 single_devBufPointers demo_identity4
         demo_identity4 demo_identity3 2 2) in
  let vertex i := load zero_VertexOut out i in
  let uv i := load (vec2_splat fzero) (dev_texcoord0 single_devBufPointers) i in
  let z i := v4z (vertexPerspPos (vertex i)) in
  let stored :=
    interpolatePerspective (mkPrimitive Triangle (vertex 0) (vertex 1) (vertex 2) false)
      single_coords (trueDepth (z 0) (z 1) (z 2) single_coords) in
  let correct :=
    perspectiveCorrectUV (uv 0) (uv 1) (uv 2) (z 0) (z 1) (z 2) single_coords in
  v2x stored = S754_finite false 13726814 (-24)
  /\ v2x correct = S754_finite false 13726813 (-24)
  /\ feqb (v2x stored) (v2x correct) = false.
Proof. vm_compute. repeat split; reflexivity. Qed.

(** ** The scene set-up *)

Section SetupFacts.
Context {F : Type} `{Float F}.
Variable uninit_VertexOut : VertexOut F.
Variable uninit_Primitive : Primitive F.
Variable uninit_primitiveType : PrimitiveType.
Variable uninit_numPrimitives : Z.

Local Abbreviation devBufOf :=
  (devBufPointersOf uninit_VertexOut uninit_primitiveType uninit_numPrimitives).
Local Abbreviation setupPs :=
  (setupPrimitives uninit_VertexOut uninit_primitiveType uninit_numPrimitives).
Local Abbreviation setupMs :=
  (setupMeshes uninit_VertexOut uninit_primitiveType uninit_numPrimitives).
Local Abbreviation setupNs :=
  (setupNodes uninit_VertexOut uninit_primitiveType uninit_numPrimitives).
Local Abbreviation setBuffers :=
  (rasterizeSetBuffers uninit_VertexOut uninit_Primitive uninit_primitiveType
     uninit_numPrimitives).

Lemma same_pointers_refl (d : Device F) : same_pointers d d.
Proof. by repeat split. Qed.

Lemma same_pointers_trans (d1 d2 d3 : Device F) :
  same_pointers d1 d2 -> same_pointers d2 d3 -> same_pointers d1 d3.
Proof. unfold same_pointers. intuition congruence. Qed.

Lemma insert_mesh_pointers nm (d : Device F) : same_pointers d (insert_mesh nm d).
Proof. unfold insert_mesh. destruct (_ !! _); by repeat split. Qed.

Lemma push_primitive_pointers nm b (d : Device F) : same_pointers d (push_primitive nm b d).
Proof. by repeat split. Qed.

Lemma setupPrimitives_pointers M MN nm ps d :
  same_pointers d (flow_out (setupPs M MN nm ps d)).
Proof.
  revert d. induction ps as [|p ps IH]; intros d; simpl; [apply same_pointers_refl|].
  destruct (decide _); simpl; [apply same_pointers_refl|].
  eapply same_pointers_trans; [apply push_primitive_pointers | apply IH].
Qed.

Lemma setupMeshes_pointers M MN ms d : same_pointers d (flow_out (setupMs M MN ms d)).
Proof.
  revert d. induction ms as [|m ms IH]; intros d; simpl; [apply same_pointers_refl|].
  pose proof (setupPrimitives_pointers M MN (name m) (primitives m)
                (insert_mesh (name m) d)) as Hp.
  destruct (setupPs M MN (name m) (primitives m) (insert_mesh (name m) d)) as [d1|d1];
    simpl in *.
  - eapply same_pointers_trans; [apply insert_mesh_pointers|].
    eapply same_pointers_trans; [apply Hp | apply IH].
  - eapply same_pointers_trans; [apply insert_mesh_pointers | apply Hp].
Qed.

Lemma setupNodes_pointers ns d : same_pointers d (flow_out (setupNs ns d)).
Proof.
  revert d. induction ns as [|n ns IH]; intros d; simpl; [apply same_pointers_refl|].
  pose proof (setupMeshes_pointers (matrix n) (matrixNormal n) (meshes n) d) as Hm.
  destruct (setupMs (matrix n) (matrixNormal n) (meshes n) d) as [d1|d1]; simpl in *; [|done].
  eapply same_pointers_trans; [apply Hm | apply IH].
Qed.

(** The loops distribute over the concatenation of what they traverse. *)
Lemma setupPrimitives_app M MN nm ps1 ps2 d :
  setupPs M MN nm (ps1 ++ ps2) d = flow_bind (setupPs M MN nm ps1 d) (setupPs M MN nm ps2).
Proof.
  revert d. induction ps1 as [|p ps1 IH]; intros d; simpl; [done|].
  destruct (decide _); [done | apply IH].
Qed.

Lemma setupMeshes_app M MN ms1 ms2 d :
  setupMs M MN (ms1 ++ ms2) d = flow_bind (setupMs M MN ms1 d) (setupMs M MN ms2).
Proof.
  revert d. induction ms1 as [|m ms1 IH]; intros d; simpl; [done|].
  destruct (setupPs M MN (name m) (primitives m) (insert_mesh (name m) d)); simpl;
    [apply IH | done].
Qed.

Lemma setupNodes_app ns1 ns2 d :
  setupNs (ns1 ++ ns2) d = flow_bind (setupNs ns1 d) (setupNs ns2).
Proof.
  revert d. induction ns1 as [|n ns1 IH]; intros d; simpl; [done|].
  destruct (setupMs (matrix n) (matrixNormal n) (meshes n) d); simpl; [apply IH | done].
Qed.

(** Where every primitive has indices the loops run to their end. *)
Lemma setupPrimitives_next M MN nm ps d :
  Forall hasIndices ps -> exists d', setupPs M MN nm ps d = Next d'.
Proof.
  intros Hall. revert d. induction Hall as [|p ps Hp _ IH]; intros d; simpl; [by eexists|].
  destruct (decide _) as [He|_]; [by destruct Hp | apply IH].
Qed.

Lemma setupMeshes_next M MN ms d :
  Forall (fun m => Forall hasIndices (primitives m)) ms ->
  exists d', setupMs M MN ms d = Next d'.
Proof.
  intros Hall. revert d. induction Hall as [|m ms Hm _ IH]; intros d; simpl; [by eexists|].
  destruct (setupPrimitives_next M MN (name m) (primitives m) (insert_mesh (name m) d) Hm)
    as [d1 ->]. simpl. apply IH.
Qed.

Lemma setupNodes_next ns d :
  Forall (fun n => Forall (fun m => Forall hasIndices (primitives m)) (meshes n)) ns ->
  exists d', setupNs ns d = Next d'.
Proof.
  intros Hall. revert d. induction Hall as [|n ns Hn _ IH]; intros d; simpl; [by eexists|].
  destruct (setupMeshes_next (matrix n) (matrixNormal n) (meshes n) d Hn) as [d1 ->].
  simpl. apply IH.
Qed.

(** C9. When the set-up meets a primitive whose index list is empty,
    [rasterizeSetBuffers] returns at once: the device is as the loops left
    it after the primitives before that one (the rest of the mesh, of the
    node and of the scene has no effect), [dev_primitives] is not assigned
    (the primitive buffer is not allocated), and the device copies of the
    buffer views are all still allocated. No error is reported: the early
    return is an ordinary return of the [void] function. *)
Theorem empty_indices_returns_early
    (scene : Scene F) (d : Device F) ns1 n ns2 ms1 m ms2 ps1 p ps2 :
  nodes scene = ns1 ++ n :: ns2 ->
  meshes n = ms1 ++ m :: ms2 ->
  primitives m = ps1 ++ p :: ps2 ->
  indices p = EmptyString ->
  Forall (fun n => Forall (fun m => Forall hasIndices (primitives m)) (meshes n)) ns1 ->
  Forall (fun m => Forall hasIndices (primitives m)) ms1 ->
  Forall hasIndices ps1 ->
  let d0 :=
    mkDevice (width d) (height d) (mesh2PrimitivesMap d) 0 (dev_primitives d)
      (dev_fragmentBuffer d) (dev_framebuffer d) (dev_depth d)
      (copyBufferViews (bufferViews scene)) in
  let before :=
    ns1 ++ [mkNodeVisit (matrix n) (matrixNormal n) (ms1 ++ [mkMesh (name m) ps1])] in
  exists d',
    setBuffers scene d = EarlyReturn d'
    /\ setupNs before d0 = Next d'
    /\ dev_primitives d' = dev_primitives d
    /\ bufferViewDevPointers d' = copyBufferViews (bufferViews scene).
Proof.
  intros Hns Hms Hps Hempty Hall_n Hall_m Hall_p d0 before.
  destruct (setupNodes_next ns1 d0 Hall_n) as [d1 Hd1].
  destruct (setupMeshes_next (matrix n) (matrixNormal n) ms1 d1 Hall_m) as [d2 Hd2].
  destruct (setupPrimitives_next (matrix n) (matrixNormal n) (name m) ps1
              (insert_mesh (name m) d2) Hall_p) as [d3 Hd3].
  exists d3.
  assert (Hprims : setupPs (matrix n) (matrixNormal n) (name m) (primitives m)
                     (insert_mesh (name m) d2) = Return d3).
  { rewrite Hps, setupPrimitives_app, Hd3. simpl.
    destruct (decide _) as [_|Hne]; [done | by destruct Hne]. }
  assert (Hmeshes : setupMs (matrix n) (matrixNormal n) (meshes n) d1 = Return d3).
  { rewrite Hms, setupMeshes_app, Hd2. simpl. by rewrite Hprims. }
  assert (Hnodes : setupNs (nodes scene) d0 = Return d3).
  { rewrite Hns, setupNodes_app, Hd1. simpl. by rewrite Hmeshes. }
  assert (Hbefore : setupNs before d0 = Next d3).
  { subst before. rewrite setupNodes_app, Hd1. simpl.
    rewrite setupMeshes_app, Hd2. simpl. by rewrite Hd3. }
  pose proof (setupNodes_pointers (nodes scene) d0) as Hsame.
  rewrite Hnodes in Hsame. simpl in Hsame. destruct Hsame as (Hp & Hb & _).
  split; [|split; [done|split; [done|done]]].
  unfold rasterizeSetBuffers. fold d0. by rewrite Hnodes.
Qed.

(** Where every primitive of the scene has indices the set-up reaches its
    end, whatever the modes of the primitives are: the primitive buffer is
    allocated and the buffer views are freed. *)
Lemma setup_completes (scene : Scene F) (d : Device F) :
  Forall (fun n => Forall (fun m => Forall hasIndices (primitives m)) (meshes n))
    (nodes scene) ->
  exists d', setBuffers scene d = Completed d'
             /\ dev_primitives d' = Some (fill (totalNumPrimitives d') uninit_Primitive)
             /\ bufferViewDevPointers d' = ∅.
Proof.
  intros Hall. unfold rasterizeSetBuffers.
  match goal with
  | |- context [setupNodes _ _ _ _ ?d0] => destruct (setupNodes_next (nodes scene) d0 Hall) as [d1 ->]
  end.
  eexists. split; [done|]. by split.
Qed.


End SetupFacts.

(** ** The set-up on the example scenes *)

(** The second primitive of the mesh has no indices. *)
Lemma empty_indices_returns_early_witness :
  completed (demo_setup demo_broken_scene demo_device) = false
  /\ dev_primitives (setup_device (demo_setup demo_broken_scene demo_device)) = None.
Proof.
  destruct (empty_indices_returns_early (demo_vertex (vec3_splat fzero)) demo_primitive
              Triangle 0 demo_broken_scene demo_device
              [] (mkNodeVisit demo_identity4 demo_identity3
                    [mkMesh "line" [demo_line_primitive; demo_no_indices; demo_line_primitive]])
              [] [] (mkMesh "line" [demo_line_primitive; demo_no_indices; demo_line_primitive])
              [] [demo_line_primitive] demo_no_indices [demo_line_primitive])
    as (d' & Hr & _ & Hp & _);
    [reflexivity | reflexivity | reflexivity | reflexivity
     | constructor | constructor | repeat constructor; discriminate |].
  unfold demo_setup. rewrite Hr. simpl. split; [reflexivity | exact Hp].
Defined.



(** * Further properties *)

(** ** The depth buffer does not depend on the schedule *)

Section RasterPrograms.
Context {F : Type} `{Float F}.
Variable getAABBForTriangle : triangle F -> Z -> Z -> AABB.
Variable calculateBarycentricCoordinate : triangle F -> vec2 F -> vec3 F.
Variable isBarycentricCoordInBounds : vec3 F -> bool.
Variable getZAtCoordinate : vec3 F -> triangle F -> F.
Variable cfg : Config.

Local Abbreviation stepP :=
  (raster_step calculateBarycentricCoordinate isBarycentricCoordInBounds
     getZAtCoordinate cfg).
Local Abbreviation programP :=
  (worker_min_program calculateBarycentricCoordinate isBarycentricCoordInBounds
     getZAtCoordinate).

(** What one step does to the program of the worker, the depth buffer and
    the log. *)
Lemma raster_step_program w h off (wk : Worker F) (s : RasterState F) :
  raster_finished wk = false ->
  let '(wk', s', es) := stepP w h off wk s in
  (programP w h off wk = programP w h off wk'
   /\ depthBuffer s' = depthBuffer s
   /\ (forall i v, EvMin i v ∉ es))
  \/ exists i v,
       programP w h off wk = (i, v) :: programP w h off wk'
       /\ depthBuffer s' = atomicMin (depthBuffer s) i v
       /\ es = [EvMin i v].
Proof.
  intros Hfin.
  destruct wk as [p ph]. unfold raster_step, worker_min_program. simpl.
  destruct ph as [[|[x y] rest]|idx b dp rest|]; simpl.
  - left. split; [done|]. split; [done|]. intros i v Hin. inversion Hin.
  - unfold covered. simpl.
    destruct (isBarycentricCoordInBounds _) eqn:Hcov; simpl.
    + destruct (y * w + x >? w * h) eqn:Hgt; simpl.
      * left. split; [done|]. split; [done|]. intros i v Hin. inversion Hin.
      * right. eexists _, _. split; [|split]; reflexivity.
    + left. split; [done|]. split; [done|]. intros i v Hin. inversion Hin.
  - destruct (_ ==? _)%fl; simpl; left; (split; [done|]); (split; [done|]);
      intros i v Hin.
    + apply list_elem_of_singleton in Hin. discriminate.
    + inversion Hin.
  - unfold raster_finished in Hfin. simpl in Hfin. discriminate.
Qed.

Lemma mins_of_app t (tr1 tr2 : list (nat * RasterEvent F)) :
  mins_of t (tr1 ++ tr2) = mins_of t tr1 ++ mins_of t tr2.
Proof.
  unfold mins_of, events_of. by rewrite filter_app, fmap_app, omap_app.
Qed.

Lemma mins_of_other t t' (es : list (RasterEvent F)) :
  t' <> t -> mins_of t (map (pair t') es) = [].
Proof.
  intros Hne. unfold mins_of, events_of.
  induction es as [|e es IH]; simpl; [done|].
  rewrite filter_cons_False by (simpl; congruence). apply IH.
Qed.

Lemma mins_of_none t (es : list (RasterEvent F)) :
  (forall i v, EvMin i v ∉ es) -> mins_of t (map (pair t) es) = [].
Proof.
  intros Hno. unfold mins_of, events_of.
  induction es as [|e es IH]; simpl; [done|].
  rewrite filter_cons_True by done. simpl.
  destruct e as [i v|i f].
  - exfalso. apply (Hno i v). left.
  - apply IH. intros i' v' Hin. apply (Hno i' v'). by right.
Qed.

Lemma elem_of_mins_of t (tr : list (nat * RasterEvent F)) i v :
  (i, v) ∈ mins_of t tr <-> (t, EvMin i v) ∈ tr.
Proof.
  unfold mins_of. rewrite list_elem_of_omap. split.
  - intros (e & Hin & He). apply elem_of_events_of in Hin.
    destruct e as [i' v'|]; [|discriminate]. by inversion He; subst.
  - intros Hin. exists (EvMin i v). split; [by apply elem_of_events_of | done].
Qed.

(** The [atomicMin] calls a thread has logged, followed by those it still
    has to make, are the calls of its program. *)
Lemma run_min_log w h off sched (ls : list (Worker F)) (s : RasterState F) t wk :
  ls !! t = Some wk ->
  exists wk',
    fst (fst (run (stepP w h off) raster_finished sched ls s)) !! t = Some wk'
    /\ programP w h off wk
       = mins_of t (snd (run (stepP w h off) raster_finished sched ls s))
         ++ programP w h off wk'.
Proof.
  revert ls s wk. induction sched as [|t0 sched IH]; intros ls s wk Hl; simpl.
  { exists wk. done. }
  destruct (ls !! t0) as [wk0|] eqn:Hl0; [|by apply IH].
  destruct (raster_finished wk0) eqn:Hfin; [by apply IH|].
  pose proof (raster_step_program w h off wk0 s Hfin) as Hstep.
  destruct (stepP w h off wk0 s) as [[wk1 s1] es].
  destruct (decide (t0 = t)) as [->|Hne].
  - assert (wk0 = wk) by congruence. subst wk0.
    destruct (IH (<[t:=wk1]> ls) s1 wk1) as (wk' & Hl' & Heq).
    { apply list_lookup_insert_eq. by eapply lookup_lt_Some. }
    destruct (run (stepP w h off) raster_finished sched (<[t:=wk1]> ls) s1)
      as [[ls2 s2] tr]. simpl in *.
    exists wk'. split; [done|]. rewrite mins_of_app.
    destruct Hstep as [(Hp & _ & Hno)|(i & v & Hp & _ & ->)].
    + rewrite mins_of_none by done. simpl. congruence.
    + rewrite Hp, Heq. unfold mins_of at 2, events_of. simpl.
      rewrite filter_cons_True by done. simpl. done.
  - destruct (IH (<[t0:=wk1]> ls) s1 wk) as (wk' & Hl' & Heq).
    { by rewrite list_lookup_insert_ne. }
    destruct (run (stepP w h off) raster_finished sched (<[t0:=wk1]> ls) s1)
      as [[ls2 s2] tr]. simpl in *.
    exists wk'. split; [done|]. rewrite mins_of_app, mins_of_other by done. done.
Qed.

(** A cell of the depth buffer at the end of a run: not above its content
    at the start, not above any value logged for it, and equal to its
    content at the start or to a value logged for it. *)
Lemma run_depth_cell w h off sched (ls : list (Worker F)) (s : RasterState F) k :
  0 <= k < Z.of_nat (length (depthBuffer s)) ->
  let r := run (stepP w h off) raster_finished sched ls s in
  let c := load 0 (depthBuffer (snd (fst r))) k in
  c <= load 0 (depthBuffer s) k
  /\ (forall t v, (t, EvMin k v) ∈ snd r -> c <= v)
  /\ (c = load 0 (depthBuffer s) k \/ exists t v, (t, EvMin k v) ∈ snd r /\ c = v).
Proof.
  intros Hk. simpl. revert k Hk.
  apply (run_ind (stepP w h off) raster_finished
    (fun s s' tr => forall k,
       0 <= k < Z.of_nat (length (depthBuffer s)) ->
       load 0 (depthBuffer s') k <= load 0 (depthBuffer s) k
       /\ (forall t v, (t, EvMin k v) ∈ tr -> load 0 (depthBuffer s') k <= v)
       /\ (load 0 (depthBuffer s') k = load 0 (depthBuffer s) k
           \/ exists t v, (t, EvMin k v) ∈ tr
                          /\ load 0 (depthBuffer s') k = v))).
  - intros s0 k Hk. split; [lia|]. split; [|by left].
    intros t v Hin. inversion Hin.
  - intros t l s0 l' s1 es s' tr Hfin Hstep IH k Hk.
    pose proof (raster_step_program w h off l s0 Hfin) as Hp.
    rewrite Hstep in Hp.
    assert (Hlen : length (depthBuffer s1) = length (depthBuffer s0)).
    { destruct Hp as [(_ & -> & _)|(i & v & _ & -> & _)]; [done | apply length_atomicMin]. }
    destruct (IH k ltac:(lia)) as (IHle & IHall & IHor).
    destruct Hp as [(_ & Hd & Hno)|(i & v & _ & Hd & ->)].
    + rewrite Hd in *. split; [done|]. split.
      * intros t' v' Hin. apply elem_of_app in Hin as [Hin|Hin]; [|by eapply IHall].
        apply list_elem_of_fmap in Hin as (e & Heq & Hin). inversion Heq; subst.
        by destruct (Hno k v').
      * destruct IHor as [?|(t' & v' & Hin & ?)]; [by left|].
        right. exists t', v'. split; [|done]. apply elem_of_app. by right.
    + rewrite Hd in *.
      pose proof (atomicMin_le (depthBuffer s0) i v k) as Hmin.
      split; [lia|]. split.
      * intros t' v' Hin. apply elem_of_app in Hin as [Hin|Hin]; [|by eapply IHall].
        simpl in Hin. apply list_elem_of_singleton in Hin.
        assert (Hkv : k = i /\ v' = v) by (by inversion Hin).
        destruct Hkv as [-> ->].
        assert (load 0 (atomicMin (depthBuffer s0) i v) i <= v); [|lia].
        unfold atomicMin. rewrite load_store_eq by done. lia.
      * destruct IHor as [Heq|(t' & v' & Hin & ?)].
        2:{ right. exists t', v'. split; [|done]. apply elem_of_app. by right. }
        rewrite Heq. destruct (decide (i = k)) as [->|Hne].
        -- unfold atomicMin. rewrite load_store_eq by done.
           destruct (Z.min_spec (load 0 (depthBuffer s0) k) v) as [[_ ->]|[_ ->]];
             [by left|].
           right. exists t, v. split; [|done]. apply elem_of_app. left. simpl. left.
        -- left. unfold atomicMin. by apply load_store_ne.
Qed.

End RasterPrograms.

Section BufferEquality.
Context {A : Type}.

(** Two buffers of the same size with the same content in every cell are
    the same buffer. *)
Lemma buffer_eq (d : A) (l1 l2 : list A) :
  length l1 = length l2 ->
  (forall k, 0 <= k < Z.of_nat (length l1) -> load d l1 k = load d l2 k) ->
  l1 = l2.
Proof.
  intros Hlen Hcell. apply list_eq. intros n.
  destruct (decide (n < length l1)%nat) as [Hlt|Hge].
  - destruct (lookup_lt_is_Some_2 l1 n Hlt) as [x Hx].
    destruct (lookup_lt_is_Some_2 l2 n ltac:(lia)) as [y Hy].
    specialize (Hcell (Z.of_nat n) ltac:(lia)). unfold load in Hcell.
    destruct (Z.leb_spec 0 (Z.of_nat n)); [|lia].
    rewrite Nat2Z.id, Hx, Hy in Hcell. simpl in Hcell. congruence.
  - rewrite !lookup_ge_None_2 by lia. done.
Qed.

End BufferEquality.

Section RasterSchedules.
Context {F : Type} `{Float F}.
Variable getAABBForTriangle : triangle F -> Z -> Z -> AABB.
Variable calculateBarycentricCoordinate : triangle F -> vec2 F -> vec3 F.
Variable isBarycentricCoordInBounds : vec3 F -> bool.
Variable getZAtCoordinate : vec3 F -> triangle F -> F.
Variable cfg : Config.

Local Abbreviation stepQ :=
  (raster_step calculateBarycentricCoordinate isBarycentricCoordInBounds
     getZAtCoordinate cfg).
Local Abbreviation programQ :=
  (worker_min_program calculateBarycentricCoordinate isBarycentricCoordInBounds
     getZAtCoordinate).
Local Abbreviation minsQ :=
  (min_program calculateBarycentricCoordinate isBarycentricCoordInBounds
     getZAtCoordinate).
Local Abbreviation coveredQ :=
  (covered calculateBarycentricCoordinate isBarycentricCoordInBounds).
Local Abbreviation depthAtQ :=
  (depthAt calculateBarycentricCoordinate getZAtCoordinate).
Local Abbreviation launchQ :=
  (generateFragments getAABBForTriangle calculateBarycentricCoordinate
     isBarycentricCoordInBounds getZAtCoordinate cfg).
Local Abbreviation threadQ := (generateFragments_thread getAABBForTriangle).

Lemma finished_program w h off (wk : Worker F) :
  raster_finished wk = true -> programQ w h off wk = [].
Proof. unfold raster_finished, worker_min_program. by destruct (w_phase wk). Qed.

(** Every [atomicMin] of a program is the one of a covered pixel. *)
Lemma min_program_inv p w h off pixels i v :
  (i, v) ∈ minsQ p w h off pixels ->
  exists xy, xy ∈ pixels /\ coveredQ p off xy = true
             /\ i = snd xy * w + fst xy /\ v = encodeDepth (depthAtQ p off xy).
Proof.
  induction pixels as [|xy pixels IH]; simpl; [by intros Hin; inversion Hin|].
  destruct (coveredQ p off xy) eqn:Hcov.
  - destruct (_ >? _); [by intros Hin; inversion Hin|].
    intros Hin. apply elem_of_cons in Hin as [Heq|Hin].
    + inversion Heq; subst. exists xy. split; [left | done].
    + destruct (IH Hin) as (xy' & Hin' & Hrest). exists xy'. split; [by right | done].
  - intros Hin. destruct (IH Hin) as (xy' & Hin' & Hrest).
    exists xy'. split; [by right | done].
Qed.

(** Where no covered pixel has an index above [width * height], every
    covered pixel has its [atomicMin] in the program. *)
Lemma min_program_elem p w h off pixels xy :
  (forall q, q ∈ pixels -> coveredQ p off q = true -> snd q * w + fst q <= w * h) ->
  xy ∈ pixels -> coveredQ p off xy = true ->
  (snd xy * w + fst xy, encodeDepth (depthAtQ p off xy)) ∈ minsQ p w h off pixels.
Proof.
  intros Hall Hin Hcov. induction pixels as [|q pixels IH]; [inversion Hin|].
  simpl. assert (IH' := fun Hi => IH (fun q' Hq' => Hall q' (list_elem_of_further _ _ _ Hq')) Hi).
  destruct (coveredQ p off q) eqn:Hq.
  - pose proof (Hall q ltac:(left) Hq) as Hle.
    destruct (Z.gtb_spec (snd q * w + fst q) (w * h)); [lia|].
    apply elem_of_cons in Hin as [->|Hin]; [left | right; by apply IH'].
  - apply elem_of_cons in Hin as [->|Hin]; [congruence | by apply IH'].
Qed.

(** In a complete launch the log holds exactly the [atomicMin] calls of
    the programs of the threads. *)
Lemma launch_min_log sched numPrimitives (prims : list (Primitive F)) w h
    (fragments : list (Fragment F)) (depth : list Z) off t i v :
  (t, EvMin i v) ∈ snd (launchQ sched numPrimitives prims w h fragments depth off)
  <-> Z.of_nat t < threadCount numPrimitives
      /\ (i, v) ∈ programQ w h off (threadQ numPrimitives prims w h (Z.of_nat t)).
Proof.
  unfold generateFragments.
  set (ls := generateFragments_thread getAABBForTriangle numPrimitives prims w h
               <$> grid1d numPrimitives).
  set (s0 := mkRasterState depth fragments).
  pose proof (kernel_finished (stepQ w h off) raster_finished raster_fuel
                raster_fuel_finished
                (raster_fuel_step calculateBarycentricCoordinate
                   isBarycentricCoordInBounds getZAtCoordinate cfg w h off)
                sched ls s0) as Hfin.
  destruct (kernel_is_run (stepQ w h off) raster_finished raster_fuel sched ls s0)
    as [sched' Hker].
  rewrite Hker in *. clear Hker.
  assert (Hthread : forall wk, ls !! t = Some wk ->
            mins_of t (snd (run (stepQ w h off) raster_finished (sched ++ sched') ls s0))
            = programQ w h off wk).
  { intros wk Hl.
    destruct (run_min_log calculateBarycentricCoordinate isBarycentricCoordInBounds
                getZAtCoordinate cfg w h off (sched ++ sched') ls s0 t wk Hl)
      as (wk' & Hl' & Heq).
    apply list_elem_of_lookup_2 in Hl'.
    rewrite Forall_forall in Hfin. apply Hfin in Hl'.
    rewrite (finished_program w h off wk' Hl'), app_nil_r in Heq. done. }
  split.
  - intros Hin.
    pose proof (run_log_thread _ _ _ _ _ _ _ Hin) as Hlt.
    destruct (lookup_lt_is_Some_2 ls t Hlt) as [wk Hl].
    destruct (grid1d_lookup _ _ _ _ Hl) as [Hwk Hbound].
    split; [done|]. rewrite <- Hwk, <- (Hthread wk Hl).
    by apply elem_of_mins_of.
  - intros [Hlt Hin].
    pose proof (grid1d_lookup_lt (generateFragments_thread getAABBForTriangle
                                    numPrimitives prims w h) numPrimitives t Hlt) as Hl.
    apply elem_of_mins_of. by rewrite (Hthread _ Hl).
Qed.

Lemma launch_lengths sched numPrimitives (prims : list (Primitive F)) w h
    (fragments : list (Fragment F)) (depth : list Z) off :
  let s := snd (fst (launchQ sched numPrimitives prims w h fragments depth off)) in
  length (depthBuffer s) = length depth /\ length (fragmentBuffer s) = length fragments.
Proof.
  simpl. unfold generateFragments.
  match goal with
  | |- context [kernel ?st ?fin ?fu ?sc ?ls ?s0] =>
      destruct (kernel_is_run st fin fu sc ls s0) as [sched' ->];
      apply (run_lengths calculateBarycentricCoordinate isBarycentricCoordInBounds
               getZAtCoordinate cfg w h off (sc ++ sched') ls s0)
  end.
Qed.

(** A cell of the depth buffer after a complete launch. *)
Lemma launch_depth_cell sched numPrimitives (prims : list (Primitive F)) w h
    (fragments : list (Fragment F)) (depth : list Z) off k :
  0 <= k < Z.of_nat (length depth) ->
  let r := launchQ sched numPrimitives prims w h fragments depth off in
  let c := load 0 (depthBuffer (snd (fst r))) k in
  c <= load 0 depth k
  /\ (forall t v, (t, EvMin k v) ∈ snd r -> c <= v)
  /\ (c = load 0 depth k \/ exists t v, (t, EvMin k v) ∈ snd r /\ c = v).
Proof.
  intros Hk. simpl. unfold generateFragments.
  match goal with
  | |- context [kernel ?st ?fin ?fu ?sc ?ls ?s0] =>
      destruct (kernel_is_run st fin fu sc ls s0) as [sched' ->];
      apply (run_depth_cell calculateBarycentricCoordinate isBarycentricCoordInBounds
               getZAtCoordinate cfg w h off (sc ++ sched') ls s0 k Hk)
  end.
Qed.

(** X1. The depth buffer a launch of [generateFragments] leaves is the same
    under every schedule of its workers, and so are the [atomicMin] calls
    of the launch: which calls a worker makes does not depend on the
    shared buffers.  Each cell ends as the minimum of its old content and
    the encoded depths of the calls aimed at it: it is not above its old
    content, not above the value of any call on it, and it is its old
    content or the value of one of these calls. *)
Theorem depth_buffer_schedule_independent
    (sched1 sched2 : list nat) numPrimitives (prims : list (Primitive F)) w h
    (fragments : list (Fragment F)) (depth : list Z) off :
  let launch sched := launchQ sched numPrimitives prims w h fragments depth off in
  let cell sched k := load 0 (depthBuffer (snd (fst (launch sched)))) k in
  depthBuffer (snd (fst (launch sched1))) = depthBuffer (snd (fst (launch sched2)))
  /\ (forall t k v, (t, EvMin k v) ∈ snd (launch sched1)
                    <-> (t, EvMin k v) ∈ snd (launch sched2))
  /\ (forall k, 0 <= k < Z.of_nat (length depth) ->
        cell sched1 k <= load 0 depth k
        /\ (forall t v, (t, EvMin k v) ∈ snd (launch sched1) -> cell sched1 k <= v)
        /\ (cell sched1 k = load 0 depth k
            \/ exists t v, (t, EvMin k v) ∈ snd (launch sched1) /\ cell sched1 k = v)).
Proof.
  intros launch cell. subst launch cell. cbv beta.
  assert (Hlog : forall sa sb t k v,
            (t, EvMin k v) ∈ snd (launchQ sa numPrimitives prims w h fragments depth off)
            -> (t, EvMin k v) ∈ snd (launchQ sb numPrimitives prims w h fragments depth off)).
  { intros sa sb t k v Hin. apply launch_min_log. by apply launch_min_log in Hin. }
  split; [|split].
  - pose proof (launch_lengths sched1 numPrimitives prims w h fragments depth off) as [Hl1 _].
    pose proof (launch_lengths sched2 numPrimitives prims w h fragments depth off) as [Hl2 _].
    apply (buffer_eq 0); [congruence|]. intros k Hk. rewrite Hl1 in Hk.
    assert (Hle : forall sa sb,
      load 0 (depthBuffer (snd (fst (launchQ sa numPrimitives prims w h fragments depth off)))) k
      <= load 0 (depthBuffer (snd (fst (launchQ sb numPrimitives prims w h fragments depth off)))) k).
    { intros sa sb.
      destruct (launch_depth_cell sa numPrimitives prims w h fragments depth off k Hk)
        as (Ha0 & Haall & _).
      destruct (launch_depth_cell sb numPrimitives prims w h fragments depth off k Hk)
        as (_ & _ & [->|(t & v & Hin & ->)]); [done|].
      apply (Haall t v). by apply (Hlog sb sa). }
    pose proof (Hle sched1 sched2). pose proof (Hle sched2 sched1). lia.
  - intros t k v. split; apply Hlog.
  - intros k Hk.
    apply (launch_depth_cell sched1 numPrimitives prims w h fragments depth off k Hk).
Qed.

(** X2. After a launch whose boxes are clamped to the image, under every
    schedule, the depth cell of a pixel is not above the encoded depth of
    any primitive that covers the pixel inside its box, nor above what the
    cell held before. *)
Theorem depth_buffer_is_nearest
    sched numPrimitives (prims : list (Primitive F)) w h
    (fragments : list (Fragment F)) (depth : list Z) off primIdx x y :
  0 <= primIdx < numPrimitives ->
  Z.of_nat (length depth) = w * h ->
  let p := load (mkPrimitive Triangle zero_VertexOut zero_VertexOut zero_VertexOut false)
             prims primIdx in
  let box := getAABBForTriangle (triangleOf p) w h in
  clampedAABB w h box = true ->
  (x, y) ∈ pixelsOf box ->
  coveredQ p off (x, y) = true ->
  load 0 (depthBuffer (snd (fst (launchQ sched numPrimitives prims w h fragments depth off))))
       (y * w + x)
  <= Z.min (load 0 depth (y * w + x)) (encodeDepth (depthAtQ p off (x, y))).
Proof.
  intros Hidx Hlen p box Hclamp Hin Hcov.
  pose proof (clamped_pixels_in_range w h box x y Hclamp Hin) as Hrange.
  destruct (launch_depth_cell sched numPrimitives prims w h fragments depth off
              (y * w + x) ltac:(lia)) as (H0 & Hall & _).
  apply Z.min_glb; [done|].
  apply (Hall (Z.to_nat primIdx)). apply launch_min_log.
  pose proof (threadCount_covers numPrimitives ltac:(lia)).
  split; [lia|]. rewrite Z2Nat.id by lia.
  unfold worker_min_program, generateFragments_thread. fold p. fold box.
  destruct (Z.geb_spec primIdx numPrimitives); [lia|]. simpl.
  apply (min_program_elem p w h off (pixelsOf box) (x, y)); [|done|done].
  intros [x' y'] Hq _. simpl.
  pose proof (clamped_pixels_in_range w h box x' y' Hclamp Hq). lia.
Qed.

End RasterSchedules.

Section RasterLocality.
Context {F : Type} `{Float F}.
Variable getAABBForTriangle : triangle F -> Z -> Z -> AABB.
Variable calculateBarycentricCoordinate : triangle F -> vec2 F -> vec3 F.
Variable isBarycentricCoordInBounds : vec3 F -> bool.
Variable getZAtCoordinate : vec3 F -> triangle F -> F.
Variable cfg : Config.

Local Abbreviation stepL :=
  (raster_step calculateBarycentricCoordinate isBarycentricCoordInBounds
     getZAtCoordinate cfg).
Local Abbreviation cellsL :=
  (worker_cells calculateBarycentricCoordinate isBarycentricCoordInBounds
     getZAtCoordinate).
Local Abbreviation coveredL :=
  (covered calculateBarycentricCoordinate isBarycentricCoordInBounds).
Local Abbreviation launchL :=
  (generateFragments getAABBForTriangle calculateBarycentricCoordinate
     isBarycentricCoordInBounds getZAtCoordinate cfg).
Local Abbreviation threadL := (generateFragments_thread getAABBForTriangle).

(** A step keeps the cells of the worker or drops some, and stores a
    fragment only in one of them. *)
Lemma raster_step_cells w h off (wk : Worker F) (s : RasterState F) :
  raster_finished wk = false ->
  (forall k, k ∈ cellsL w h off (fst (fst (stepL w h off wk s))) -> k ∈ cellsL w h off wk)
  /\ (forall k f, EvFragment k f ∈ snd (stepL w h off wk s) -> k ∈ cellsL w h off wk).
Proof.
  intros Hfin. destruct wk as [p ph].
  unfold raster_step, worker_cells, worker_min_program. simpl.
  destruct ph as [[|[x y] rest]|idx b dp rest|]; simpl.
  - split; [done|]. intros k f Hin. inversion Hin.
  - unfold covered. simpl. destruct (isBarycentricCoordInBounds _); simpl.
    + destruct (_ >? _); simpl.
      * split; [by intros k Hin; inversion Hin|]. intros k f Hin. inversion Hin.
      * split; [done|]. intros k f Hin.
        apply list_elem_of_singleton in Hin. discriminate.
    + split; [done|]. intros k f Hin. inversion Hin.
  - destruct (feqb _ _); simpl.
    + split; [by intros k Hin; right|]. intros k f Hin.
      apply list_elem_of_singleton in Hin. inversion Hin. left.
    + split; [by intros k Hin; right|]. intros k f Hin. inversion Hin.
  - unfold raster_finished in Hfin. simpl in Hfin. discriminate.
Qed.

(** A thread stores fragments only in its cells. *)
Lemma run_fragment_cells w h off sched (ls : list (Worker F)) (s : RasterState F) t wk k f :
  ls !! t = Some wk ->
  (t, EvFragment k f) ∈ snd (run (stepL w h off) raster_finished sched ls s) ->
  k ∈ cellsL w h off wk.
Proof.
  revert ls s wk. induction sched as [|t0 sched IH]; intros ls s wk Hl; simpl.
  { intros Hin. inversion Hin. }
  destruct (ls !! t0) as [wk0|] eqn:Hl0; [|by apply IH].
  destruct (raster_finished wk0) eqn:Hfin; [by apply IH|].
  pose proof (raster_step_cells w h off wk0 s Hfin) as [Hcells Hev].
  destruct (stepL w h off wk0 s) as [[wk1 s1] es]. simpl in *.
  specialize (IH (<[t0:=wk1]> ls) s1).
  destruct (run (stepL w h off) raster_finished sched (<[t0:=wk1]> ls) s1)
    as [[ls2 s2] tr]. simpl in *.
  intros Hin. apply elem_of_app in Hin as [Hin|Hin].
  - apply list_elem_of_fmap in Hin as (e & Heq & Hin). inversion Heq; subst.
    assert (wk0 = wk) by congruence. subst. by eapply Hev.
  - destruct (decide (t0 = t)) as [->|Hne].
    + assert (wk0 = wk) by congruence. subst.
      apply Hcells. apply (IH wk1); [|done].
      apply list_lookup_insert_eq. by eapply lookup_lt_Some.
    + apply (IH wk); [|done]. by rewrite list_lookup_insert_ne.
Qed.

(** The cells of a thread at the start of a launch are cells of covered
    pixels of the box of its primitive. *)
Lemma thread_cells numPrimitives (prims : list (Primitive F)) w h off t k :
  0 <= t ->
  k ∈ cellsL w h off (threadL numPrimitives prims w h t) ->
  t < numPrimitives
  /\ exists xy,
       let p := load (mkPrimitive Triangle zero_VertexOut zero_VertexOut zero_VertexOut false)
                  prims t in
       xy ∈ pixelsOf (getAABBForTriangle (triangleOf p) w h)
       /\ coveredL p off xy = true /\ k = snd xy * w + fst xy.
Proof.
  intros Ht. unfold generateFragments_thread, worker_cells, worker_min_program.
  destruct (Z.geb_spec t numPrimitives); simpl; [by intros Hin; inversion Hin|].
  intros Hin. split; [done|].
  apply list_elem_of_fmap in Hin as ([i v] & -> & Hin).
  apply min_program_inv in Hin as (xy & Hxy & Hcov & -> & _). by exists xy.
Qed.

(** Every event of a launch is one of a worker below [numPrimitives], on
    the cell of a pixel that the worker's primitive covers inside its box. *)
Lemma launch_event_pixel sched numPrimitives (prims : list (Primitive F)) w h
    (fragments : list (Fragment F)) (depth : list Z) off t e :
  (t, e) ∈ snd (launchL sched numPrimitives prims w h fragments depth off) ->
  Z.of_nat t < numPrimitives
  /\ exists xy,
       let p := load (mkPrimitive Triangle zero_VertexOut zero_VertexOut zero_VertexOut false)
                  prims (Z.of_nat t) in
       xy ∈ pixelsOf (getAABBForTriangle (triangleOf p) w h)
       /\ coveredL p off xy = true
       /\ match e with
          | EvMin k _ => k = snd xy * w + fst xy
          | EvFragment k _ => k = snd xy * w + fst xy
          end.
Proof.
  intros Hin.
  assert (Hcell : match e with EvMin k _ | EvFragment k _ =>
                    k ∈ cellsL w h off (threadL numPrimitives prims w h (Z.of_nat t)) end).
  { destruct e as [k v|k f].
    - apply launch_min_log in Hin as [_ Hin].
      unfold worker_cells. unfold worker_min_program in *.
      destruct (w_phase _) eqn:Hph; try (by inversion Hin).
      + apply list_elem_of_fmap. by exists (k, v).
      + right. apply list_elem_of_fmap. by exists (k, v).
    - unfold generateFragments in Hin.
      match type of Hin with
      | context [kernel ?st ?fin ?fu ?sc ?ls ?s0] =>
          destruct (kernel_is_run st fin fu sc ls s0) as [sched' Hker];
          pose proof (fun wk => run_fragment_cells w h off (sc ++ sched') ls s0 t wk k f)
            as Hcells;
          pose proof (run_log_thread st fin (sc ++ sched') ls s0 t (EvFragment k f)) as Hthr;
          rewrite Hker in Hin
      end.
      pose proof (Hthr Hin) as Hlt.
      match type of Hlt with
      | (_ < length ?ls)%nat => destruct (lookup_lt_is_Some_2 ls t Hlt) as [wk Hl]
      end.
      destruct (grid1d_lookup _ _ _ _ Hl) as [Hwk _]. rewrite <- Hwk.
      by apply (Hcells wk Hl). }
  destruct e as [k v|k f];
    apply thread_cells in Hcell as (Hlt & xy & Hxy & Hcov & Hk); try lia;
    (split; [done|]); by exists xy.
Qed.

Lemma launch_other_cells
    sched numPrimitives (prims : list (Primitive F)) w h
    (fragments : list (Fragment F)) (depth : list Z) off k :
  (forall primIdx xy,
      0 <= primIdx < numPrimitives ->
      let p := load (mkPrimitive Triangle zero_VertexOut zero_VertexOut zero_VertexOut false)
                 prims primIdx in
      xy ∈ pixelsOf (getAABBForTriangle (triangleOf p) w h) ->
      coveredL p off xy = true -> snd xy * w + fst xy <> k) ->
  let s := snd (fst (launchL sched numPrimitives prims w h fragments depth off)) in
  load 0 (depthBuffer s) k = load 0 depth k
  /\ load zero_Fragment (fragmentBuffer s) k = load zero_Fragment fragments k.
Proof.
  intros Hfree s.
  assert (Hnocell : forall t, ~ k ∈ cellsL w h off (threadL numPrimitives prims w h (Z.of_nat t))).
  { intros t Hin. apply thread_cells in Hin as (Hlt & xy & Hxy & Hcov & Hk); [|lia].
    by apply (Hfree (Z.of_nat t) xy ltac:(lia) Hxy Hcov). }
  pose proof (launch_lengths getAABBForTriangle calculateBarycentricCoordinate
                isBarycentricCoordInBounds getZAtCoordinate cfg sched numPrimitives prims
                w h fragments depth off) as [Hld Hlf].
  fold s in Hld, Hlf. split.
  - destruct (decide (0 <= k < Z.of_nat (length depth))) as [Hk|Hk].
    + destruct (launch_depth_cell getAABBForTriangle calculateBarycentricCoordinate
                  isBarycentricCoordInBounds getZAtCoordinate cfg sched numPrimitives prims
                  w h fragments depth off k Hk) as (_ & _ & [Heq|(t & v & Hin & _)]);
        [done|].
      apply launch_min_log in Hin as [_ Hin]. exfalso. apply (Hnocell t).
      unfold worker_cells. unfold worker_min_program in *.
      destruct (w_phase _) eqn:Hph; try (by inversion Hin).
      * apply list_elem_of_fmap. by exists (k, v).
      * right. apply list_elem_of_fmap. by exists (k, v).
    + unfold load. destruct (Z.leb_spec 0 k); [|done].
      rewrite !lookup_ge_None_2 by lia. done.
  - subst s. unfold generateFragments in *.
    match goal with
    | |- context [kernel ?st ?fin ?fu ?sc ?ls ?s0] =>
        destruct (kernel_is_run st fin fu sc ls s0) as [sched' Hker];
        pose proof (run_fragment_origin calculateBarycentricCoordinate
                      isBarycentricCoordInBounds getZAtCoordinate cfg w h off
                      (sc ++ sched') ls s0 k) as Ho;
        pose proof (fun t wk f => run_fragment_cells w h off (sc ++ sched') ls s0 t wk k f)
          as Hcells;
        pose proof (fun t e => run_log_thread st fin (sc ++ sched') ls s0 t e) as Hthr;
        rewrite Hker
    end.
    simpl in Ho. destruct Ho as [Heq|(t & f & Hin & _)]; [done|].
    exfalso. apply (Hnocell t).
    pose proof (Hthr _ _ Hin) as Hlt.
    match type of Hlt with
    | (_ < length ?ls)%nat => destruct (lookup_lt_is_Some_2 ls t Hlt) as [wk Hl]
    end.
    destruct (grid1d_lookup _ _ _ _ Hl) as [Hwk _]. rewrite <- Hwk.
    by apply (Hcells t wk f Hl).
Qed.

(** X3. A launch changes the depth and the fragment of a cell only if the cell
    is that of a pixel which some primitive covers inside its box: every
    other cell keeps what it held, under every schedule. *)
Theorem rasterizer_writes_only_covered_pixels
    sched numPrimitives (prims : list (Primitive F)) w h
    (fragments : list (Fragment F)) (depth : list Z) off k :
  (forall primIdx xy,
      0 <= primIdx < numPrimitives ->
      let p := load (mkPrimitive Triangle zero_VertexOut zero_VertexOut zero_VertexOut false)
                 prims primIdx in
      xy ∈ pixelsOf (getAABBForTriangle (triangleOf p) w h) ->
      coveredL p off xy = true -> snd xy * w + fst xy <> k) ->
  let s := snd (fst (launchL sched numPrimitives prims w h fragments depth off)) in
  load 0 (depthBuffer s) k = load 0 depth k
  /\ load zero_Fragment (fragmentBuffer s) k = load zero_Fragment fragments k.
Proof. apply launch_other_cells. Qed.

End RasterLocality.

(** ** The index of a pixel and the buffers *)

Section RasterBounds.
Context {F : Type} `{Float F}.
Variable getAABBForTriangle : triangle F -> Z -> Z -> AABB.
Variable calculateBarycentricCoordinate : triangle F -> vec2 F -> vec3 F.
Variable isBarycentricCoordInBounds : vec3 F -> bool.
Variable getZAtCoordinate : vec3 F -> triangle F -> F.
Variable cfg : Config.

Local Abbreviation coveredB :=
  (covered calculateBarycentricCoordinate isBarycentricCoordInBounds).
Local Abbreviation returnsAtB :=
  (returnsAt calculateBarycentricCoordinate isBarycentricCoordInBounds).
Local Abbreviation depthAtB :=
  (depthAt calculateBarycentricCoordinate getZAtCoordinate).
Local Abbreviation launchB :=
  (generateFragments getAABBForTriangle calculateBarycentricCoordinate
     isBarycentricCoordInBounds getZAtCoordinate cfg).
Local Abbreviation primB prims primIdx :=
  (load (mkPrimitive Triangle zero_VertexOut zero_VertexOut zero_VertexOut false)
     prims primIdx).


End RasterBounds.

(** ** The vertex stage and primitive assembly together *)

Section VertexStageFacts.
Context {F : Type} `{Float F}.

(** X4. After the vertex stage every vertex below [numVertices] is the
    transform of its own attributes, whatever the buffer held; the cells
    from [numVertices] on and the size of the buffer are as before. *)
Theorem vertex_stage_cells cfg n (primitive : PrimitiveDevBufPointers F)
    (MVP MV : mat4 F) (MV_normal : mat3 F) w h vid :
  n <= Z.of_nat (length (dev_verticesOut primitive)) ->
  let out :=
    dev_verticesOut (_vertexTransformAndAssembly cfg n primitive MVP MV MV_normal w h) in
  length out = length (dev_verticesOut primitive)
  /\ (0 <= vid < n ->
      load zero_VertexOut out vid = transformVertex cfg primitive MVP MV MV_normal w h vid)
  /\ (n <= vid ->
      load zero_VertexOut out vid = load zero_VertexOut (dev_verticesOut primitive) vid).
Proof. apply vertex_stage_launch_cells. Qed.

End VertexStageFacts.

Section AssemblyLocality.
Context {F : Type} `{Float F}.

Lemma fold_asm_apply_other (tr : list (nat * AsmAction F)) (p : Primitive F) pid :
  (forall t a, (t, a) ∈ tr ->
     match a with SetVertex pid' _ _ => pid' <> pid | SetCull pid' _ => pid' <> pid end) ->
  fold_left (fun p e => asm_apply pid p (snd e)) tr p = p.
Proof.
  revert p. induction tr as [|[t a] tr IH]; intros p Hother; simpl; [done|].
  rewrite IH.
  - pose proof (Hother t a ltac:(left)) as Ha.
    destruct a as [pid' slot v|pid' c]; simpl;
      by destruct (Z.eqb_spec pid' pid).
  - intros t' a' Hin. apply (Hother t' a'). by right.
Qed.

Lemma assembly_other_primitives
    (d : Primitive F) sched numIndices cur (prims : list (Primitive F))
    (primitive : PrimitiveDevBufPointers F) pid :
  let k := PrimitiveType_to_int (dev_primitiveType primitive) in
  pid < cur \/ numIndices <= k * (pid - cur) ->
  load d (snd (fst (_primitiveAssembly sched numIndices cur prims primitive))) pid
  = load d prims pid.
Proof.
  intros k Hout.
  assert (Hk : 1 <= k <= 3) by (subst k; destruct (dev_primitiveType primitive); simpl; lia).
  destruct (decide (0 <= pid < Z.of_nat (length prims))) as [Hpid|Hpid].
  2:{ assert (Hlen : length (snd (fst (_primitiveAssembly sched numIndices cur prims
                                            primitive))) = length prims).
      { unfold _primitiveAssembly.
        match goal with
        | |- context [kernel ?st ?fin ?fu ?sc ?ls ?s0] =>
            destruct (kernel_is_run st fin fu sc ls s0) as [sched' ->]
        end.
        unfold asm_step, asm_finished. rewrite run_actions_state.
        generalize (snd (run (act_step asm_exec) act_finished (sched ++ sched')
                           (_primitiveAssembly_thread numIndices cur primitive
                              <$> grid1d numIndices) prims)).
        intros tr. revert prims Hpid. induction tr as [|e tr IH]; intros prims Hpid;
          simpl; [done|].
        rewrite IH by (rewrite length_asm_exec; done). apply length_asm_exec. }
      unfold load. destruct (Z.leb_spec 0 pid); [|done].
      rewrite !lookup_ge_None_2 by lia. done. }
  rewrite assembly_state by done.
  apply fold_asm_apply_other. intros t a Hin.
  apply assembly_log in Hin as [_ Hin].
  unfold _primitiveAssembly_thread in Hin. fold k in Hin.
  destruct (Z.ltb_spec (Z.of_nat t) numIndices) as [Hlt|]; [|inversion Hin].
  assert (Hq : Z.quot (Z.of_nat t) k + cur <> pid).
  { rewrite Z.quot_div_nonneg by lia.
    pose proof (Z.div_le_upper_bound (Z.of_nat t) k (Z.of_nat t) ltac:(lia) ltac:(nia)).
    pose proof (Z.div_pos (Z.of_nat t) k ltac:(lia) ltac:(lia)).
    destruct Hout as [Hlow|Hhigh]; [lia|].
    assert (Z.of_nat t / k < pid - cur); [|lia].
    apply Z.div_lt_upper_bound; lia. }
  apply elem_of_cons in Hin as [->|Hin]; [done|].
  apply list_elem_of_singleton in Hin. by subst.
Qed.

(** X5. Assembly of a mesh primitive stores only into the primitives that its
    indices address: with [k] indices per primitive, those from
    [curPrimitiveBeginId] up to the one of the last index.  Every other
    cell of the primitive buffer is as before, under every schedule. *)
Theorem assembly_leaves_other_primitives
    (d : Primitive F) sched numIndices cur (prims : list (Primitive F))
    (primitive : PrimitiveDevBufPointers F) pid :
  let k := PrimitiveType_to_int (dev_primitiveType primitive) in
  pid < cur \/ numIndices <= k * (pid - cur) ->
  load d (snd (fst (_primitiveAssembly sched numIndices cur prims primitive))) pid
  = load d prims pid.
Proof. apply assembly_other_primitives. Qed.

(** X6. The vertex stage followed by assembly, for a triangle record whose
    indices lie below [numVertices]: under every schedule, each primitive
    of the record has in its slot [k] the transform of the vertex that its
    [k]-th index names, and its cull flag is the test [normal.z < 0] on one
    of its three vertices. *)
Theorem vertex_stage_then_assembly
    (d : Primitive F) cfg sched (primitive : PrimitiveDevBufPointers F)
    (MVP MV : mat4 F) (MV_normal : mat3 F) w h cur (prims : list (Primitive F)) j :
  dev_primitiveType primitive = Triangle ->
  numVertices primitive <= Z.of_nat (length (dev_verticesOut primitive)) ->
  (forall i, 0 <= i < numIndices primitive ->
             0 <= load 0 (dev_indices primitive) i < numVertices primitive) ->
  0 <= cur -> 0 <= j -> 3 * j + 2 < numIndices primitive ->
  cur + j < Z.of_nat (length prims) ->
  let primitive' :=
    _vertexTransformAndAssembly cfg (numVertices primitive) primitive MVP MV MV_normal w h in
  let p' :=
    load d (snd (fst (_primitiveAssembly sched (numIndices primitive) cur prims primitive')))
         (cur + j) in
  let vertex k :=
    transformVertex cfg primitive MVP MV MV_normal w h
      (load 0 (dev_indices primitive) (3 * j + k)) in
  (forall k, 0 <= k < 3 -> get_v p' k = vertex k)
  /\ exists k, 0 <= k < 3 /\ cull p' = fltb (v3z (vertexNormal (vertex k))) fzero.
Proof.
  intros Htri Hlen Hind Hcur Hj Hidx Hpid primitive' p' vertex. subst p'.
  set (n := numIndices primitive) in *.
  set (r := _primitiveAssembly sched n cur prims primitive').
  set (p' := load d (snd (fst r)) (cur + j)).
  assert (Htri' : dev_primitiveType primitive' = Triangle) by done.
  assert (Hvert : forall i, 0 <= i < n ->
            assembledVertex primitive' i
            = transformVertex cfg primitive MVP MV MV_normal w h
                (load 0 (dev_indices primitive) i)).
  { intros i Hi. unfold assembledVertex.
    change (dev_indices primitive') with (dev_indices primitive).
    destruct (vertex_stage_launch_cells cfg (numVertices primitive) primitive MVP MV MV_normal w h
                (load 0 (dev_indices primitive) i) Hlen) as (_ & Hcell & _).
    apply Hcell. by apply Hind. }
  assert (Hstate := assembly_state d sched n cur prims primitive' (cur + j) ltac:(lia)).
  fold r in Hstate. fold p' in Hstate.
  assert (Hshape : forall t a, (t, a) ∈ snd r ->
            Z.of_nat t < n
            /\ (a = SetVertex (Z.quot (Z.of_nat t) 3 + cur) (Z.rem (Z.of_nat t) 3)
                      (assembledVertex primitive' (Z.of_nat t))
                \/ a = SetCull (Z.quot (Z.of_nat t) 3 + cur)
                         (fltb (v3z (vertexNormal (assembledVertex primitive' (Z.of_nat t))))
                               fzero))).
  { intros t a Hin. apply assembly_log in Hin as [_ Hin].
    rewrite assembly_program in Hin by done.
    destruct (Z.ltb_spec (Z.of_nat t) n); [|inversion Hin].
    split; [done|]. apply elem_of_cons in Hin as [->|Hin]; [by left|].
    apply list_elem_of_singleton in Hin. by right. }
  assert (Hthere : forall k, 0 <= k < 3 ->
            (Z.to_nat (3 * j + k),
             SetVertex (cur + j) k (assembledVertex primitive' (3 * j + k))) ∈ snd r).
  { intros k Hk. apply assembly_log.
    pose proof (threadCount_covers n ltac:(lia)).
    split; [lia|]. rewrite assembly_program by done.
    rewrite Z2Nat.id by lia.
    destruct (Z.ltb_spec (3 * j + k) n); [|lia].
    rewrite Z.quot_div_nonneg, Z.rem_mod_nonneg by lia.
    pose proof (Z.div_mod (3 * j + k) 3 ltac:(lia)).
    pose proof (Z.mod_pos_bound (3 * j + k) 3 ltac:(lia)).
    replace ((3 * j + k) / 3 + cur) with (cur + j) by lia.
    replace ((3 * j + k) mod 3) with k by lia. left. }
  assert (Hslots : forall k, 0 <= k < 3 -> get_v p' k = vertex k).
  { intros k Hk. rewrite Hstate. subst vertex. simpl.
    destruct (vertex_fold (load d prims (cur + j)) (snd r) (cur + j) k Hk)
      as [[Hno _]|(t & v & Hin & ->)].
    - exfalso. eapply Hno. apply (Hthere k Hk).
    - destruct (Hshape _ _ Hin) as [Hlt [Ha|Ha]]; [|discriminate].
      inversion Ha as [[Hp Hs Hv]].
      pose proof (Z.quot_rem' (Z.of_nat t) 3).
      rewrite Hvert by lia. do 2 f_equal. lia. }
  split; [done|].
  pose proof (cull_fold (load d prims (cur + j)) (snd r) (cur + j)) as Hcull.
  destruct (last_cull_writer (snd r) (cur + j)) as [t|].
  - destruct Hcull as (c & Hin & Hc).
    destruct (Hshape _ _ Hin) as [Hlt [Ha|Ha]]; [discriminate|].
    inversion Ha as [[Hp Hcv]].
    pose proof (Z.quot_rem' (Z.of_nat t) 3).
    pose proof (Z.rem_bound_pos (Z.of_nat t) 3 ltac:(lia) ltac:(lia)).
    exists (Z.rem (Z.of_nat t) 3). split; [lia|].
    rewrite Hstate, Hc, Hcv. subst vertex. cbv beta.
    rewrite Hvert by lia.
    replace (3 * j + Z.rem (Z.of_nat t) 3) with (Z.of_nat t) by lia. done.
  - exfalso. destruct Hcull as [Hno _].
    pose proof (threadCount_covers n ltac:(lia)).
    apply (Hno (Z.to_nat (3 * j))
               (fltb (v3z (vertexNormal (assembledVertex primitive' (3 * j)))) fzero)).
    apply assembly_log. split; [lia|]. rewrite assembly_program by done.
    rewrite Z2Nat.id by lia.
    destruct (Z.ltb_spec (3 * j) n); [|lia].
    rewrite Z.quot_div_nonneg by lia.
    pose proof (Z.div_mod (3 * j) 3 ltac:(lia)).
    pose proof (Z.mod_pos_bound (3 * j) 3 ltac:(lia)).
    replace (3 * j / 3) with j by lia.
    replace (j + cur) with (cur + j) by lia. right. left.
Qed.

End AssemblyLocality.

(** ** Frames *)

Section FrameFacts.
Context {F : Type} `{Float F}.
Variable getAABBForTriangle : triangle F -> Z -> Z -> AABB.
Variable calculateBarycentricCoordinate : triangle F -> vec2 F -> vec3 F.
Variable isBarycentricCoordInBounds : vec3 F -> bool.
Variable getZAtCoordinate : vec3 F -> triangle F -> F.
Variable cfg : Config.

Local Abbreviation passF :=
  (samplePass getAABBForTriangle calculateBarycentricCoordinate
     isBarycentricCoordInBounds getZAtCoordinate cfg).
Local Abbreviation passesF :=
  (samplePasses getAABBForTriangle calculateBarycentricCoordinate
     isBarycentricCoordInBounds getZAtCoordinate cfg).

(** A sample pass keeps the sizes of the three buffers. *)
Lemma samplePass_lengths sched w h frontPrims (prims : list (Primitive F)) i j
    (fragments : list (Fragment F)) (depth : list Z) (framebuffer : list (vec3 F)) :
  let r := fst (passF sched w h frontPrims prims i j fragments depth framebuffer) in
  length (fst (fst r)) = length fragments
  /\ length (snd (fst r)) = length depth
  /\ length (snd r) = length framebuffer.
Proof.
  simpl. unfold samplePass.
  match goal with
  | |- context [generateFragments ?a ?b ?c ?d ?e ?sc ?n ?ps ?w ?h ?fr ?dp ?off] =>
      pose proof (launch_lengths a b c d e sc n ps w h fr dp off) as Hl;
      destruct (generateFragments a b c d e sc n ps w h fr dp off) as [[ls s] tr]
  end.
  simpl in *. rewrite length_cudaMemset0, length_initDepth in Hl.
  destruct Hl as [Hd Hf]. rewrite length_render. done.
Qed.

(** X9. In a sample pass whose rasterizer launch has at least one
    primitive (a grid of at least one block), a pixel whose cell no
    primitive of the launch covers inside its box ends the pass with the
    zero fragment, whatever the fragment buffer held, and the shader sets
    its cell of the frame buffer to zero. *)
Theorem uncovered_pixel_is_background
    sched w h frontPrims (prims : list (Primitive F)) i j
    (fragments : list (Fragment F)) (depth : list Z) (framebuffer : list (vec3 F)) x y :
  1 <= frontPrims ->
  0 <= x < w -> 0 <= y < h ->
  Z.of_nat (length fragments) = w * h -> Z.of_nat (length framebuffer) = w * h ->
  let sampleOffset :=
    mkvec2 (fmul (f_of_int i) (SAMPLE_JITTER cfg)) (fmul (f_of_int j) (SAMPLE_JITTER cfg)) in
  (forall primIdx xy,
      0 <= primIdx < frontPrims ->
      let p := load (mkPrimitive Triangle zero_VertexOut zero_VertexOut zero_VertexOut false)
                 prims primIdx in
      xy ∈ pixelsOf (getAABBForTriangle (triangleOf p) w h) ->
      covered calculateBarycentricCoordinate isBarycentricCoordInBounds p sampleOffset xy
      = true ->
      snd xy * w + fst xy <> x + y * w) ->
  let r := passF sched w h frontPrims prims i j fragments depth framebuffer in
  load zero_Fragment (fst (fst (fst r))) (x + y * w) = zero_Fragment
  /\ load (vec3_splat fzero) (snd (fst r)) (x + y * w) = vec3_splat fzero.
Proof.
  intros Hn Hx Hy Hlf Hlb sampleOffset Hfree r. subst r. unfold samplePass.
  fold sampleOffset.
  match goal with
  | |- context [generateFragments ?a ?b ?c ?d ?e ?sc ?n ?ps ?w ?h ?fr ?dp ?off] =>
      destruct (launch_other_cells a b c d e sc n ps w h fr dp off (x + y * w) Hfree)
        as [_ Hfrag];
      destruct (generateFragments a b c d e sc n ps w h fr dp off) as [[ls s] tr]
  end.
  cbn [fst snd] in *.
  assert (Hz : load zero_Fragment (fragmentBuffer s) (x + y * w) = zero_Fragment).
  { rewrite Hfrag. apply load_cudaMemset0; nia. }
  split; [done|].
  rewrite render_pixel_background; [done | done | done | done |].
  rewrite Hz. apply zero_Fragment_is_background.
Qed.

(** The frame loop keeps the sizes of the three buffers. *)
Lemma samplePasses_lengths (sch : Schedules) w h frontPrims (prims : list (Primitive F))
    (st : list (Fragment F) * list Z * list (vec3 F)) :
  let r := passesF sch w h frontPrims prims st in
  length (fst (fst r)) = length (fst (fst st))
  /\ length (snd (fst r)) = length (snd (fst st))
  /\ length (snd r) = length (snd st).
Proof.
  simpl. unfold samplePasses.
  generalize (flat_map (fun i => map (fun j => (i, j)) (range 0 (SAMPLES cfg)))
                (range 0 (SAMPLES cfg))).
  intros passes. revert st. induction passes as [|[i j] passes IH]; intros st; simpl; [done|].
  destruct st as [[fr dp] fb]. simpl.
  pose proof (samplePass_lengths (raster_schedule sch i j) w h frontPrims prims i j fr dp fb)
    as (H1 & H2 & H3).
  match goal with |- context [fold_left ?f passes ?st'] => specialize (IH st') end.
  simpl in *. destruct IH as (I1 & I2 & I3). split; [|split]; congruence.
Qed.

End FrameFacts.

Section RemoveIfLength.
Context {A : Type}.
Variable pred : A -> bool.

Lemma length_remove_if_loop n first result (arr : list A) :
  length (fst (remove_if_loop pred n first result arr)) = length arr.
Proof.
  revert first result arr. induction n as [|n IH]; intros first result arr; simpl; [done|].
  destruct (arr !! first) as [a|]; [|done].
  destruct (pred a); rewrite IH; [done|]. by rewrite length_insert.
Qed.

Lemma length_remove_if (arr : list A) total :
  length (fst (remove_if pred arr total)) = length arr.
Proof.
  unfold remove_if.
  pose proof (length_remove_if_loop (Z.to_nat total) 0 0 arr) as Hl.
  destruct (remove_if_loop pred (Z.to_nat total) 0 0 arr). done.
Qed.

End RemoveIfLength.

Section FrameLoops.
Context {F : Type} `{Float F}.
Variable getAABBForTriangle : triangle F -> Z -> Z -> AABB.
Variable calculateBarycentricCoordinate : triangle F -> vec2 F -> vec3 F.
Variable isBarycentricCoordInBounds : vec3 F -> bool.
Variable getZAtCoordinate : vec3 F -> triangle F -> F.
Variable cfg : Config.

Local Abbreviation rasterizeL :=
  (rasterize getAABBForTriangle calculateBarycentricCoordinate
     isBarycentricCoordInBounds getZAtCoordinate cfg).
Local Abbreviation vertexStage MVP MV MV_normal w h :=
  (fun p : PrimitiveDevBufPointers F =>
     _vertexTransformAndAssembly cfg (numVertices p) p MVP MV MV_normal w h).

Lemma length_primitiveAssembly sched numIndices cur (prims : list (Primitive F))
    (primitive : PrimitiveDevBufPointers F) :
  length (snd (fst (_primitiveAssembly sched numIndices cur prims primitive)))
  = length prims.
Proof.
  unfold _primitiveAssembly.
  match goal with
  | |- context [kernel ?st ?fin ?fu ?sc ?ls ?s0] =>
      destruct (kernel_is_run st fin fu sc ls s0) as [sched' Hker]; rewrite Hker
  end.
  unfold asm_step, asm_finished. rewrite run_actions_state. clear Hker.
  match goal with |- context [fold_left _ ?tr prims] => generalize tr end.
  intros tr. revert prims. induction tr as [|e tr IH]; intros prims; simpl; [done|].
  rewrite IH. apply length_asm_exec.
Qed.

(** The loop over the primitives of a mesh: the records it returns are
    those of the vertex stage, the primitive buffer keeps its size. *)
Lemma assemblePrimitives_spec (sch : Schedules) MVP MV MV_normal w h
    (ps : list (PrimitiveDevBufPointers F)) (st : AsmState) :
  let r := assemblePrimitives cfg sch MVP MV MV_normal w h ps st in
  fst r = map (vertexStage MVP MV MV_normal w h) ps
  /\ length (fst (fst (snd r))) = length (fst (fst st))
  /\ snd (fst (snd r)) = snd (fst st) + fold_right Z.add 0 (map numPrimitives ps).
Proof.
  simpl. revert st. induction ps as [|p ps IH]; intros st; simpl.
  - split; [done|]. split; [done | lia].
  - destruct st as [[prims cur] k]. simpl.
    match goal with |- context [assemblePrimitives _ _ _ _ _ _ _ ps ?st'] =>
      specialize (IH st'); destruct (assemblePrimitives cfg sch MVP MV MV_normal w h ps st')
        as [rest' st''] end.
    simpl in *. destruct IH as (I1 & I2 & I3).
    rewrite length_primitiveAssembly in I2.
    split; [by rewrite I1|]. split; [done | lia].
Qed.

(** The loop over the meshes, away from the keys it visits. *)
Lemma assembleMeshes_other (sch : Schedules) MVP MV MV_normal w h
    (ms : list (string * list (PrimitiveDevBufPointers F))) m (st : AsmState) nm :
  nm ∉ ms.*1 ->
  fst (assembleMeshes cfg sch MVP MV MV_normal w h ms m st) !! nm = m !! nm.
Proof.
  revert m st. induction ms as [|[nm0 ps0] ms IH]; intros m st Hnm; simpl; [done|].
  pose proof (assemblePrimitives_spec sch MVP MV MV_normal w h ps0 st) as Hs.
  destruct (assemblePrimitives cfg sch MVP MV MV_normal w h ps0 st) as [ps' st'].
  simpl in Hnm. apply not_elem_of_cons in Hnm as [Hne Hnm].
  rewrite IH by done. by rewrite lookup_insert_ne.
Qed.

Lemma assembleMeshes_visited (sch : Schedules) MVP MV MV_normal w h
    (ms : list (string * list (PrimitiveDevBufPointers F))) m (st : AsmState) nm ps :
  NoDup ms.*1 -> (nm, ps) ∈ ms ->
  fst (assembleMeshes cfg sch MVP MV MV_normal w h ms m st) !! nm
  = Some (map (vertexStage MVP MV MV_normal w h) ps).
Proof.
  revert m st. induction ms as [|[nm0 ps0] ms IH]; intros m st Hnd Hin; simpl.
  - by apply elem_of_nil in Hin.
  - pose proof (assemblePrimitives_spec sch MVP MV MV_normal w h ps0 st) as Hs.
    destruct (assemblePrimitives cfg sch MVP MV MV_normal w h ps0 st) as [ps' st'].
    simpl in Hs. destruct Hs as (Hps & _).
    simpl in Hnd. apply NoDup_cons in Hnd as [Hfresh Hnd].
    apply elem_of_cons in Hin as [Heq | Hin].
    + inversion Heq; subst nm0 ps0.
      rewrite assembleMeshes_other by done. rewrite lookup_insert_eq. by rewrite Hps.
    + by apply IH.
Qed.

Lemma assembleMeshes_length (sch : Schedules) MVP MV MV_normal w h
    (ms : list (string * list (PrimitiveDevBufPointers F))) m (st : AsmState) :
  length (fst (fst (snd (assembleMeshes cfg sch MVP MV MV_normal w h ms m st))))
  = length (fst (fst st)).
Proof.
  revert m st. induction ms as [|[nm0 ps0] ms IH]; intros m st; simpl; [done|].
  pose proof (assemblePrimitives_spec sch MVP MV MV_normal w h ps0 st) as Hs.
  destruct (assemblePrimitives cfg sch MVP MV MV_normal w h ps0 st) as [ps' st'].
  simpl in Hs. destruct Hs as (_ & Hl & _). rewrite IH. done.
Qed.

Lemma meshes_in_key_order_elem (m : gmap string (list (PrimitiveDevBufPointers F))) nm ps :
  (nm, ps) ∈ meshes_in_key_order m <-> m !! nm = Some ps.
Proof.
  unfold meshes_in_key_order. rewrite merge_sort_Permutation.
  apply elem_of_map_to_list.
Qed.

Lemma meshes_in_key_order_NoDup (m : gmap string (list (PrimitiveDevBufPointers F))) :
  NoDup (meshes_in_key_order m).*1.
Proof.
  unfold meshes_in_key_order. rewrite merge_sort_Permutation.
  apply NoDup_fst_map_to_list.
Qed.

Lemma cullPrimitives_length (prims : list (Primitive F)) total :
  length (fst (cullPrimitives cfg prims total)) = length prims.
Proof.
  unfold cullPrimitives. destruct (BACKFACE_CULLING cfg); [|done].
  apply length_remove_if.
Qed.

(** X7. [rasterize] keeps the image size, the primitive count and the sizes of
    the primitive buffer, the fragment buffer, the frame buffer and the
    depth buffer: a device that [rasterizeInit] and [rasterizeSetBuffers]
    prepared stays prepared, frame after frame. *)
Theorem rasterize_keeps_buffer_sizes (sch : Schedules) (MVP MV : mat4 F)
    (MV_normal : mat3 F) (d : Device F) :
  let d' := rasterizeL sch MVP MV MV_normal d in
  width d' = width d /\ height d' = height d
  /\ totalNumPrimitives d' = totalNumPrimitives d
  /\ length <$> dev_primitives d' = length <$> dev_primitives d
  /\ length (dev_fragmentBuffer d') = length (dev_fragmentBuffer d)
  /\ length (dev_framebuffer d') = length (dev_framebuffer d)
  /\ length (dev_depth d') = length (dev_depth d).
Proof.
  simpl. unfold rasterize.
  match goal with
  | |- context [assembleMeshes ?c ?s ?a ?b ?n ?w ?h ?ms ?m ?st] =>
      pose proof (assembleMeshes_length s a b n w h ms m st) as Hpl;
      destruct (assembleMeshes c s a b n w h ms m st) as [m' [[prims c0] k]]
  end.
  pose proof (cullPrimitives_length prims (totalNumPrimitives d)) as Hcl.
  destruct (cullPrimitives cfg prims (totalNumPrimitives d)) as [prims' frontPrims].
  match goal with
  | |- context [samplePasses ?a ?b ?c ?d ?e ?sch ?w ?h ?n ?ps ?st] =>
      pose proof (samplePasses_lengths a b c d e sch w h n ps st) as (H1 & H2 & H3);
      destruct (samplePasses a b c d e sch w h n ps st) as [[fr dp] fb]
  end.
  simpl in *. rewrite length_cudaMemset0 in H3.
  repeat split; try done.
  destruct (dev_primitives d) as [old|]; simpl in *; [|done].
  f_equal. congruence.
Qed.

(** X8. In the mesh map [rasterize] changes the vertex output buffers and
    nothing else: the map after a frame is the map before with every
    record replaced by the result of its vertex stage, so keys, counts,
    index and attribute buffers and textures are those of the set-up. *)
Theorem rasterize_mesh_map (sch : Schedules) (MVP MV : mat4 F)
    (MV_normal : mat3 F) (d : Device F) :
  mesh2PrimitivesMap (rasterizeL sch MVP MV MV_normal d)
  = map (vertexStage MVP MV MV_normal (width d) (height d)) <$> mesh2PrimitivesMap d.
Proof.
  unfold rasterize.
  match goal with
  | |- context [assembleMeshes ?c ?s ?a ?b ?n ?w ?h ?ms ?m ?st] =>
      pose proof (assembleMeshes_other s a b n w h ms m st) as Hother;
      pose proof (assembleMeshes_visited s a b n w h ms m st) as Hvis;
      destruct (assembleMeshes c s a b n w h ms m st) as [m' [[prims c0] k]]
  end.
  destruct (cullPrimitives cfg prims (totalNumPrimitives d)) as [prims' frontPrims].
  match goal with
  | |- context [samplePasses ?a ?b ?c ?d ?e ?sch ?w ?h ?n ?ps ?st] =>
      destruct (samplePasses a b c d e sch w h n ps st) as [[fr dp] fb]
  end.
  simpl in *. apply map_eq. intros nm. rewrite lookup_fmap.
  destruct (mesh2PrimitivesMap d !! nm) as [ps|] eqn:Hnm; simpl.
  - apply Hvis; [apply meshes_in_key_order_NoDup | by apply meshes_in_key_order_elem].
  - rewrite Hother; [done|].
    intros Hin. apply list_elem_of_fmap in Hin as ([nm' ps] & Heq & Hin). simpl in Heq.
    subst nm'. apply meshes_in_key_order_elem in Hin. congruence.
Qed.

End FrameLoops.

(** ** The strided copy *)

Section DeviceBufferCopyFacts.
Variables (N : Z) (dev_src : list Z) (n byteStride byteOffset componentTypeByteSize : Z).

Local Abbreviation size := componentTypeByteSize.
Local Abbreviation stride := (if byteStride =? 0 then componentTypeByteSize * n else byteStride).

(** The byte [j] of component [i], as a thread of its own. *)
Local Abbreviation byte_guard := (fun ij : Z * Z => fst ij <? N).
Local Abbreviation byte_cell :=
  (fun ij : Z * Z =>
     Z.quot (fst ij) n * size * n + (fst ij - Z.quot (fst ij) n * n) * size + snd ij).
Local Abbreviation byte_value :=
  (fun (ij : Z * Z) (_ : Z) =>
     load 0 dev_src
       (byteOffset + Z.quot (fst ij) n * stride + (fst ij - Z.quot (fst ij) n * n) * size
        + snd ij)).
Local Abbreviation byte_thread := (cellwise 0 byte_guard byte_cell byte_value).

Lemma copy_thread_bytes (dst : list Z) i :
  _deviceBufferCopy_thread N dev_src n byteStride byteOffset size dst i
  = fold_left byte_thread ((fun j => (i, j)) <$> range 0 size) dst.
Proof.
  unfold _deviceBufferCopy_thread.
  generalize (range 0 size). intros js. revert dst.
  assert (Hstep : forall dst j,
            byte_thread dst (i, j)
            = if i <? N
              then store dst (Z.quot i n * size * n + (i - Z.quot i n * n) * size + j)
                     (load 0 dev_src
                        (byteOffset + Z.quot i n * stride + (i - Z.quot i n * n) * size + j))
              else dst) by done.
  destruct (i <? N) eqn:Hg.
  - induction js as [|j js IH]; intros dst; [done|].
    rewrite fmap_cons. cbn [fold_left]. rewrite Hstep. apply IH.
  - induction js as [|j js IH]; intros dst; [done|].
    rewrite fmap_cons. cbn [fold_left]. rewrite Hstep. apply IH.
Qed.

Lemma copy_launch_bytes (dst : list Z) :
  _deviceBufferCopy N dst dev_src n byteStride byteOffset size
  = fold_left byte_thread (grid1d N ≫= fun i => (fun j => (i, j)) <$> range 0 size) dst.
Proof.
  unfold _deviceBufferCopy, launch1d.
  generalize (grid1d N). intros l. revert dst.
  induction l as [|i l IH]; intros dst; simpl; [done|].
  rewrite fold_left_app, <- copy_thread_bytes. apply IH.
Qed.

Lemma byte_cell_flat i j : byte_cell (i, j) = i * size + j.
Proof. simpl. lia. Qed.

Lemma NoDup_byte_grid : NoDup (grid1d N ≫= fun i => (fun j => (i, j)) <$> range 0 size).
Proof.
  apply NoDup_bind.
  - intros i i' [a b] _ _ Hin Hin'.
    apply list_elem_of_fmap in Hin as (j & Heq & _).
    apply list_elem_of_fmap in Hin' as (j' & Heq' & _). congruence.
  - intros i _. apply NoDup_fmap_2; [|apply NoDup_seqZ].
    intros j j' Heq. congruence.
  - apply NoDup_grid1d.
Qed.

Lemma elem_of_byte_grid i j :
  (i, j) ∈ (grid1d N ≫= fun i => (fun j => (i, j)) <$> range 0 size)
  <-> 0 <= i < threadCount N /\ 0 <= j < size.
Proof.
  rewrite list_elem_of_bind. split.
  - intros (i' & Hin & Hi'). apply list_elem_of_fmap in Hin as (j' & Heq & Hj').
    inversion Heq; subst i' j'. apply elem_of_grid1d in Hi'.
    unfold range in Hj'. apply elem_of_seqZ in Hj'. lia.
  - intros [Hi Hj]. exists i. split; [|by apply elem_of_grid1d].
    apply list_elem_of_fmap. exists j. split; [done|].
    unfold range. apply elem_of_seqZ. lia.
Qed.

(** The destination after the launch, byte [j] of component [i]. *)
Lemma copy_launch_cell (dst : list Z) i j :
  0 <= i < N -> 0 <= j < size -> i * size + j < Z.of_nat (length dst) ->
  load 0 (_deviceBufferCopy N dst dev_src n byteStride byteOffset size) (i * size + j)
  = byte_value (i, j) 0.
Proof.
  intros Hi Hj Hlen. rewrite copy_launch_bytes, <- (byte_cell_flat i j).
  apply (fold_cellwise_hit 0 byte_guard byte_cell byte_value _ dst (i, j)).
  - apply NoDup_byte_grid.
  - apply elem_of_byte_grid. pose proof (threadCount_covers N ltac:(lia)). lia.
  - simpl. apply Z.ltb_lt. lia.
  - intros [i' j'] Hin Hg Heq. rewrite !byte_cell_flat in Heq.
    apply elem_of_byte_grid in Hin as [Hi' Hj'].
    assert (i' = i) by nia. subst i'. f_equal. lia.
  - rewrite byte_cell_flat. nia.
Qed.

Lemma copy_launch_other (dst : list Z) k :
  k < 0 \/ N * size <= k ->
  load 0 (_deviceBufferCopy N dst dev_src n byteStride byteOffset size) k = load 0 dst k.
Proof.
  intros Hk. rewrite copy_launch_bytes. apply fold_cellwise_miss.
  intros [i j] Hin Hg. rewrite byte_cell_flat.
  apply elem_of_byte_grid in Hin as [Hi Hj]. simpl in Hg. apply Z.ltb_lt in Hg. nia.
Qed.

Lemma length_deviceBufferCopy (dst : list Z) :
  length (_deviceBufferCopy N dst dev_src n byteStride byteOffset size) = length dst.
Proof. rewrite copy_launch_bytes. apply length_fold_cellwise. Qed.

End DeviceBufferCopyFacts.

(** X11. The strided copy gathers attributes: byte [j] of component [o] of
    attribute [c] is read at [byteOffset + c * stride + o * size + j],
    where the stride 0 stands for packed attributes, and is stored packed,
    at [(c * n + o) * size + j].  The destination keeps its size, and its
    bytes from [N * size] on are as before. *)
Theorem deviceBufferCopy_gathers
    (N : Z) (dev_dst dev_src : list Z) (n byteStride byteOffset componentTypeByteSize : Z)
    c o j k :
  0 < n -> 0 <= c -> 0 <= o < n -> c * n + o < N ->
  0 <= j < componentTypeByteSize ->
  N * componentTypeByteSize <= Z.of_nat (length dev_dst) ->
  N * componentTypeByteSize <= k ->
  let dst' :=
    _deviceBufferCopy N dev_dst dev_src n byteStride byteOffset componentTypeByteSize in
  load 0 dst' ((c * n + o) * componentTypeByteSize + j)
  = load 0 dev_src
      (byteOffset
       + c * (if byteStride =? 0 then componentTypeByteSize * n else byteStride)
       + o * componentTypeByteSize + j)
  /\ load 0 dst' k = load 0 dev_dst k
  /\ length dst' = length dev_dst.
Proof.
  intros Hn Hc Ho HN Hj Hlen Hk dst'. subst dst'. split; [|split].
  - rewrite copy_launch_cell by nia. simpl.
    assert (Hq : Z.quot (c * n + o) n = c).
    { rewrite Z.quot_div_nonneg by nia. symmetry. apply (Z.div_unique _ _ c o); lia. }
    rewrite Hq. f_equal. lia.
  - apply copy_launch_other. by right.
  - apply length_deviceBufferCopy.
Qed.

(** X12. With the stride 0 the copy is a plain copy of [N * size] bytes from
    [byteOffset] on, whatever the number [n] of components per attribute
    (not 0: the thread divides by it). *)
Theorem deviceBufferCopy_packed
    (N : Z) (dev_dst dev_src : list Z) (n byteOffset componentTypeByteSize : Z) k :
  n <> 0 ->
  0 <= k < N * componentTypeByteSize ->
  0 < componentTypeByteSize ->
  N * componentTypeByteSize <= Z.of_nat (length dev_dst) ->
  load 0 (_deviceBufferCopy N dev_dst dev_src n 0 byteOffset componentTypeByteSize) k
  = load 0 dev_src (byteOffset + k).
Proof.
  intros _ Hk Hs Hlen.
  pose proof (Z.div_mod k componentTypeByteSize ltac:(lia)) as Hdm.
  pose proof (Z.mod_pos_bound k componentTypeByteSize Hs) as Hm.
  set (i := k / componentTypeByteSize) in *.
  set (j := k mod componentTypeByteSize) in *.
  assert (Hi : 0 <= i < N) by nia.
  replace k with (i * componentTypeByteSize + j) at 1 by lia.
  rewrite copy_launch_cell by nia. simpl. f_equal. lia.
Qed.

(** ** Texture look-ups *)

Section TextureReads.
Context {F : Type} `{Float F}.

(** [colorAtPoint] reads the three bytes of its texel and nothing else. *)
Lemma colorAtPoint_reads (tex tex' : list Z) size index :
  (forall k, 0 <= k < 3 * size -> load 0 tex k = load 0 tex' k) ->
  0 <= index < size ->
  colorAtPoint (F := F) tex index = colorAtPoint tex' index.
Proof.
  intros Hagree Hi. unfold colorAtPoint.
  rewrite !(Hagree (index * 3)), !(Hagree (index * 3 + 1)), !(Hagree (index * 3 + 2)) by lia.
  done.
Qed.

(** X13. When the texel of a UV lies in the texture, both samplers read inside
    the [3 * texWidth * texHeight] bytes of the texture: the neighbours of
    the bilinear sampler are replaced by the texel itself at the right
    column and at the last row.  Two textures that agree on these bytes give
    the same colours. *)
Theorem samplers_read_inside_texture (uv : vec2 F) (tex tex' : list Z) texWidth texHeight :
  let uIndex := f_to_int (v2x uv * f_of_int texWidth)%fl in
  let vIndex := f_to_int (v2y uv * f_of_int texHeight)%fl in
  0 <= uIndex < texWidth -> 0 <= vIndex < texHeight ->
  (forall k, 0 <= k < 3 * (texWidth * texHeight) -> load 0 tex k = load 0 tex' k) ->
  sample uv tex texWidth texHeight = sample uv tex' texWidth texHeight
  /\ sampleBilinear uv tex texWidth texHeight = sampleBilinear uv tex' texWidth texHeight.
Proof.
  intros uIndex vIndex Hu Hv Hagree.
  assert (Hc : forall index, 0 <= index < texWidth * texHeight ->
                 colorAtPoint (F := F) tex index = colorAtPoint tex' index)
    by (intros index Hi; by apply (colorAtPoint_reads tex tex' (texWidth * texHeight))).
  split.
  - unfold sample. fold uIndex vIndex. apply Hc. nia.
  - unfold sampleBilinear. fold uIndex vIndex.
    rewrite (Hc (uIndex + texWidth * vIndex)) by nia.
    rewrite (Hc (if uIndex + 1 <? texWidth then uIndex + texWidth * vIndex + 1
                 else uIndex + texWidth * vIndex)).
    2:{ destruct (Z.ltb_spec (uIndex + 1) texWidth); nia. }
    rewrite (Hc (if vIndex + 1 <? texHeight then uIndex + texWidth * vIndex + texWidth
                 else uIndex + texWidth * vIndex)).
    2:{ destruct (Z.ltb_spec (vIndex + 1) texHeight); nia. }
    rewrite (Hc (if (uIndex + 1 <? texWidth) && (vIndex + 1 <? texHeight)
                 then uIndex + texWidth * vIndex + texWidth + 1
                 else uIndex + texWidth * vIndex)).
    2:{ destruct (Z.ltb_spec (uIndex + 1) texWidth);
        destruct (Z.ltb_spec (vIndex + 1) texHeight); simpl; nia. }
    done.
Qed.

End TextureReads.

Section ExactSampling.

Lemma to_int_IZR (a : Z) : Exact.to_int (IZR a) = a.
Proof.
  unfold Exact.to_int. destruct (Rle_dec 0 (IZR a)) as [Hle | Hlt].
  - symmetry. apply Int_part_spec. split; lra.
  - rewrite <- opp_IZR.
    assert (Hi : - a = Int_part (IZR (- a))) by (apply Int_part_spec; split; lra).
    rewrite <- Hi. lia.
Qed.

(** X14. In exact arithmetic the bilinear sampler agrees with the nearest
    sampler at the corner of a texel, where both fractions are 0. *)
Theorem sampleBilinear_at_texel_corner (uv : vec2 R) (tex : list Z) texWidth texHeight a b :
  (v2x uv * IZR texWidth = IZR a)%R -> (v2y uv * IZR texHeight = IZR b)%R ->
  sampleBilinear uv tex texWidth texHeight = sample uv tex texWidth texHeight.
Proof.
  intros Ha Hb. unfold sampleBilinear, sample. cbv zeta.
  change (v2x uv * f_of_int texWidth)%fl with (v2x uv * IZR texWidth)%R.
  change (v2y uv * f_of_int texHeight)%fl with (v2y uv * IZR texHeight)%R.
  rewrite Ha, Hb.
  change (f_to_int (IZR a)) with (Exact.to_int (IZR a)).
  change (f_to_int (IZR b)) with (Exact.to_int (IZR b)).
  rewrite !to_int_IZR.
  generalize (colorAtPoint (F := R) tex (a + texWidth * b)).
  generalize (colorAtPoint (F := R) tex
                (if a + 1 <? texWidth then a + texWidth * b + 1 else a + texWidth * b)).
  generalize (colorAtPoint (F := R) tex
                (if b + 1 <? texHeight then a + texWidth * b + texWidth
                 else a + texWidth * b)).
  generalize (colorAtPoint (F := R) tex
                (if (a + 1 <? texWidth) && (b + 1 <? texHeight)
                 then a + texWidth * b + texWidth + 1 else a + texWidth * b)).
  intros [x3 y3 z3] [x2 y2 z2] [x1 y1 z1] [x0 y0 z0].
  unfold vec3_add, vec3_scale, fone. simpl. f_equal; ring.
Qed.

End ExactSampling.

(** ** The node transform of the set-up: [_nodeMatrixTransform] *)

Section NodeTransformFacts.
Context {F : Type} `{Float F}.
Variables (nVertices : Z) (MV : mat4 F) (MV_normal : mat3 F).

Local Abbreviation position_thread :=
  (cellwise (vec3_splat fzero) (fun vid => vid <? nVertices) (fun vid => vid)
     (fun (_ : Z) p => vec3_of_vec4 (mat4_mul_vec4 MV (vec4_of_vec3 p fone)))).
Local Abbreviation normal_thread :=
  (cellwise (vec3_splat fzero) (fun vid => vid <? nVertices) (fun vid => vid)
     (fun (_ : Z) nrm => normalize3 (mat3_mul_vec3 MV_normal nrm))).

(** The two buffers of the kernel are transformed side by side. *)
Lemma nodeMatrixTransform_split (position normal : list (vec3 F)) :
  _nodeMatrixTransform nVertices position normal MV MV_normal
  = (fold_left position_thread (grid1d nVertices) position,
     fold_left normal_thread (grid1d nVertices) normal).
Proof.
  unfold _nodeMatrixTransform, launch1d.
  generalize (grid1d nVertices). intros l. revert position normal.
  induction l as [|vid l IH]; intros position normal; simpl; [done|].
  unfold cellwise at 2 4. destruct (vid <? nVertices); apply IH.
Qed.

(** X15. After the node transform every vertex below [numVertices] has its
    position multiplied by the node's matrix and its normal multiplied by
    the normal matrix and normalized, each exactly once; the cells from
    [numVertices] on and the sizes of the two buffers are as before. *)
Theorem nodeMatrixTransform_cells (position normal : list (vec3 F)) vid :
  nVertices <= Z.of_nat (length position) ->
  nVertices <= Z.of_nat (length normal) ->
  let r := _nodeMatrixTransform nVertices position normal MV MV_normal in
  length (fst r) = length position /\ length (snd r) = length normal
  /\ (0 <= vid < nVertices ->
      load (vec3_splat fzero) (fst r) vid
      = vec3_of_vec4
          (mat4_mul_vec4 MV (vec4_of_vec3 (load (vec3_splat fzero) position vid) fone))
      /\ load (vec3_splat fzero) (snd r) vid
         = normalize3 (mat3_mul_vec3 MV_normal (load (vec3_splat fzero) normal vid)))
  /\ (nVertices <= vid ->
      load (vec3_splat fzero) (fst r) vid = load (vec3_splat fzero) position vid
      /\ load (vec3_splat fzero) (snd r) vid = load (vec3_splat fzero) normal vid).
Proof.
  intros Hlp Hln r. subst r. rewrite nodeMatrixTransform_split. cbn [fst snd].
  split; [apply length_fold_cellwise|]. split; [apply length_fold_cellwise|].
  split.
  - intros Hvid.
    assert (Hin : vid ∈ grid1d nVertices).
    { apply elem_of_grid1d. pose proof (threadCount_covers nVertices ltac:(lia)). lia. }
    split.
    + apply (fold_cellwise_hit (vec3_splat fzero) (fun vid => vid <? nVertices)
               (fun vid => vid)
               (fun (_ : Z) p => vec3_of_vec4 (mat4_mul_vec4 MV (vec4_of_vec3 p fone)))
               (grid1d nVertices) position vid);
        [apply NoDup_grid1d | done | apply Z.ltb_lt; lia | by intros t' _ _ Heq | lia].
    + apply (fold_cellwise_hit (vec3_splat fzero) (fun vid => vid <? nVertices)
               (fun vid => vid)
               (fun (_ : Z) nrm => normalize3 (mat3_mul_vec3 MV_normal nrm))
               (grid1d nVertices) normal vid);
        [apply NoDup_grid1d | done | apply Z.ltb_lt; lia | by intros t' _ _ Heq | lia].
  - intros Hvid. split; apply fold_cellwise_miss;
      intros t _ Hg Heq; apply Z.ltb_lt in Hg; lia.
Qed.

End NodeTransformFacts.

(** ** The primitive count of the set-up *)

Section PrimitiveCounts.
Context {F : Type} `{Float F}.

Lemma sum_Permutation (l l' : list Z) :
  l ≡ₚ l' -> fold_right Z.add 0 l = fold_right Z.add 0 l'.
Proof. induction 1; simpl; lia. Qed.

Lemma primitiveCount_app (ps qs : list (PrimitiveDevBufPointers F)) :
  primitiveCount (ps ++ qs) = primitiveCount ps + primitiveCount qs.
Proof.
  unfold primitiveCount. induction ps as [|p ps IH]; simpl; [done|]. lia.
Qed.

Lemma registered_Permutation (l l' : list (string * list (PrimitiveDevBufPointers F))) :
  l ≡ₚ l' ->
  fold_right Z.add 0 (map (fun e => primitiveCount (snd e)) l)
  = fold_right Z.add 0 (map (fun e => primitiveCount (snd e)) l').
Proof. intros Hp. apply sum_Permutation. by apply Permutation_map. Qed.

Lemma registered_insert_fresh (m : gmap string (list (PrimitiveDevBufPointers F))) nm ps :
  m !! nm = None ->
  registeredPrimitives (<[nm := ps]> m) = primitiveCount ps + registeredPrimitives m.
Proof.
  intros Hnm. unfold registeredPrimitives.
  rewrite (registered_Permutation _ _ (map_to_list_insert m nm ps Hnm)). done.
Qed.

Lemma registered_insert (m : gmap string (list (PrimitiveDevBufPointers F))) nm ps :
  registeredPrimitives (<[nm := ps]> m)
  = registeredPrimitives m - primitiveCount (default [] (m !! nm)) + primitiveCount ps.
Proof.
  destruct (m !! nm) as [old|] eqn:Hnm; simpl.
  - rewrite <- insert_delete_eq.
    rewrite registered_insert_fresh by apply lookup_delete_eq.
    unfold registeredPrimitives at 2.
    rewrite <- (registered_Permutation _ _ (map_to_list_delete m nm old Hnm)).
    simpl. fold (registeredPrimitives (delete nm m)). lia.
  - rewrite registered_insert_fresh by done. unfold primitiveCount. simpl. lia.
Qed.

(** The count that [totalNumPrimitives] is ahead of the mesh map. *)
Local Abbreviation ahead d :=
  (totalNumPrimitives d - registeredPrimitives (mesh2PrimitivesMap d)).

Lemma insert_mesh_ahead nm (d : Device F) : ahead (insert_mesh nm d) = ahead d.
Proof.
  unfold insert_mesh. destruct (mesh2PrimitivesMap d !! nm) eqn:Hnm; [done|].
  simpl. rewrite registered_insert_fresh by done. unfold primitiveCount. simpl. lia.
Qed.

Lemma push_primitive_ahead nm p (d : Device F) : ahead (push_primitive nm p d) = ahead d.
Proof.
  unfold push_primitive. simpl. rewrite registered_insert, primitiveCount_app.
  unfold primitiveCount at 3. simpl. lia.
Qed.

Variable uninit_VertexOut : VertexOut F.
Variable uninit_primitiveType : PrimitiveType.
Variable uninit_numPrimitives : Z.

Local Abbreviation setupPs :=
  (setupPrimitives uninit_VertexOut uninit_primitiveType uninit_numPrimitives).
Local Abbreviation setupMs :=
  (setupMeshes uninit_VertexOut uninit_primitiveType uninit_numPrimitives).
Local Abbreviation setupNs :=
  (setupNodes uninit_VertexOut uninit_primitiveType uninit_numPrimitives).

Lemma setupPrimitives_ahead M MN nm ps (d : Device F) :
  ahead (flow_out (setupPs M MN nm ps d)) = ahead d.
Proof.
  revert d. induction ps as [|p ps IH]; intros d; simpl; [done|].
  destruct (decide (indices p = EmptyString)); [done|].
  rewrite IH. apply push_primitive_ahead.
Qed.

Lemma setupMeshes_ahead M MN ms (d : Device F) :
  ahead (flow_out (setupMs M MN ms d)) = ahead d.
Proof.
  revert d. induction ms as [|mesh ms IH]; intros d; simpl; [done|].
  pose proof (setupPrimitives_ahead M MN (name mesh) (primitives mesh)
                (insert_mesh (name mesh) d)) as Hp.
  rewrite insert_mesh_ahead in Hp.
  destruct (setupPs M MN (name mesh) (primitives mesh) (insert_mesh (name mesh) d))
    as [d1|d1]; simpl in *; [|done].
  by rewrite IH.
Qed.

Lemma setupNodes_ahead ns (d : Device F) :
  ahead (flow_out (setupNs ns d)) = ahead d.
Proof.
  revert d. induction ns as [|nd ns IH]; intros d; simpl; [done|].
  pose proof (setupMeshes_ahead (matrix nd) (matrixNormal nd) (meshes nd) d) as Hm.
  destruct (setupMs (matrix nd) (matrixNormal nd) (meshes nd) d) as [d1|d1];
    simpl in *; [|done].
  by rewrite IH.
Qed.

Variable uninit_Primitive : Primitive F.

Local Abbreviation setBuffers :=
  (rasterizeSetBuffers uninit_VertexOut uninit_Primitive uninit_primitiveType
     uninit_numPrimitives).

Lemma rasterizeSetBuffers_ahead (scene : Scene F) (d : Device F) :
  ahead (setup_device (setBuffers scene d)) = - registeredPrimitives (mesh2PrimitivesMap d).
Proof.
  unfold rasterizeSetBuffers.
  match goal with |- context [setupNodes _ _ _ ?ns ?d0] =>
    pose proof (setupNodes_ahead ns d0) as Ha;
    destruct (setupNodes uninit_VertexOut uninit_primitiveType uninit_numPrimitives ns d0)
      as [d1|d1]
  end; simpl in *; lia.
Qed.

(** X16. [rasterizeSetBuffers] counts what it registers: on both of its paths
    [totalNumPrimitives] ends as the sum of [numPrimitives] over the
    records of the mesh map minus that sum before the call, so on a mesh
    map that was empty it is the number of primitives of the map. *)
Theorem setup_counts_registered_primitives (scene : Scene F) (d : Device F) :
  let d' := setup_device (setBuffers scene d) in
  totalNumPrimitives d'
  = registeredPrimitives (mesh2PrimitivesMap d') - registeredPrimitives (mesh2PrimitivesMap d).
Proof. simpl. pose proof (rasterizeSetBuffers_ahead scene d). lia. Qed.

End PrimitiveCounts.

(** ** The offsets of the assembly launches *)

Section FrameOffsets.
Context {F : Type} `{Float F}.
Variable cfg : Config.

(** The loop over the meshes advances [curPrimitiveBeginId] by the
    primitives of the meshes it visits. *)
Lemma assembleMeshes_offset (sch : Schedules) MVP MV MV_normal w h
    (ms : list (string * list (PrimitiveDevBufPointers F))) m (st : AsmState) :
  snd (fst (snd (assembleMeshes cfg sch MVP MV MV_normal w h ms m st)))
  = snd (fst st) + fold_right Z.add 0 (map (fun e => primitiveCount (snd e)) ms).
Proof.
  revert m st. induction ms as [|[nm0 ps0] ms IH]; intros m st; simpl; [lia|].
  pose proof (assemblePrimitives_spec cfg sch MVP MV MV_normal w h ps0 st) as Hs.
  destruct (assemblePrimitives cfg sch MVP MV MV_normal w h ps0 st) as [ps' st'].
  simpl in Hs. destruct Hs as (_ & _ & Hc). rewrite IH, Hc.
  unfold primitiveCount. lia.
Qed.

Variable uninit_VertexOut : VertexOut F.
Variable uninit_Primitive : Primitive F.
Variable uninit_primitiveType : PrimitiveType.
Variable uninit_numPrimitives : Z.

(** X17. After a set-up that started from an empty mesh map, the loop of
    [rasterize] over the meshes, which starts [curPrimitiveBeginId] at 0
    and advances it by [numPrimitives] after each assembly launch, ends at
    [totalNumPrimitives]; when the set-up reached its end, this is the
    number of cells of [dev_primitives]. *)
Theorem frame_offsets_end_at_total (scene : Scene F) (d : Device F)
    (sch : Schedules) (MVP MV : mat4 F) (MV_normal : mat3 F)
    (prims : list (Primitive F)) k :
  mesh2PrimitivesMap d = ∅ ->
  let r :=
    rasterizeSetBuffers uninit_VertexOut uninit_Primitive uninit_primitiveType
      uninit_numPrimitives scene d in
  let d' := setup_device r in
  snd (fst (snd (assembleMeshes cfg sch MVP MV MV_normal (width d') (height d')
                   (meshes_in_key_order (mesh2PrimitivesMap d')) (mesh2PrimitivesMap d')
                   (prims, 0, k))))
  = totalNumPrimitives d'
  /\ (completed r = true ->
      length <$> dev_primitives d' = Some (Z.to_nat (totalNumPrimitives d'))).
Proof.
  intros Hempty r d'. split.
  - rewrite assembleMeshes_offset. simpl.
    pose proof (rasterizeSetBuffers_ahead uninit_VertexOut uninit_primitiveType
                  uninit_numPrimitives uninit_Primitive scene d) as Hcount.
    fold r in Hcount. fold d' in Hcount.
    rewrite Hempty in Hcount. unfold registeredPrimitives in Hcount at 2.
    rewrite map_to_list_empty in Hcount. simpl in Hcount.
    assert (Hsum : fold_right Z.add 0
                     (map (fun e => primitiveCount (snd e))
                        (meshes_in_key_order (mesh2PrimitivesMap d')))
                   = registeredPrimitives (mesh2PrimitivesMap d')).
    { unfold registeredPrimitives. apply registered_Permutation.
      unfold meshes_in_key_order. apply merge_sort_Permutation. }
    rewrite Hsum. lia.
  - subst d' r. unfold rasterizeSetBuffers.
    destruct (setupNodes _ _ _ _ _) as [d1|d1]; simpl; [|done].
    intros _. unfold fill. by rewrite length_replicate.
Qed.

End FrameOffsets.

(** ** The node matrices *)

Section NodeMatrixFacts.
Context {F : Type} `{Float F}.
Variable mat4_cast : F -> F -> F -> mat4 F.
Variable glm_scale : vec3 F -> mat4 F.

Local Abbreviation getMatrix := (getMatrixFromNodeMatrixVector mat4_cast glm_scale).
Local Abbreviation traverse := (traverseNode mat4_cast glm_scale).

(** X18. A node with a matrix: the 16 first entries are copied column by
    column and translation, rotation and scale are ignored; a matrix of
    fewer than 16 entries makes [at] throw. *)
Theorem getMatrix_copies_or_throws (n : Node F) :
  (0 < length (node_matrix n))%nat ->
  let m k := load fzero (node_matrix n) k in
  getMatrix n
  = if (16 <=? length (node_matrix n))%nat
    then Some (mkmat4 (mkvec4 (m 0) (m 1) (m 2) (m 3)) (mkvec4 (m 4) (m 5) (m 6) (m 7))
                 (mkvec4 (m 8) (m 9) (m 10) (m 11)) (mkvec4 (m 12) (m 13) (m 14) (m 15)))
    else None.
Proof.
  intros Hlen m. subst m. unfold getMatrixFromNodeMatrixVector.
  destruct (node_matrix n) as [|a0 l]; [simpl in Hlen; lia|]. clear Hlen.
  do 15 (destruct l as [|? l]; [reflexivity|]).
  reflexivity.
Qed.

Lemma insert_matrix_subseteq nm M (n2m : gmap string (mat4 F)) :
  n2m ⊆ insert_matrix nm M n2m
  /\ insert_matrix nm M n2m !! nm = Some (default M (n2m !! nm)).
Proof.
  unfold insert_matrix. destruct (n2m !! nm) as [M0|] eqn:Hnm; simpl.
  - done.
  - split; [by apply insert_subseteq | apply lookup_insert_eq].
Qed.

Lemma traverseNode_subseteq fuel nodes :
  forall n2m nm parent n2m',
    traverse fuel n2m nodes nm parent = Done n2m' -> n2m ⊆ n2m'.
Proof.
  induction fuel as [|fuel IH]; intros n2m nm parent n2m' Hdone; [done|].
  simpl in Hdone.
  destruct (nodes !! nm) as [n|]; [|done].
  destruct (getMatrix n) as [local|]; [|done].
  transitivity (insert_matrix nm (mat4_mul parent local) n2m);
    [apply insert_matrix_subseteq|].
  revert Hdone. generalize (insert_matrix nm (mat4_mul parent local) n2m).
  induction (node_children n) as [|c cs IHc]; intros acc Hdone.
  - by inversion Hdone.
  - destruct (traverse fuel acc nodes c (mat4_mul parent local)) as [acc'| |] eqn:Hc;
      [|done|done].
    transitivity acc'; [by eapply IH | by apply IHc].
Qed.

Lemma traverseNode_own_entry fuel nodes (n2m : gmap string (mat4 F)) nm parent n2m' :
  traverse fuel n2m nodes nm parent = Done n2m' ->
  exists n local,
    nodes !! nm = Some n /\ getMatrix n = Some local
    /\ n2m' !! nm = Some (default (mat4_mul parent local) (n2m !! nm)).
Proof.
  intros Hdone.
  destruct fuel as [|fuel]; [done|]. simpl in Hdone.
  destruct (nodes !! nm) as [n|] eqn:Hn; [|done].
  destruct (getMatrix n) as [local|] eqn:Hlocal; [|done].
  exists n, local. split; [done|]. split; [exact Hlocal|].
  destruct (insert_matrix_subseteq nm (mat4_mul parent local) n2m) as [_ Hnm].
  revert Hdone Hnm. generalize (insert_matrix nm (mat4_mul parent local) n2m).
  generalize (default (mat4_mul parent local) (n2m !! nm)). intros M0.
  induction (node_children n) as [|c cs IHc]; intros acc Hdone Hacc.
  - inversion Hdone. by subst.
  - destruct (traverse fuel acc nodes c (mat4_mul parent local)) as [acc'| |] eqn:Hc;
      [|done|done].
    apply (IHc acc' Hdone).
    eapply lookup_weaken; [exact Hacc | by eapply traverseNode_subseteq].
Qed.

(** X19. [traverseNode] never replaces an entry of the node map: when it
    returns, every entry the map held is still there with its matrix, and
    the node itself has an entry, the matrix it had before or, when it had
    none, the parent's matrix times its own.  A node that is reached a
    second time keeps the matrix of its first visit. *)
Theorem traverseNode_first_visit_wins fuel nodes (n2m : gmap string (mat4 F))
    nm parent n2m' :
  traverse fuel n2m nodes nm parent = Done n2m' ->
  n2m ⊆ n2m'
  /\ exists n local,
       nodes !! nm = Some n /\ getMatrix n = Some local
       /\ n2m' !! nm = Some (default (mat4_mul parent local) (n2m !! nm)).
Proof.
  intros Hdone. split; [by eapply traverseNode_subseteq | by eapply traverseNode_own_entry].
Qed.

(** X28. The loop of the set-up over the root nodes: when it returns,
    every entry the node map held is still there and every root of the
    list has an entry; the first root, on a map without it, has the
    identity times its own matrix. *)
Theorem traverseRoots_entries fuel nodes (n2m : gmap string (mat4 F)) roots n2m' :
  traverseRoots mat4_cast glm_scale fuel n2m nodes roots = Done n2m' ->
  n2m ⊆ n2m'
  /\ (forall root, root ∈ roots -> is_Some (n2m' !! root))
  /\ (forall root rest, roots = root :: rest -> n2m !! root = None ->
      exists n local,
        nodes !! root = Some n /\ getMatrix n = Some local
        /\ n2m' !! root = Some (mat4_mul mat4_identity local)).
Proof.
  revert n2m. induction roots as [|r roots IH]; intros n2m Hdone.
  - inversion Hdone; subst. split; [done|]. split; [|done].
    intros root Hin. by apply elem_of_nil in Hin.
  - simpl in Hdone.
    destruct (traverse fuel n2m nodes r mat4_identity) as [n2m1| |] eqn:Hr; [|done|done].
    destruct (IH n2m1 Hdone) as (Hsub & Hroots & _).
    pose proof (traverseNode_subseteq _ _ _ _ _ _ Hr) as Hsub1.
    destruct (traverseNode_own_entry _ _ _ _ _ _ Hr) as (n & local & Hn & Hlocal & Hentry).
    split; [by transitivity n2m1|]. split.
    + intros root Hin. apply elem_of_cons in Hin as [-> | Hin]; [|by apply Hroots].
      eexists. eapply lookup_weaken; [exact Hentry | exact Hsub].
    + intros root rest Heq Hnone. inversion Heq; subst root rest.
      exists n, local. split; [done|]. split; [done|].
      rewrite Hnone in Hentry. simpl in Hentry.
      eapply lookup_weaken; [exact Hentry | exact Hsub].
Qed.

(** X20. On a scene whose nodes all exist and have well-formed matrices and
    whose children all have a smaller rank than their parent (a forest, or
    any graph without a cycle), [traverseNode] returns, with a recursion
    no deeper than the rank of the node plus one. *)
Theorem traverseNode_returns (rank : string -> nat) fuel nodes
    (n2m : gmap string (mat4 F)) nm parent :
  (forall nm n, nodes !! nm = Some n ->
     is_Some (getMatrix n)
     /\ forall c, c ∈ node_children n -> is_Some (nodes !! c) /\ (rank c < rank nm)%nat) ->
  is_Some (nodes !! nm) ->
  (rank nm < fuel)%nat ->
  exists n2m', traverse fuel n2m nodes nm parent = Done n2m'.
Proof.
  intros Hwf. revert n2m nm parent.
  induction fuel as [|fuel IH]; intros n2m nm parent [n Hn] Hrank; [lia|].
  simpl. rewrite Hn.
  destruct (Hwf nm n Hn) as [[local Hlocal] Hchildren]. rewrite Hlocal.
  generalize (insert_matrix nm (mat4_mul parent local) n2m).
  induction (node_children n) as [|c cs IHc]; intros acc.
  - by eexists.
  - destruct (Hchildren c ltac:(left)) as [Hc Hlt].
    destruct (IH acc c (mat4_mul parent local) Hc ltac:(lia)) as [acc' ->].
    apply IHc. intros c' Hc'. apply Hchildren. by right.
Qed.

(** X21. On a cycle of the node graph [traverseNode] does not return: within a
    set of names each of whose nodes has a child in the set, no call
    returns a map, whatever the depth allowed to the recursion. *)
Theorem traverseNode_cycle_never_returns (trap : string -> Prop) nodes :
  (forall nm n, trap nm -> nodes !! nm = Some n ->
     exists c, c ∈ node_children n /\ trap c) ->
  forall fuel (n2m : gmap string (mat4 F)) nm parent n2m',
    trap nm -> traverse fuel n2m nodes nm parent <> Done n2m'.
Proof.
  intros Htrap.
  induction fuel as [|fuel IH]; intros n2m nm parent n2m' Hnm; [done|].
  simpl. destruct (nodes !! nm) as [n|] eqn:Hn; [|done].
  destruct (getMatrix n) as [local|]; [|done].
  destruct (Htrap nm n Hnm Hn) as (c & Hc & Hcc).
  generalize (insert_matrix nm (mat4_mul parent local) n2m).
  induction (node_children n) as [|c' cs IHc]; intros acc.
  - by apply elem_of_nil in Hc.
  - destruct (traverse fuel acc nodes c' (mat4_mul parent local)) as [acc'| |] eqn:Hc';
      [|done|done].
    apply elem_of_cons in Hc as [-> | Hc].
    + exfalso. by apply (IH acc c' (mat4_mul parent local) acc').
    + by apply IHc.
Qed.

End NodeMatrixFacts.

(** ** The copy to the display *)

Section DisplayFacts.
Context {F : Type} `{Float F}.

Lemma sendImageToPBO_launch w h (image : list (vec3 F)) (pbo : list uchar4) :
  sendImageToPBO pbo w h image
  = launch2d
      (cellwise zero_uchar4 (inImage w h) (pixelIndex w)
         (fun t _ => texelOf (load (vec3_splat fzero) image (pixelIndex w t))))
      w h pbo.
Proof.
  unfold sendImageToPBO, launch2d. generalize (grid2d w h) pbo.
  intros l; induction l as [|[x y] l IH]; intros p; simpl; [done|].
  rewrite <- IH. done.
Qed.

(** X22. Every pixel of the display buffer is the texel of the same pixel of
    the image, with [w = 0], whatever the buffer held; the buffer keeps
    its size. *)
Theorem sendImageToPBO_pixel w h (image : list (vec3 F)) (pbo : list uchar4) x y :
  0 <= x < w -> 0 <= y < h -> Z.of_nat (length pbo) = w * h ->
  let pbo' := sendImageToPBO pbo w h image in
  load zero_uchar4 pbo' (x + y * w)
  = texelOf (load (vec3_splat fzero) image (x + y * w))
  /\ c4w (load zero_uchar4 pbo' (x + y * w)) = 0
  /\ length pbo' = length pbo.
Proof.
  intros Hx Hy Hlen pbo'. subst pbo'. rewrite sendImageToPBO_launch.
  rewrite launch2d_cellwise by done.
  split; [done|]. split; [done|]. apply length_launch2d_cellwise.
Qed.

End DisplayFacts.

(** ** Culling and the rasterizer together *)

Section LogOrigin.
Context {L Sh E : Type}.
Variable step : L -> Sh -> L * Sh * list E.
Variable finished : L -> bool.

(** Only threads that had not returned when the run began appear in its
    log. *)
Lemma run_log_unfinished sched (ls : list L) (s : Sh) t e :
  (t, e) ∈ snd (run step finished sched ls s) ->
  exists l, ls !! t = Some l /\ finished l = false.
Proof.
  revert ls s. induction sched as [|t0 sched IH]; intros ls s; simpl.
  { intros Hin. inversion Hin. }
  destruct (ls !! t0) as [l0|] eqn:Hl0; [|by apply IH].
  destruct (finished l0) eqn:Hf0; [by apply IH|].
  destruct (step l0 s) as [[l' s1] es].
  specialize (IH (<[t0:=l']> ls) s1).
  destruct (run step finished sched (<[t0:=l']> ls) s1) as [[ls2 s2] tr]. simpl in *.
  rewrite elem_of_app. intros [Hin|Hin].
  - apply list_elem_of_fmap in Hin as (e' & Heq & _). inversion Heq; subst.
    by exists l0.
  - destruct (IH Hin) as (l & Hl & Hf).
    destruct (decide (t = t0)) as [->|Hne]; [by exists l0|].
    rewrite list_lookup_insert_ne in Hl by done. by exists l.
Qed.

End LogOrigin.

Section CullAndRaster.
Context {F : Type} `{Float F}.
Variable getAABBForTriangle : triangle F -> Z -> Z -> AABB.
Variable calculateBarycentricCoordinate : triangle F -> vec2 F -> vec3 F.
Variable isBarycentricCoordInBounds : vec3 F -> bool.
Variable getZAtCoordinate : vec3 F -> triangle F -> F.
Variable cfg : Config.

Local Abbreviation launchC :=
  (generateFragments getAABBForTriangle calculateBarycentricCoordinate
     isBarycentricCoordInBounds getZAtCoordinate cfg).

(** Every event of a launch is one of a worker below [numPrimitives]. *)
Lemma launch_log_worker sched numPrimitives (prims : list (Primitive F)) w h
    (fragments : list (Fragment F)) (depth : list Z) off t e :
  (t, e) ∈ snd (launchC sched numPrimitives prims w h fragments depth off) ->
  Z.of_nat t < numPrimitives.
Proof.
  unfold generateFragments.
  match goal with
  | |- context [kernel ?st ?fin ?fu ?sc ?ls ?s0] =>
      destruct (kernel_is_run st fin fu sc ls s0) as [sched' ->]
  end.
  intros Hin. apply run_log_unfinished in Hin as (wk & Hl & Hf).
  apply grid1d_lookup in Hl as [-> _].
  unfold generateFragments_thread, raster_finished in Hf.
  destruct (Z.geb_spec (Z.of_nat t) numPrimitives); [done | lia].
Qed.

(** X24. With back-face culling, whatever the schedule, every event of the
    rasterizer (every [atomicMin], every fragment stored) is one of a
    worker whose primitive has the cull flag false: the launch over the
    [frontPrims] first cells of the compacted buffer never reads a culled
    primitive. *)
Theorem culled_primitives_are_not_rasterized
    (d : Primitive F) (prims : list (Primitive F)) sched w h
    (fragments : list (Fragment F)) (depth : list Z) off t e :
  BACKFACE_CULLING cfg = true ->
  let prims' := fst (cullPrimitives cfg prims (Z.of_nat (length prims))) in
  let frontPrims := snd (cullPrimitives cfg prims (Z.of_nat (length prims))) in
  (t, e) ∈ snd (launchC sched frontPrims prims' w h fragments depth off) ->
  Z.of_nat t < frontPrims
  /\ cull (load d prims' (Z.of_nat t)) = false
  /\ load d prims' (Z.of_nat t) ∈ prims.
Proof.
  intros Hcull prims' frontPrims Hin.
  apply launch_log_worker in Hin. split; [done|].
  subst prims' frontPrims. unfold cullPrimitives in *. rewrite Hcull in *.
  rewrite remove_if_spec in *. simpl in *.
  unfold load. destruct (Z.leb_spec 0 (Z.of_nat t)); [|lia].
  rewrite Nat2Z.id. rewrite lookup_app_l by lia.
  destruct (kept toCull prims !! t) as [p|] eqn:Hp.
  - simpl. apply list_elem_of_lookup_2 in Hp. unfold kept in Hp.
    apply list_elem_of_In, filter_In in Hp as [Hp Hc].
    split; [|by apply list_elem_of_In].
    unfold toCull in Hc. by destruct (cull p).
  - apply lookup_ge_None in Hp. lia.
Qed.

End CullAndRaster.

(** ** Triangle strips and fans *)

Section StripsAndFans.
Context {F : Type} `{Float F}.
Variable uninit_VertexOut : VertexOut F.
Variable uninit_primitiveType : PrimitiveType.
Variable uninit_numPrimitives : Z.

Local Abbreviation devBufS :=
  (devBufPointersOf uninit_VertexOut uninit_primitiveType uninit_numPrimitives).

(** X25. A primitive in strip or fan mode with [n] indices is registered with
    [n - 2] triangles, but the vertex stage and assembly treat its indices
    as a triangle list: under every schedule the launch leaves every
    primitive from the [ceil (n / 3)]-th of the record on as it was.  From
    5 indices on, the last triangle the set-up counted,
    [curPrimitiveBeginId + n - 3], is among those that are never
    assembled. *)
Theorem strips_and_fans_are_assembled_as_lists
    (M : mat4 F) (MN : mat3 F) (p : GltfPrimitive F) (d : Primitive F) cfg sched
    (MVP MV : mat4 F) (MV_normal : mat3 F) w h cur (prims : list (Primitive F)) pid :
  mode p = TINYGLTF_MODE_TRIANGLE_STRIP \/ mode p = TINYGLTF_MODE_TRIANGLE_FAN ->
  indexCount p <= 3 * (pid - cur) ->
  let b := devBufS M MN p in
  let b' := _vertexTransformAndAssembly cfg (numVertices b) b MVP MV MV_normal w h in
  numPrimitives b = indexCount p - 2
  /\ load d (snd (fst (_primitiveAssembly sched (numIndices b) cur prims b'))) pid
     = load d prims pid
  /\ (5 <= indexCount p -> pid = cur + indexCount p - 3 ->
      cur <= pid < cur + numPrimitives b).
Proof.
  intros Hmode Hpid b b'.
  assert (Hrec : numIndices b = indexCount p
                 /\ (dev_primitiveType b, numPrimitives b)
                    = primitiveInfo uninit_primitiveType uninit_numPrimitives
                        (mode p) (indexCount p)).
  { subst b. unfold devBufPointersOf.
    destruct (primitiveInfo _ _ _ _) as [ty np].
    destruct (_nodeMatrixTransform _ _ _ _ _) as [pos nor]. done. }
  destruct Hrec as (Hn & Hinfo).
  assert (Hty : dev_primitiveType b = Triangle /\ numPrimitives b = indexCount p - 2).
  { destruct Hmode as [Hm | Hm]; rewrite Hm in Hinfo; simpl in Hinfo;
      by injection Hinfo as -> ->. }
  destruct Hty as [Hty Hnp].
  split; [done|]. split.
  - apply assembly_other_primitives. right.
    change (dev_primitiveType b') with (dev_primitiveType b).
    rewrite Hty, Hn. simpl. lia.
  - intros. lia.
Qed.

End StripsAndFans.

(** ** The device copies of the buffer views *)

Section BufferViewFacts.

Local Abbreviation copy_step :=
  (fun (m : gmap string (list Z)) (bv : BufferView) =>
     if (target bv =? 0)%Z then m
     else match m !! key bv with Some _ => m | None => <[key bv := bytes bv]> m end).

Lemma copy_fold_other (vs : list BufferView) (m : gmap string (list Z)) k :
  k ∉ key <$> vs -> fold_left copy_step vs m !! k = m !! k.
Proof.
  revert m. induction vs as [|bv vs IH]; intros m Hk; simpl; [done|].
  rewrite fmap_cons in Hk. apply not_elem_of_cons in Hk as [Hne Hk].
  rewrite IH by done.
  destruct (target bv =? 0); [done|].
  destruct (m !! key bv); [done|]. by rewrite lookup_insert_ne.
Qed.

(** X26. The first step of the set-up, on buffer views with distinct keys (the
    entries of a [std::map]): a view whose target is 0 gets no device
    copy, every other view gets a copy of its bytes under its own key. *)
Theorem copyBufferViews_lookup (vs : list BufferView) (bv : BufferView) :
  NoDup (key <$> vs) -> bv ∈ vs ->
  copyBufferViews vs !! key bv
  = if (target bv =? 0)%Z then None else Some (bytes bv).
Proof.
  unfold copyBufferViews.
  assert (Hgen : forall m : gmap string (list Z),
            NoDup (key <$> vs) -> bv ∈ vs -> m !! key bv = None ->
            fold_left copy_step vs m !! key bv
            = if (target bv =? 0)%Z then None else Some (bytes bv)).
  { induction vs as [|bv0 vs IH]; intros m Hnd Hin Hm.
    - by apply elem_of_nil in Hin.
    - rewrite fmap_cons in Hnd. apply NoDup_cons in Hnd as [Hfresh Hnd].
      simpl. apply elem_of_cons in Hin as [<- | Hin].
      + rewrite copy_fold_other by done.
        destruct (target bv =? 0); [done|]. rewrite Hm. apply lookup_insert_eq.
      + apply IH; [done | done |].
        assert (Hne : key bv0 <> key bv).
        { intros Heq. apply Hfresh. rewrite Heq. apply list_elem_of_fmap. by exists bv. }
        destruct (target bv0 =? 0); [done|].
        destruct (m !! key bv0); [done|]. by rewrite lookup_insert_ne. }
  intros Hnd Hin. by apply Hgen.
Qed.

End BufferViewFacts.

(** ** The viewport mapping, in exact arithmetic *)

Section ExactViewport.


End ExactViewport.

(** ** The further properties on the example data *)

(** The 3x1 image: the depth cell of pixel 1, which the example primitive
    covers, ends at or below the encoded depth of the primitive. *)
Lemma depth_buffer_is_nearest_witness :
  load 0 (depthBuffer (snd (fst
    (generateFragments demo_getAABB_clamped demo_barycentric demo_inBounds demo_getZ
       source_config [0%nat] 1 [demo_primitive] 3 1 (fragmentBuffer demo_state) [5; 6; 7]
       demo_offset)))) (0 * 3 + 1)
  <= Z.min (load 0 [5; 6; 7] (0 * 3 + 1))
       (encodeDepth (depthAt demo_barycentric demo_getZ demo_primitive demo_offset (1, 0))).
Proof.
  refine (depth_buffer_is_nearest demo_getAABB_clamped demo_barycentric demo_inBounds
            demo_getZ source_config [0%nat] 1 [demo_primitive] 3 1
            (fragmentBuffer demo_state) [5; 6; 7] demo_offset 0 1 0 _ _ _ _ _);
    [lia | reflexivity | reflexivity | | vm_compute; reflexivity].
  change (pixelsOf _) with [(0, 0); (1, 0)]. set_solver.
Defined.

(** The same launch: pixel 2 lies outside the box of the primitive and
    keeps its depth and its fragment. *)
Lemma rasterizer_writes_only_covered_pixels_witness :
  let s := snd (fst
    (generateFragments demo_getAABB_clamped demo_barycentric demo_inBounds demo_getZ
       source_config [0%nat] 1 [demo_primitive] 3 1
       [facing_Fragment; facing_Fragment; facing_Fragment] [5; 6; 7] demo_offset)) in
  load 0 (depthBuffer s) 2 = 7
  /\ load zero_Fragment (fragmentBuffer s) 2 = facing_Fragment.
Proof.
  refine (rasterizer_writes_only_covered_pixels demo_getAABB_clamped demo_barycentric
            demo_inBounds demo_getZ source_config [0%nat] 1 [demo_primitive] 3 1
            [facing_Fragment; facing_Fragment; facing_Fragment] [5; 6; 7] demo_offset 2 _).
  intros primIdx [x y] Hidx p Hin _.
  change (pixelsOf _) with [(0, 0); (1, 0)] in Hin.
  apply elem_of_cons in Hin as [Hin | Hin]; [|apply list_elem_of_singleton in Hin];
    inversion Hin; simpl; lia.
Defined.

(** The vertex stage on the example mesh primitive: vertex 1 is the
    transform of its attributes. *)
Lemma vertex_stage_cells_witness :
  let out :=
    dev_verticesOut (_vertexTransformAndAssembly source_config 3 demo_devBufPointers
                       demo_identity4 demo_identity4 demo_identity3 2 2) in
  length out = 3%nat
  /\ load zero_VertexOut out 1
     = transformVertex source_config demo_devBufPointers demo_identity4 demo_identity4
         demo_identity3 2 2 1.
Proof.
  destruct (vertex_stage_cells source_config 3 demo_devBufPointers demo_identity4
              demo_identity4 demo_identity3 2 2 1) as (Hl & Hc & _); [simpl; lia|].
  split; [exact Hl | apply Hc; lia].
Defined.

(** A launch for the three indices of one triangle at offset 0 leaves the
    primitive 1 of the buffer as it was. *)
Lemma assembly_leaves_other_primitives_witness :
  load demo_primitive
    (snd (fst (_primitiveAssembly [] 3 0 [demo_primitive; demo_primitive]
                 demo_devBufPointers))) 1
  = demo_primitive.
Proof.
  refine (assembly_leaves_other_primitives demo_primitive [] 3 0
            [demo_primitive; demo_primitive] demo_devBufPointers 1 _).
  right. simpl. lia.
Defined.

(** The vertex stage followed by assembly on the example mesh primitive:
    slot 1 of primitive 0 holds the transformed vertex 1. *)
Lemma vertex_stage_then_assembly_witness :
  let primitive' :=
    _vertexTransformAndAssembly source_config 3 demo_devBufPointers demo_identity4
      demo_identity4 demo_identity3 2 2 in
  let p' :=
    load demo_primitive
      (snd (fst (_primitiveAssembly [] 3 0 [demo_primitive] primitive'))) (0 + 0) in
  get_v p' 1
  = transformVertex source_config demo_devBufPointers demo_identity4 demo_identity4
      demo_identity3 2 2 (load 0 [0; 1; 2] (3 * 0 + 1)).
Proof.
  refine (proj1 (vertex_stage_then_assembly demo_primitive source_config []
                   demo_devBufPointers demo_identity4 demo_identity4 demo_identity3 2 2 0
                   [demo_primitive] 0 _ _ _ _ _ _ _) 1 _);
    [reflexivity | unfold demo_devBufPointers; simpl; lia | | lia | lia
    | unfold demo_devBufPointers; simpl; lia | simpl; lia | lia].
  intros i Hi. unfold demo_devBufPointers in *. simpl in Hi.
  assert (Hcase : i = 0 \/ i = 1 \/ i = 2) by lia.
  destruct Hcase as [-> | [-> | ->]]; unfold load; simpl; lia.
Defined.

(** Two attributes of two 2-byte components, 6 bytes apart from byte 1 on:
    byte 1 of component 0 of attribute 1 comes from source byte 8. *)
Lemma deviceBufferCopy_gathers_witness :
  let dst' :=
    _deviceBufferCopy 4 [0; 0; 0; 0; 0; 0; 0; 0; 77]
      [10; 11; 12; 13; 14; 15; 16; 17; 18; 19; 20; 21] 2 6 1 2 in
  load 0 dst' ((1 * 2 + 0) * 2 + 1) = 18
  /\ load 0 dst' 8 = 77
  /\ length dst' = 9%nat.
Proof.
  refine (deviceBufferCopy_gathers 4 [0; 0; 0; 0; 0; 0; 0; 0; 77]
            [10; 11; 12; 13; 14; 15; 16; 17; 18; 19; 20; 21] 2 6 1 2 1 0 1 8
            _ _ _ _ _ _ _);
    simpl; lia.
Defined.

Lemma deviceBufferCopy_packed_witness :
  load 0 (_deviceBufferCopy 4 [0; 0; 0; 0; 0; 0; 0; 0]
            [10; 11; 12; 13; 14; 15; 16; 17; 18; 19] 2 0 1 2) 3
  = load 0 [10; 11; 12; 13; 14; 15; 16; 17; 18; 19] (1 + 3).
Proof.
  refine (deviceBufferCopy_packed 4 [0; 0; 0; 0; 0; 0; 0; 0]
            [10; 11; 12; 13; 14; 15; 16; 17; 18; 19] 2 1 2 3 _ _ _ _);
    simpl; lia.
Defined.

(** A UV inside texel (0, 0) of the 2x2 texture: the byte that follows
    the texture is not read. *)
Lemma samplers_read_inside_texture_witness :
  sample demo_uv demo_texture 2 2 = sample demo_uv demo_texture_longer 2 2
  /\ sampleBilinear demo_uv demo_texture 2 2
     = sampleBilinear demo_uv demo_texture_longer 2 2.
Proof.
  refine (samplers_read_inside_texture demo_uv demo_texture demo_texture_longer 2 2 _ _ _).
  - vm_compute. split; [discriminate | reflexivity].
  - vm_compute. split; [discriminate | reflexivity].
  - intros k Hk. unfold demo_texture_longer, load.
    destruct (0 <=? k); [|done].
    rewrite lookup_app_l by (simpl; lia). done.
Defined.

(** Exact arithmetic: the UV (1/2, 1/2) is the corner of texel (1, 1). *)
Lemma sampleBilinear_at_texel_corner_witness :
  sampleBilinear (mkvec2 (1 / 2)%R (1 / 2)%R) demo_texture 2 2
  = sample (mkvec2 (1 / 2)%R (1 / 2)%R) demo_texture 2 2.
Proof.
  refine (sampleBilinear_at_texel_corner (mkvec2 (1 / 2)%R (1 / 2)%R) demo_texture 2 2
            1 1 _ _);
    simpl; lra.
Defined.

(** The node transform of one vertex under the identity. *)
Lemma nodeMatrixTransform_cells_witness :
  let r :=
    _nodeMatrixTransform 1 [mkvec3 fone fzero fzero; quarter] [mkvec3 fzero fzero fone]
      demo_identity4 demo_identity3 in
  length (fst r) = 2%nat /\ load (vec3_splat fzero) (fst r) 1 = quarter.
Proof.
  destruct (nodeMatrixTransform_cells 1 demo_identity4 demo_identity3
              [mkvec3 fone fzero fzero; quarter] [mkvec3 fzero fzero fone] 1)
    as (Hl & _ & _ & Hrest); [simpl; lia | simpl; lia |].
  split; [exact Hl | apply Hrest; lia].
Defined.

(** The line scene on the fresh device: the offsets of the frame end at
    the one primitive the set-up counted. *)
Lemma frame_offsets_end_at_total_witness :
  let d' := setup_device (demo_setup demo_line_scene demo_device) in
  snd (fst (snd (assembleMeshes source_config (mkSchedules (fun _ => []) (fun _ _ => []))
                   demo_identity4 demo_identity4 demo_identity3 (width d') (height d')
                   (meshes_in_key_order (mesh2PrimitivesMap d')) (mesh2PrimitivesMap d')
                   ([], 0, O))))
  = totalNumPrimitives d'.
Proof.
  refine (proj1 (frame_offsets_end_at_total source_config (demo_vertex (vec3_splat fzero))
                   demo_primitive Triangle 0 demo_line_scene demo_device
                   (mkSchedules (fun _ => []) (fun _ _ => []))
                   demo_identity4 demo_identity4 demo_identity3 [] O _)).
  reflexivity.
Defined.

(** A node matrix of three entries: the fourth [at] throws. *)
Lemma getMatrix_copies_or_throws_witness :
  getMatrixFromNodeMatrixVector demo_mat4_cast demo_glm_scale demo_short_matrix = None.
Proof.
  refine (getMatrix_copies_or_throws demo_mat4_cast demo_glm_scale demo_short_matrix _).
  simpl. lia.
Defined.

(** The root with its leaf, from the empty map. *)
Lemma traverseNode_first_visit_wins_witness :
  exists n local,
    demo_nodes !! "leaf" = Some n
    /\ getMatrixFromNodeMatrixVector demo_mat4_cast demo_glm_scale n = Some local
    /\ (<["leaf" := demo_identity4]> ∅ : gmap string (mat4 binary32)) !! "leaf"
       = Some (default (mat4_mul demo_identity4 local)
                 ((∅ : gmap string (mat4 binary32)) !! "leaf")).
Proof.
  refine (proj2 (traverseNode_first_visit_wins demo_mat4_cast demo_glm_scale 1 demo_nodes
                   ∅ "leaf" demo_identity4 (<["leaf" := demo_identity4]> ∅) _)).
  vm_compute. reflexivity.
Defined.

Lemma traverseNode_returns_witness :
  exists n2m',
    traverseNode demo_mat4_cast demo_glm_scale 2 ∅ demo_nodes "root" demo_identity4
    = Done n2m'.
Proof.
  refine (traverseNode_returns demo_mat4_cast demo_glm_scale demo_rank 2 demo_nodes ∅
            "root" demo_identity4 _ _ _).
  - intros nm n Hn. unfold demo_nodes in Hn.
    apply lookup_insert_Some in Hn as [[<- <-] | [Hne Hn]].
    + split; [by eexists|]. intros c Hc. simpl in Hc.
      apply list_elem_of_singleton in Hc as ->. split; [by eexists|]. vm_compute. lia.
    + apply lookup_insert_Some in Hn as [[<- <-] | [_ Hn]]; [|done].
      split; [by eexists|]. intros c Hc. by apply elem_of_nil in Hc.
  - by eexists.
  - vm_compute. lia.
Defined.

(** The node that is its own child: five levels of recursion do not
    return a map. *)
Lemma traverseNode_cycle_never_returns_witness :
  match traverseNode demo_mat4_cast demo_glm_scale 5 ∅ demo_cycle "a" demo_identity4 with
  | Done _ => False
  | _ => True
  end.
Proof.
  destruct (traverseNode demo_mat4_cast demo_glm_scale 5 ∅ demo_cycle "a" demo_identity4)
    as [n2m'| |] eqn:Hrun; [|exact I|exact I].
  refine (traverseNode_cycle_never_returns demo_mat4_cast demo_glm_scale
            (fun nm => nm = "a") demo_cycle _ 5%nat ∅ "a" demo_identity4 n2m' _ Hrun);
    [|reflexivity].
  intros nm n -> Hn. unfold demo_cycle in Hn.
  rewrite lookup_insert_eq in Hn. injection Hn as <-.
  exists "a". split; [by left | done].
Defined.

(** A white pixel on a 1x1 display buffer. *)
Lemma sendImageToPBO_pixel_witness :
  let pbo' := sendImageToPBO [mkuchar4 9 9 9 9] 1 1 [vec3_splat (fone (F := binary32))] in
  load zero_uchar4 pbo' (0 + 0 * 1)
  = texelOf (load (vec3_splat fzero) [vec3_splat (fone (F := binary32))] (0 + 0 * 1))
  /\ c4w (load zero_uchar4 pbo' (0 + 0 * 1)) = 0
  /\ length pbo' = 1%nat.
Proof.
  refine (sendImageToPBO_pixel 1 1 [vec3_splat (fone (F := binary32))] [mkuchar4 9 9 9 9]
            0 0 _ _ _);
    [lia | lia | reflexivity].
Defined.

(** The buffer view of the line scene has the target 34963 and is copied. *)
Lemma copyBufferViews_lookup_witness :
  copyBufferViews (bufferViews demo_line_scene) !! "bufferView_indices"
  = if 34963 =? 0 then None else Some [0; 0; 1; 0].
Proof.
  refine (copyBufferViews_lookup (bufferViews demo_line_scene)
            (mkBufferView "bufferView_indices" 34963 [0; 0; 1; 0]) _ _).
  - simpl. apply NoDup_singleton.
  - simpl. by left.
Defined.

(** A strip of five indices at offset 0: the launch leaves primitive 2,
    the last of the three the set-up counted, as it was. *)
Lemma strips_and_fans_are_assembled_as_lists_witness :
  let b :=
    devBufPointersOf (demo_vertex (vec3_splat fzero)) Triangle 0 demo_identity4
      demo_identity3 demo_strip_primitive in
  let b' :=
    _vertexTransformAndAssembly source_config (numVertices b) b demo_identity4
      demo_identity4 demo_identity3 2 2 in
  numPrimitives b = 5 - 2
  /\ load demo_primitive
       (snd (fst (_primitiveAssembly [] (numIndices b) 0
                    [demo_primitive; demo_primitive; demo_primitive] b'))) 2
     = demo_primitive.
Proof.
  destruct (strips_and_fans_are_assembled_as_lists (demo_vertex (vec3_splat fzero))
              Triangle 0 demo_identity4 demo_identity3 demo_strip_primitive demo_primitive
              source_config [] demo_identity4 demo_identity4 demo_identity3 2 2 0
              [demo_primitive; demo_primitive; demo_primitive] 2)
    as (Hn & Hp & _); [by left | simpl; lia |].
  split; [exact Hn | exact Hp].
Defined.


(** The launch over the one survivor of the compaction: its first event
    is one of worker 0, whose primitive is not culled. *)
Lemma culled_primitives_are_not_rasterized_witness :
  let prims := [demo_primitive] in
  let prims' := fst (cullPrimitives source_config prims 1) in
  let frontPrims := snd (cullPrimitives source_config prims 1) in
  Z.of_nat 0 < frontPrims
  /\ cull (load demo_primitive prims' (Z.of_nat 0)) = false
  /\ load demo_primitive prims' (Z.of_nat 0) ∈ prims.
Proof.
  refine (culled_primitives_are_not_rasterized demo_getAABB_clamped demo_barycentric
            demo_inBounds demo_getZ source_config demo_primitive [demo_primitive] [0%nat]
            3 1 (fragmentBuffer demo_state) [5; 6; 7] demo_offset 0%nat
            (EvMin 1 (encodeDepth
                        (depthAt demo_barycentric demo_getZ demo_primitive demo_offset (1, 0))))
            _ _);
    [reflexivity|].
  apply list_elem_of_In. vm_compute. left. reflexivity.
Defined.

(** The root list of the example graph, from the empty map. *)
Lemma traverseRoots_entries_witness :
  exists n local,
    demo_nodes !! "root" = Some n
    /\ getMatrixFromNodeMatrixVector demo_mat4_cast demo_glm_scale n = Some local
    /\ (<["leaf" := demo_identity4]> (<["root" := demo_identity4]> ∅)
        : gmap string (mat4 binary32)) !! "root"
       = Some (mat4_mul mat4_identity local).
Proof.
  refine (proj2 (proj2 (traverseRoots_entries demo_mat4_cast demo_glm_scale 2 demo_nodes ∅
                          ["root"]
                          (<["leaf" := demo_identity4]> (<["root" := demo_identity4]> ∅)) _))
            "root" [] _ _);
    [vm_compute; reflexivity | reflexivity | reflexivity].
Defined.

(** The pass on the 3x1 image: pixel 2 lies outside the box of the one
    primitive and ends the pass as background. *)
Lemma uncovered_pixel_is_background_witness :
  let r :=
    samplePass demo_getAABB_clamped demo_barycentric demo_inBounds demo_getZ
      source_config [0%nat] 3 1 1 [demo_primitive] 0 0
      [facing_Fragment; facing_Fragment; facing_Fragment] [5; 6; 7]
      [quarter; quarter; quarter] in
  load zero_Fragment (fst (fst (fst r))) (2 + 0 * 3) = zero_Fragment
  /\ load (vec3_splat fzero) (snd (fst r)) (2 + 0 * 3) = vec3_splat fzero.
Proof.
  refine (uncovered_pixel_is_background demo_getAABB_clamped demo_barycentric demo_inBounds
            demo_getZ source_config [0%nat] 3 1 1 [demo_primitive] 0 0
            [facing_Fragment; facing_Fragment; facing_Fragment] [5; 6; 7]
            [quarter; quarter; quarter] 2 0 _ _ _ _ _ _);
    [lia | lia | lia | reflexivity | reflexivity |].
  intros primIdx [x y] Hidx p Hin _.
  change (pixelsOf _) with [(0, 0); (1, 0)] in Hin.
  apply elem_of_cons in Hin as [Hin | Hin]; [|apply list_elem_of_singleton in Hin];
    inversion Hin; simpl; lia.
Defined.

(** The launch on the 3x1 image under two schedules: the depth cell of
    pixel 1 is not above what it held. *)
Lemma depth_buffer_schedule_independent_witness :
  load 0 (depthBuffer (snd (fst
    (generateFragments demo_getAABB_clamped demo_barycentric demo_inBounds demo_getZ
       source_config [0%nat] 1 [demo_primitive] 3 1 (fragmentBuffer demo_state) [5; 6; 7]
       demo_offset)))) 1
  <= load 0 [5; 6; 7] 1.
Proof.
  refine (proj1 (proj2 (proj2
            (depth_buffer_schedule_independent demo_getAABB_clamped demo_barycentric
               demo_inBounds demo_getZ source_config [0%nat] [0%nat; 0%nat; 0%nat] 1
               [demo_primitive] 3 1 (fragmentBuffer demo_state) [5; 6; 7] demo_offset))
            1 _)).
  simpl. lia.
Defined.

